(** * A shallow embedding of the toil leader, job store and target graph

    The development follows the Python sources:
    - [toil/jobStores/abstractJobStore.py] and [toil/jobStores/fileJobStore.py]
      (the job store),
    - [jobTree/target.py] (the target graph and its serialisation),
    - [toil/leader.py] (the job batcher, the toil state and the main loop).
    Part I holds the definitions, Parts II and III the properties, and
    Part IV the places where the code falls short of what it documents.

    Python objects that are shared and mutated are kept in explicit heaps,
    dictionaries are finite maps, sets are finite sets, and every function
    that can raise returns a result that names the exception. *)

From Stdlib Require Import ZArith QArith Bool List String Ascii Lia.
From stdpp Require Import base option list gmap strings pretty fin_maps fin_sets.

Local Open Scope string_scope.
Local Open Scope list_scope.
Local Open Scope Z_scope.

#[local] Set Warnings "-register-all,-clear-no-such-hyp".

(** ** Exceptions and results *)

Inductive PyError : Type :=
| AssertionError
| RuntimeError (msg : string)
| ValueError
| TypeError
| AttributeError
| KeyError
| IndexError
| EOFError
| OSError
| IOError
| NoSuchJobException
| NoSuchFileException.

(** The outcome of running a piece of Python: a value, a raised exception,
    or (only for the functions below that recurse over an object graph on
    fuel) the fuel ran out. *)
Inductive Res (A : Type) : Type :=
| Ok (a : A)
| Raise (e : PyError)
| OutOfFuel.
Arguments Ok {A} a.
Arguments Raise {A} e.
Arguments OutOfFuel {A}.

Global Instance Res_bind : MBind Res := fun A B (k : A -> Res B) (m : Res A) =>
  match m with
  | Ok a => k a
  | Raise e => Raise e
  | OutOfFuel => OutOfFuel
  end.

Global Instance Res_ret : MRet Res := fun A (a : A) => Ok a.

(** [assert c] *)
Definition py_assert (c : bool) : Res unit :=
  if c then Ok tt else Raise AssertionError.

(** A [for] loop that threads a state and stops at the first exception. *)
Fixpoint forM {A S : Type} (l : list A) (body : A -> S -> Res S) (s : S) : Res S :=
  match l with
  | [] => Ok s
  | a :: l' => s' ← body a s; forM l' body s'
  end.

(** [map] with a stateful function, left to right. *)
Fixpoint mapM {A B S : Type} (f : A -> S -> Res (B * S)) (l : list A) (s : S)
  : Res (list B * S) :=
  match l with
  | [] => Ok ([], s)
  | a :: l' =>
      '(b, s1) ← f a s;
      '(bs, s2) ← mapM f l' s1;
      Ok (b :: bs, s2)
  end.

(** ** Python values that the job records carry *)

(** The scalars found in job records: [None], strings (ids, uuids) and
    numbers (resources). *)
Inductive Atom : Type :=
| PNone
| PStr (s : string)
| PNum (z : Z).

Global Instance Atom_eq_dec : EqDecision Atom.
Proof. solve_decision. Defined.

Global Instance Atom_countable : Countable Atom.
Proof.
  refine (inj_countable'
    (fun a => match a with
              | PNone => inl tt
              | PStr s => inr (inl s)
              | PNum z => inr (inr z)
              end)
    (fun x => match x with
              | inl _ => PNone
              | inr (inl s) => PStr s
              | inr (inr z) => PNum z
              end) _).
  intros []; reflexivity.
Defined.

(** An element of a stack phase.  The sources put tuples there
    ([Target._makeJobWrappers], the job store test) and, after a partial
    pruning by [AbstractJobStore.clean], bare ids. *)
Inductive StackEntry : Type :=
| PTuple (items : list Atom)
| PAtom (a : Atom).

Global Instance StackEntry_eq_dec : EqDecision StackEntry.
Proof. solve_decision. Defined.

(** [x[0]] *)
Definition index0 (x : StackEntry) : Res Atom :=
  match x with
  | PTuple (a :: _) => Ok a
  | PTuple [] => Raise IndexError
  | PAtom (PStr (String c _)) => Ok (PStr (String c EmptyString))
  | PAtom (PStr EmptyString) => Raise IndexError
  | PAtom _ => Raise TypeError
  end.

(** The items that iterating over [x] yields: the components of a tuple, the
    characters of a string. *)
Fixpoint chars (s : string) : list Atom :=
  match s with
  | EmptyString => []
  | String c s' => PStr (String c EmptyString) :: chars s'
  end.

Definition iter_items (x : StackEntry) : Res (list Atom) :=
  match x with
  | PTuple l => Ok l
  | PAtom (PStr s) => Ok (chars s)
  | PAtom _ => Raise TypeError
  end.

(** [a, b, c, d, e = x]: exactly five items, else [ValueError]. *)
Definition unpack5 (x : StackEntry) : Res (Atom * Atom * Atom * Atom * Atom) :=
  l ← iter_items x;
  match l with
  | [a; b; c; d; e] => Ok (a, b, c, d, e)
  | _ => Raise ValueError
  end.

(** ** Job records *)

(** Modelled from the spec: the class [BatchJob] ([toil/batchJob.py]) is not
    part of the sources at hand; its fields are those of the spec's JobRecord
    table, which are also the attributes that the leader, the job stores and
    the job store test read and write. *)
Record BatchJob : Type := mkBatchJob {
  command : option string;
  memory : Atom;
  cpu : Atom;
  disk : Atom;
  jobStoreID : string;
  remainingRetryCount : Z;
  updateID : Atom;
  predecessorNumber : Z;
  jobsToDelete : list Atom;
  predecessorsFinished : gset Atom;
  stack : list (list StackEntry);
  logJobStoreFileID : option string
}.

Definition set_command (c : option string) (j : BatchJob) : BatchJob :=
  mkBatchJob c (memory j) (cpu j) (disk j) (jobStoreID j) (remainingRetryCount j)
    (updateID j) (predecessorNumber j) (jobsToDelete j) (predecessorsFinished j)
    (stack j) (logJobStoreFileID j).

Definition set_remainingRetryCount (n : Z) (j : BatchJob) : BatchJob :=
  mkBatchJob (command j) (memory j) (cpu j) (disk j) (jobStoreID j) n
    (updateID j) (predecessorNumber j) (jobsToDelete j) (predecessorsFinished j)
    (stack j) (logJobStoreFileID j).

Definition set_jobsToDelete (l : list Atom) (j : BatchJob) : BatchJob :=
  mkBatchJob (command j) (memory j) (cpu j) (disk j) (jobStoreID j)
    (remainingRetryCount j) (updateID j) (predecessorNumber j) l
    (predecessorsFinished j) (stack j) (logJobStoreFileID j).

Definition set_predecessorsFinished (p : gset Atom) (j : BatchJob) : BatchJob :=
  mkBatchJob (command j) (memory j) (cpu j) (disk j) (jobStoreID j)
    (remainingRetryCount j) (updateID j) (predecessorNumber j) (jobsToDelete j)
    p (stack j) (logJobStoreFileID j).

Definition set_stack (st : list (list StackEntry)) (j : BatchJob) : BatchJob :=
  mkBatchJob (command j) (memory j) (cpu j) (disk j) (jobStoreID j)
    (remainingRetryCount j) (updateID j) (predecessorNumber j) (jobsToDelete j)
    (predecessorsFinished j) st (logJobStoreFileID j).

Definition set_logJobStoreFileID (f : option string) (j : BatchJob) : BatchJob :=
  mkBatchJob (command j) (memory j) (cpu j) (disk j) (jobStoreID j)
    (remainingRetryCount j) (updateID j) (predecessorNumber j) (jobsToDelete j)
    (predecessorsFinished j) (stack j) f.

(** The configuration document, its attributes already parsed ([int(...)],
    [float(...)]). *)
Record Config : Type := mkConfig {
  try_count : Z;
  default_memory : Z;
  default_cpu : Z;
  default_disk : Z;
  job_time : Q;
  max_job_duration : Q;
  rescue_jobs_frequency : Q
}.

(** ** Values passed between targets *)

(** What a [run] method returns and what a promise file holds.  [P] is how a
    [PromisedTargetReturnValue] is held: a reference into the worker's heap
    while in memory, the value of its [jobStoreFileID] once pickled. *)
Inductive PyValue (P : Type) : Type :=
| VAtom (a : Atom)
| VPromise (p : P)
| VTuple (items : list (PyValue P)).
Arguments VAtom {P} a.
Arguments VPromise {P} p.
Arguments VTuple {P} items.

Definition isinstance_tuple {P} (v : PyValue P) : bool :=
  match v with VTuple _ => true | _ => false end.

Definition isinstance_PromisedTargetReturnValue {P} (v : PyValue P) : bool :=
  match v with VPromise _ => true | _ => false end.

Fixpoint pyvalue_map {P Q : Type} (f : P -> Q) (v : PyValue P) : PyValue Q :=
  match v with
  | VAtom a => VAtom a
  | VPromise p => VPromise (f p)
  | VTuple l => VTuple (List.map (pyvalue_map f) l)
  end.

(** References to the Python objects that are shared and mutated in place. *)
Abbreviation TargetRef := nat (only parsing).
Abbreviation PromiseRef := nat (only parsing).

Definition sys_maxint : Z := 9223372036854775807.

(** A [Target] object ([Target.__init__]). *)
Record Target : Type := mkTarget {
  t_memory : Z;
  t_cpu : Z;
  _children : list TargetRef;
  _followOns : list TargetRef;
  _predecessors : gset TargetRef;
  _dirName : string;
  _importStrings : list string;
  _rvs : gmap Z PromiseRef
}.

(** What [cPickle.dump] writes: a value, its promises held by their
    [jobStoreFileID]; or a target, with the [jobStoreFileID] of each promise
    in its [_rvs]. *)
Inductive Pickled : Type :=
| KValue (v : PyValue (option string))
| KTarget (t : Target) (promised : gmap Z (option string)).

(** What a file of the job store holds. *)
Inductive FileData : Type :=
| FEmpty
| FPickle (k : Pickled)
| FText (s : string).

Record File : Type := mkFile {
  owner : string;
  content : FileData
}.

(** ** The job store ([FileJobStore]) *)

(** The name of an entry of a temporary directory as [tempfile.mkstemp]
    builds it: prefix, random part, suffix.  The random part is drawn from
    letters, digits and the underscore, so [startswith] and [endswith] on the
    whole name are decided by the prefix and the suffix. *)
Record TempName : Type := mkTempName {
  tn_prefix : string;
  tn_random : nat;
  tn_suffix : string
}.

Global Instance TempName_eq_dec : EqDecision TempName.
Proof. solve_decision. Defined.

Record JobStore : Type := mkJobStore {
  config : Config;
  (* jobStoreID -> the record in the file "batchjob" of the job's directory *)
  jobFiles : gmap string BatchJob;
  (* jobStoreFileID -> file in the directory "g" of its job *)
  files : gmap string File;
  (* the stats files of the temporary directories, in listing order *)
  tempFiles : list (TempName * string);
  (* the random names that mkdtemp, mkstemp and uuid hand out, and how many
     of them have been used *)
  names : nat -> string;
  used : nat
}.

Definition with_jobFiles (m : gmap string BatchJob) (s : JobStore) : JobStore :=
  mkJobStore (config s) m (files s) (tempFiles s) (names s) (used s).

Definition with_files (f : gmap string File) (s : JobStore) : JobStore :=
  mkJobStore (config s) (jobFiles s) f (tempFiles s) (names s) (used s).

Definition with_tempFiles (t : list (TempName * string)) (s : JobStore) : JobStore :=
  mkJobStore (config s) (jobFiles s) (files s) t (names s) (used s).

Definition with_used (n : nat) (s : JobStore) : JobStore :=
  mkJobStore (config s) (jobFiles s) (files s) (tempFiles s) (names s) n.

(** A fresh random name. *)
Definition fresh (s : JobStore) : string * JobStore :=
  (names s (used s), with_used (S (used s)) s).

Definition _defaultTryCount (s : JobStore) : Z := try_count (config s).

Definition exists_ (s : JobStore) (jobStoreID : string) : bool :=
  bool_decide (is_Some (jobFiles s !! jobStoreID)).

(** [exists] on whatever a stack entry names: the path functions raise on
    anything but a string. *)
Definition exists_atom (s : JobStore) (a : Atom) : Res bool :=
  match a with
  | PStr i => Ok (exists_ s i)
  | _ => Raise AttributeError
  end.

Definition _checkJobStoreId (s : JobStore) (jobStoreID : string) : Res unit :=
  if exists_ s jobStoreID then Ok tt else Raise NoSuchJobException.

Definition _checkJobStoreFileID (s : JobStore) (jobStoreFileID : string) : Res unit :=
  if bool_decide (is_Some (files s !! jobStoreFileID)) then Ok tt
  else Raise NoSuchFileException.

(** [load].  A record is replaced atomically by [update], so no ".new" file
    of a record is ever left behind in this model. *)
Definition load (s : JobStore) (jobStoreID : string) : Res BatchJob :=
  match jobFiles s !! jobStoreID with
  | Some j => Ok j
  | None => Raise NoSuchJobException
  end.

(** The record [batchjob] written to the file "batchjob" in the directory
    of its job: what the dump and the rename of [update] leave. *)
Definition with_record (batchjob : BatchJob) (s : JobStore) : JobStore :=
  with_jobFiles (<[jobStoreID batchjob := batchjob]> (jobFiles s)) s.

(** [update].  The record is dumped to "batchjob.new" in the directory of
    the job and moved over "batchjob".  [open] raises [IOError] when that
    directory is not there: the job was never created, or it has been
    deleted. *)
Definition update (batchjob : BatchJob) (s : JobStore) : Res JobStore :=
  if exists_ s (jobStoreID batchjob) then Ok (with_record batchjob s)
  else Raise IOError.

(** [delete]: the directory of the job goes, with the files in it. *)
Definition delete (jobStoreID : string) (s : JobStore) : JobStore :=
  if exists_ s jobStoreID then
    with_files (filter (fun kv => owner kv.2 <> jobStoreID) (files s))
      (with_jobFiles (base.delete jobStoreID (jobFiles s)) s)
  else s.

(** [jobs]: the directories are listed, each record is loaded when the
    iteration reaches it. *)
Definition jobIDs (s : JobStore) : list string :=
  (map_to_list (jobFiles s)).*1.

(** [create].  [mkdtemp] makes the directory of the job, so the [update]
    that ends [create] finds it and writes the record. *)
Definition create (command : option string) (memory cpu disk : Atom)
    (updateID : Atom) (predecessorNumber : Z) (s : JobStore)
  : BatchJob * JobStore :=
  let '(n, s1) := fresh s in
  let batchjob :=
    mkBatchJob command memory cpu disk ("batchjob" +:+ n) (_defaultTryCount s)
      updateID predecessorNumber [] ∅ [] None in
  (batchjob, with_record batchjob s1).

(** A call of [create] that binds its parameters by keyword.  [create] has
    no default for [disk]: a call that binds no [disk] raises [TypeError]
    before the body runs. *)
Definition create_by_keywords (command : option string) (memory cpu : Atom)
    (disk : option Atom) (updateID : Atom) (predecessorNumber : Z) (s : JobStore)
  : Res (BatchJob * JobStore) :=
  match disk with
  | Some disk => Ok (create command memory cpu disk updateID predecessorNumber s)
  | None => Raise TypeError
  end.

(** [_getJobTempFile] and [writeFileStream]: a new file in the job's
    directory, holding what the [with] block wrote. *)
Definition writeFileStream (jobStoreID : string) (data : FileData) (s : JobStore)
  : Res (string * JobStore) :=
  _ ← _checkJobStoreId s jobStoreID;
  let '(n, s1) := fresh s in
  let fileID := jobStoreID +:+ "/g/tmp" +:+ n +:+ ".tmp" in
  Ok (fileID, with_files (<[fileID := mkFile jobStoreID data]> (files s1)) s1).

Definition getEmptyFileStoreID (jobStoreID : string) (s : JobStore)
  : Res (string * JobStore) :=
  writeFileStream jobStoreID FEmpty s.

Definition updateFileStream (jobStoreFileID : string) (data : FileData) (s : JobStore)
  : Res JobStore :=
  _ ← _checkJobStoreFileID s jobStoreFileID;
  Ok (with_files (alter (fun f => mkFile (owner f) data) jobStoreFileID (files s)) s).

Definition readFileStream (s : JobStore) (jobStoreFileID : string) : Res FileData :=
  match files s !! jobStoreFileID with
  | Some f => Ok (content f)
  | None => Raise NoSuchFileException
  end.

Definition deleteFile (jobStoreFileID : string) (s : JobStore) : JobStore :=
  with_files (base.delete jobStoreFileID (files s)) s.

(** *** The stats and logging channel *)

Definition startswith (pre s : string) : bool := String.prefix pre s.

Definition endswith (suf s : string) : bool :=
  String.prefix (String.rev suf) (String.rev s).

Definition name_startswith (pre : string) (n : TempName) : bool :=
  startswith pre (tn_prefix n).

Definition name_endswith (suf : string) (n : TempName) : bool :=
  endswith suf (tn_suffix n).

(** [name[:-4]] *)
Definition drop_last4 (n : TempName) : TempName :=
  mkTempName (tn_prefix n) (tn_random n)
    (String.substring 0 (String.length (tn_suffix n) - 4) (tn_suffix n)).

(** First half of [writeStatsAndLogging]: [mkstemp] makes "stats....new" and
    the string is written to it. *)
Definition writeStats_tempfile (statsAndLoggingString : string) (s : JobStore)
  : TempName * JobStore :=
  let tempStatsFile := mkTempName "stats" (used s) ".new" in
  (tempStatsFile,
   with_tempFiles (tempFiles s ++ [(tempStatsFile, statsAndLoggingString)])
     (with_used (S (used s)) s)).

(** Second half: [os.rename(tempStatsFile, tempStatsFile[:-4])]. *)
Definition writeStats_rename (tempStatsFile : TempName) (s : JobStore) : Res JobStore :=
  match list_find (fun e => e.1 = tempStatsFile) (tempFiles s) with
  | Some (_, (_, data)) =>
      let dst := drop_last4 tempStatsFile in
      Ok (with_tempFiles
            (filter (fun e => e.1 <> tempStatsFile /\ e.1 <> dst) (tempFiles s)
               ++ [(dst, data)]) s)
  | None => Raise OSError
  end.

Definition writeStatsAndLogging (statsAndLoggingString : string) (s : JobStore)
  : Res JobStore :=
  let '(tempStatsFile, s1) := writeStats_tempfile statsAndLoggingString s in
  writeStats_rename tempStatsFile s1.

Definition os_remove (n : TempName) (s : JobStore) : JobStore :=
  with_tempFiles (filter (fun e => e.1 <> n) (tempFiles s)) s.

(** The body of the loop over the listed files; [acc] is whatever the
    callback accumulates. *)
Definition readStats_file {X : Type} (statsAndLoggingCallBackFn : string -> X -> X)
    (e : TempName * string) (st : nat * X * JobStore) : nat * X * JobStore :=
  let '(numberOfFilesProcessed, acc, s) := st in
  let '(tempFile, data) := e in
  if name_startswith "stats" tempFile then
    let '(numberOfFilesProcessed, acc) :=
      if negb (name_endswith ".new" tempFile)
      then (S numberOfFilesProcessed, statsAndLoggingCallBackFn data acc)
      else (numberOfFilesProcessed, acc) in
    (numberOfFilesProcessed, acc, os_remove tempFile s)
  else st.

Definition readStatsAndLogging {X : Type} (statsAndLoggingCallBackFn : string -> X -> X)
    (acc : X) (s : JobStore) : nat * X * JobStore :=
  fold_left (fun st e => readStats_file statsAndLoggingCallBackFn e st)
    (tempFiles s) (0%nat, acc, s).

(** *** Cleaning up after a restart ([AbstractJobStore.clean]) *)

(** Modelled from the spec: [BatchJob.clearLogFile] is not part of the
    sources at hand; the spec has the cleanup pass "clear any stale
    logJobStoreFileID", and the file goes with it. *)
Definition clearLogFile (batchjob : BatchJob) (s : JobStore) : BatchJob * JobStore :=
  match logJobStoreFileID batchjob with
  | Some f => (set_logJobStoreFileID None batchjob, deleteFile f s)
  | None => (batchjob, s)
  end.

(** First loop: the ids mentioned in some [jobsToDelete]. *)
Definition collate_jobsToDelete (s : JobStore) : Res (gset Atom) :=
  forM (jobIDs s)
    (fun i (jobsToDelete_ : gset Atom) =>
       batchjob ← load s i;
       Ok (jobsToDelete_ ∪ list_to_set (jobsToDelete batchjob)))
    ∅.

(** Second loop. *)
Definition delete_collated (jobsToDelete_ : gset Atom) (s : JobStore) : Res JobStore :=
  forM (jobIDs s)
    (fun i s' =>
       batchjob ← load s' i;
       if bool_decide (updateID batchjob ∈ jobsToDelete_)
       then Ok (delete (jobStoreID batchjob) s')
       else Ok s')
    s.

(** [[ command[0] for command in phase if self.exists(command[0]) ]] *)
Fixpoint existing_successors (s : JobStore) (phase : list StackEntry) : Res (list Atom) :=
  match phase with
  | [] => Ok []
  | command_ :: rest =>
      i ← index0 command_;
      b ← exists_atom s i;
      jobs ← existing_successors s rest;
      Ok (if (b : bool) then i :: jobs else jobs)
  end.

(** The [while len(batchjob.stack) > 0] loop, on the stack read from its
    top (its last phase) downwards. *)
Fixpoint prune_top (s : JobStore) (rstack : list (list StackEntry)) (changed : bool)
  : Res (list (list StackEntry) * bool) :=
  match rstack with
  | [] => Ok ([], changed)
  | top :: below =>
      jobs ← existing_successors s top;
      if (length jobs <? length top)%nat then
        if (0 <? length jobs)%nat
        then Ok ((PAtom <$> jobs) :: below, true)
        else prune_top s below true
      else Ok (top :: below, changed)
  end.

Definition prune_stack (s : JobStore) (stk : list (list StackEntry)) (changed : bool)
  : Res (list (list StackEntry) * bool) :=
  '(r, changed') ← prune_top s (rev stk) changed;
  Ok (rev r, changed').

(** The body of the third loop. *)
Definition clean_job (i : string) (s : JobStore) : Res JobStore :=
  batchjob ← load s i;
  let changed := false in
  let '(batchjob, changed) :=
    if negb (length (jobsToDelete batchjob) =? 0)%nat
    then (set_jobsToDelete [] batchjob, true)
    else (batchjob, changed) in
  '(stk, changed) ← prune_stack s (stack batchjob) changed;
  let batchjob := set_stack stk batchjob in
  let '(batchjob, s, changed) :=
    match logJobStoreFileID batchjob with
    | Some _ => let '(b, s') := clearLogFile batchjob s in (b, s', true)
    | None => (batchjob, s, changed)
    end in
  if changed then update batchjob s else Ok s.

Definition clean (s : JobStore) : Res JobStore :=
  jobsToDelete_ ← collate_jobsToDelete s;
  s1 ← (if bool_decide (jobsToDelete_ = ∅) then Ok s
        else delete_collated jobsToDelete_ s);
  s2 ← forM (jobIDs s1) clean_job s1;
  Ok (readStatsAndLogging (fun _ (u : unit) => u) tt s2).2.

(** ** Targets ([jobTree/target.py]) *)

(** The worker's heap of [Target] and [PromisedTargetReturnValue] objects,
    its source of uuids, and the job store it works on.  A promise object has
    one attribute, [jobStoreFileID]. *)
Record Worker : Type := mkWorker {
  targets : gmap TargetRef Target;
  promises : gmap PromiseRef (option string);
  allocated : nat;
  uuids : nat -> string;
  uuids_used : nat;
  jobStore : JobStore
}.

Definition with_targets (t : gmap TargetRef Target) (w : Worker) : Worker :=
  mkWorker t (promises w) (allocated w) (uuids w) (uuids_used w) (jobStore w).

Definition with_promises (p : gmap PromiseRef (option string)) (w : Worker) : Worker :=
  mkWorker (targets w) p (allocated w) (uuids w) (uuids_used w) (jobStore w).

Definition with_allocated (n : nat) (w : Worker) : Worker :=
  mkWorker (targets w) (promises w) n (uuids w) (uuids_used w) (jobStore w).

Definition with_uuids_used (n : nat) (w : Worker) : Worker :=
  mkWorker (targets w) (promises w) (allocated w) (uuids w) n (jobStore w).

Definition with_jobStore (s : JobStore) (w : Worker) : Worker :=
  mkWorker (targets w) (promises w) (allocated w) (uuids w) (uuids_used w) s.

Definition set_children (l : list TargetRef) (t : Target) : Target :=
  mkTarget (t_memory t) (t_cpu t) l (_followOns t) (_predecessors t)
    (_dirName t) (_importStrings t) (_rvs t).

Definition set_followOns (l : list TargetRef) (t : Target) : Target :=
  mkTarget (t_memory t) (t_cpu t) (_children t) l (_predecessors t)
    (_dirName t) (_importStrings t) (_rvs t).

Definition set_predecessors (p : gset TargetRef) (t : Target) : Target :=
  mkTarget (t_memory t) (t_cpu t) (_children t) (_followOns t) p
    (_dirName t) (_importStrings t) (_rvs t).

Definition set_rvs (r : gmap Z PromiseRef) (t : Target) : Target :=
  mkTarget (t_memory t) (t_cpu t) (_children t) (_followOns t) (_predecessors t)
    (_dirName t) (_importStrings t) r.

(** Following a reference.  Python references never dangle; a reference that
    is not in the heap is reported as an [AttributeError]. *)
Definition get_target (w : Worker) (r : TargetRef) : Res Target :=
  match targets w !! r with
  | Some t => Ok t
  | None => Raise AttributeError
  end.

Definition get_promise (w : Worker) (r : PromiseRef) : Res (option string) :=
  match promises w !! r with
  | Some f => Ok f
  | None => Raise AttributeError
  end.

(** [uuid.uuid1()], [uuid.uuid4()] *)
Definition uuid (w : Worker) : string * Worker :=
  (uuids w (uuids_used w), with_uuids_used (S (uuids_used w)) w).

(** [Target.__init__] *)
Definition new_Target (memory cpu : Z) (dirName moduleName : string) (w : Worker)
  : TargetRef * Worker :=
  let r := allocated w in
  (r, with_allocated (S r)
        (with_targets
           (<[r := mkTarget memory cpu [] [] ∅ dirName [moduleName] ∅]> (targets w)) w)).

(** *** Building the graph *)

(** [_addPredecessor], [addChild] and [addFollowOn] return the heap as it is
    when they return or raise: what was appended before a raise stays
    appended. *)
Definition _addPredecessor (self predecessorTarget : TargetRef) (w : Worker)
  : Worker * Res unit :=
  match targets w !! self with
  | None => (w, Raise AttributeError)
  | Some t =>
      if bool_decide (predecessorTarget ∈ _predecessors t) then
        (w, Raise (RuntimeError "The given target is already a predecessor of this target"))
      else
        (with_targets
           (<[self := set_predecessors ({[predecessorTarget]} ∪ _predecessors t) t]>
              (targets w)) w,
         Ok tt)
  end.

Definition addChild (self childTarget : TargetRef) (w : Worker)
  : Worker * Res TargetRef :=
  match targets w !! self with
  | None => (w, Raise AttributeError)
  | Some t =>
      let w1 :=
        with_targets (<[self := set_children (_children t ++ [childTarget]) t]> (targets w)) w in
      let '(w2, r) := _addPredecessor childTarget self w1 in
      (w2, _ ← r; Ok childTarget)
  end.

Definition addFollowOn (self followOnTarget : TargetRef) (w : Worker)
  : Worker * Res TargetRef :=
  match targets w !! self with
  | None => (w, Raise AttributeError)
  | Some t =>
      let w1 :=
        with_targets (<[self := set_followOns (_followOns t ++ [followOnTarget]) t]> (targets w)) w in
      let '(w2, r) := _addPredecessor followOnTarget self w1 in
      (w2, _ ← r; Ok followOnTarget)
  end.

(** *** Promises *)

Definition rv (self : TargetRef) (argIndex : Z) (w : Worker) : Res (PromiseRef * Worker) :=
  t ← get_target w self;
  match _rvs t !! argIndex with
  | Some p => Ok (p, w)
  | None =>
      (* PromisedTargetReturnValue() *)
      let p := allocated w in
      let w1 := with_allocated (S p) (with_promises (<[p := None]> (promises w)) w) in
      Ok (p, with_targets (<[self := set_rvs (<[argIndex := p]> (_rvs t)) t]> (targets w1)) w1)
  end.

(** The loop over [self._rvs.values()] in [_setFileIDsForPromisedValues]. *)
Definition setFileID (jobStoreID_ : string) (p : PromiseRef) (w : Worker) : Res Worker :=
  f ← get_promise w p;
  match f with
  | Some _ => Ok w
  | None =>
      '(fileID, s) ← getEmptyFileStoreID jobStoreID_ (jobStore w);
      Ok (with_promises (<[p := Some fileID]> (promises w)) (with_jobStore s w))
  end.

Fixpoint _setFileIDsForPromisedValues (fuel : nat) (jobStoreID_ : string)
    (self : TargetRef) (st : gset TargetRef * Worker) : Res (gset TargetRef * Worker) :=
  match fuel with
  | O => OutOfFuel
  | S fuel' =>
      let '(visited, w) := st in
      if bool_decide (self ∈ visited) then Ok st
      else
        t ← get_target w self;
        w1 ← forM (map_to_list (_rvs t)).*2 (setFileID jobStoreID_) w;
        forM (_children t ++ _followOns t)
          (_setFileIDsForPromisedValues fuel' jobStoreID_)
          ({[self]} ∪ visited, w1)
  end.

(** [cPickle.dump] of a value: the promise objects in it are written with
    the [jobStoreFileID] they have at that moment. *)
Fixpoint pickle_value (w : Worker) (v : PyValue PromiseRef) : Res (PyValue (option string)) :=
  match v with
  | VAtom a => Ok (VAtom a)
  | VPromise p => f ← get_promise w p; Ok (VPromise f)
  | VTuple l =>
      l' ← (fix go (l : list (PyValue PromiseRef)) : Res (list (PyValue (option string))) :=
              match l with
              | [] => Ok []
              | x :: r => x' ← pickle_value w x; r' ← go r; Ok (x' :: r')
              end) l;
      Ok (VTuple l')
  end.

(** [PromisedTargetReturnValue._storeValue] *)
Definition _storeValue (self : PromiseRef) (valueToStore : PyValue PromiseRef)
    (w : Worker) : Res Worker :=
  f ← get_promise w self;
  match f with
  | None => Raise AssertionError
  | Some jobStoreFileID =>
      v ← pickle_value w valueToStore;
      s ← updateFileStream jobStoreFileID (FPickle (KValue v)) (jobStore w);
      Ok (with_jobStore s w)
  end.

(** [returnValues[i]] *)
Definition tuple_index {P} (items : list (PyValue P)) (i : Z) : Res (PyValue P) :=
  let n := Z.of_nat (length items) in
  let k := if i <? 0 then i + n else i in
  if (0 <=? k) && (k <? n) then
    match items !! Z.to_nat k with
    | Some v => Ok v
    | None => Raise IndexError
    end
  else Raise IndexError.

(** The value that [_setReturnValuesForPromises] stores for index [i]. *)
Definition argToStore {P} (returnValues : PyValue P) (i : Z) : Res (PyValue P) :=
  match returnValues with
  | VTuple items => tuple_index items i
  | _ =>
      if negb (i =? 0)
      then Raise (RuntimeError "Referencing return value index that is out of range")
      else Ok returnValues
  end.

(** [Target._setReturnValuesForPromises] *)
Definition _setReturnValuesForPromises (target : TargetRef)
    (returnValues : PyValue PromiseRef) (w : Worker) : Res Worker :=
  t ← get_target w target;
  forM (map_to_list (_rvs t))
    (fun '(i, promise) w' =>
       v ← argToStore returnValues i;
       _storeValue promise v w')
    w.

(** [PromisedTargetReturnValue.loadValue], on a promise as the consumer
    holds it after unpickling: by its [jobStoreFileID]. *)
Definition loadValue (jobStoreFileID : option string) (s : JobStore) : Res Pickled :=
  match jobStoreFileID with
  | None => Raise AssertionError
  | Some f =>
      data ← readFileStream s f;
      match data with
      | FPickle k =>
          match k with
          | KValue (VPromise _) =>
              Raise (RuntimeError "A nested PromisedTargetReturnValue has been found.")
          | _ => Ok k
          end
      | FEmpty => Raise EOFError
      | FText _ => Raise ValueError
      end
  end.

(** *** Serialising the graph of targets to the job store *)

(** [_getHashOfTargetsToUUIDs2], with the call of [_getHashOfTargetsToUUIDs]
    in it unfolded to the loop that it is. *)
Fixpoint _getHashOfTargetsToUUIDs2 (fuel : nat) (self : TargetRef)
    (st : gmap TargetRef string * Worker) : Res (gmap TargetRef string * Worker) :=
  match fuel with
  | O => OutOfFuel
  | S fuel' =>
      let '(targetsToUUIDs, w) := st in
      if bool_decide (is_Some (targetsToUUIDs !! self)) then Ok st
      else
        let '(u, w) := uuid w in
        let targetsToUUIDs := <[self := u]> targetsToUUIDs in
        t ← get_target w self;
        forM (_children t ++ _followOns t)
          (_getHashOfTargetsToUUIDs2 fuel') (targetsToUUIDs, w)
  end.

Definition _getHashOfTargetsToUUIDs (fuel : nat) (self : TargetRef)
    (st : gmap TargetRef string * Worker) : Res (gmap TargetRef string * Worker) :=
  t ← get_target st.2 self;
  forM (_children t ++ _followOns t) (_getHashOfTargetsToUUIDs2 fuel) st.

(** [_createEmptyJobForTarget].  The call
    [jobStore.create(command=..., memory=..., cpu=..., updateID=...,
    predecessorNumber=...)] binds no [disk]. *)
Definition _createEmptyJobForTarget (t : Target) (updateID_ : Atom)
    (command_ : option string) (predecessorNumber_ : Z) (s : JobStore)
  : Res (BatchJob * JobStore) :=
  create_by_keywords command_
    (PNum (if bool_decide (t_memory t <> sys_maxint) then t_memory t
           else default_memory (config s)))
    (PNum (if bool_decide (t_cpu t <> sys_maxint) then t_cpu t
           else default_cpu (config s)))
    None updateID_ predecessorNumber_ s.

Definition join_strings (sep : string) (l : list string) : string :=
  match l with
  | [] => ""
  | x :: r => fold_left (fun acc y => acc +:+ sep +:+ y) r x
  end.

(** [job.stack.append(jobs)] when [len(jobs) > 0] *)
Definition append_phase (jobs : list StackEntry) (job : BatchJob) : BatchJob :=
  if (0 <? length jobs)%nat then set_stack (stack job ++ [jobs]) job else job.

(** The state that [_makeJobWrappers] threads: the dictionary
    [targetsToJobs] and the worker.  A job in [targetsToJobs] is read again
    only for [jobStoreID], [memory], [cpu] and [predecessorNumber], none of
    which changes after [create]. *)
Abbreviation WrapState := (gmap TargetRef BatchJob * Worker)%type (only parsing).

Fixpoint _makeJobWrappers (fuel : nat) (targetsToUUIDs : gmap TargetRef string)
    (predecessor self : TargetRef) (st : WrapState) : Res (StackEntry * WrapState) :=
  match fuel with
  | O => OutOfFuel
  | S fuel' =>
      let '(targetsToJobs, w) := st in
      '(job, st1) ←
        match targetsToJobs !! self with
        | None =>
            t ← get_target w self;
            _ ← py_assert (bool_decide (predecessor ∈ _predecessors t));
            u ← match targetsToUUIDs !! self with
                | Some u => Ok u
                | None => Raise KeyError
                end;
            '(job, s1) ←
              _createEmptyJobForTarget t (PStr u) None
                (Z.of_nat (size (_predecessors t))) (jobStore w);
            let st0 : WrapState := (<[self := job]> targetsToJobs, with_jobStore s1 w) in
            (* for successors in (self._followOns, self._children) *)
            '(jobs, st0) ← mapM (_makeJobWrappers fuel' targetsToUUIDs self) (_followOns t) st0;
            let job := append_phase jobs job in
            '(jobs, st0) ← mapM (_makeJobWrappers fuel' targetsToUUIDs self) (_children t) st0;
            let job := append_phase jobs job in
            let '(targetsToJobs, w) := st0 in
            t ← get_target w self;
            let t := set_predecessors ∅ (set_followOns [] (set_children [] t)) in
            let w := with_targets (<[self := t]> (targets w)) w in
            '(_, s2) ← getEmptyFileStoreID (jobStoreID job) (jobStore w);
            promised ← forM (map_to_list (_rvs t))
                         (fun '(i, p) (m : gmap Z (option string)) =>
                            f ← get_promise w p; Ok (<[i := f]> m)) ∅;
            '(fileStoreID, s3) ←
              writeFileStream (jobStoreID job) (FPickle (KTarget t promised)) s2;
            let job :=
              set_command
                (Some ("scriptTree " +:+ fileStoreID +:+ " " +:+ _dirName t +:+ " "
                         +:+ join_strings " " (_importStrings t))) job in
            s4 ← update job s3;
            Ok (job, (targetsToJobs, with_jobStore s4 w))
        | Some job =>
            _ ← py_assert (1 <? predecessorNumber job);
            Ok (job, st)
        end;
      let '(targetsToJobs, w) := st1 in
      let '(predecessorID, w) :=
        if predecessorNumber job <=? 1 then (PNone, w)
        else let '(u, w') := uuid w in (PStr u, w') in
      Ok (PTuple [PStr (jobStoreID job); memory job; cpu job; predecessorID],
          (targetsToJobs, w))
  end.

Definition _serialiseTargetGraph (fuel : nat) (self : TargetRef) (job : BatchJob)
    (w : Worker) : Res (BatchJob * Worker) :=
  '(targetsToUUIDs, w) ← _getHashOfTargetsToUUIDs fuel self (∅, w);
  let job := set_jobsToDelete (PStr <$> (map_to_list targetsToUUIDs).*2) job in
  s ← update job (jobStore w);
  let w := with_jobStore s w in
  t ← get_target w self;
  let st : WrapState := (∅, w) in
  '(jobs, st) ← mapM (_makeJobWrappers fuel targetsToUUIDs self) (_followOns t) st;
  let job := append_phase jobs job in
  '(jobs, st) ← mapM (_makeJobWrappers fuel targetsToUUIDs self) (_children t) st;
  let job := append_phase jobs job in
  let job := set_command None (set_jobsToDelete [] job) in
  let w := st.2 in
  s ← update job (jobStore w);
  Ok (job, with_jobStore s w).

(** [batchjob.stack.pop()] as the leader calls it, returning the phase and
    the stack that is left. *)
Definition stack_pop (stk : list (list StackEntry))
  : Res (list StackEntry * list (list StackEntry)) :=
  match last stk with
  | Some top => Ok (top, removelast stk)
  | None => Raise IndexError
  end.

(** ** The leader ([toil/leader.py]) *)

(** The batch system as the leader drives it: the ids it hands out (a
    counter, as in the Mesos batch system), what has been issued to it and
    what it has been told to kill. *)
Record BatchSystem : Type := mkBatchSystem {
  nextJobID : Z;
  (* jobBatchSystemID, jobStoreID of the worker command, memory, cpu, disk *)
  issued : list (Z * Atom * Atom * Atom * Atom);
  killed : list Z
}.

(** The leader's memory: the [BatchJob] objects it holds (by reference),
    [ToilState], [JobBatcher], the job store, and two locals of [mainLoop].
    Sets and dictionaries of [BatchJob] objects are keyed by the object. *)
Record Leader : Type := mkLeader {
  objs : gmap nat BatchJob;
  next_obj : nat;
  (* ToilState *)
  successorJobStoreIDToPredecessorJobs : gmap Atom (list nat);
  successorCounts : gmap nat Z;
  updatedJobs : list nat;
  (* JobBatcher *)
  jobBatchSystemIDToJobStoreIDHash : gmap Z Atom;
  jobsIssued : Z;
  reissueMissingJobs_missingHash : gmap Z Z;
  batchSystem : BatchSystem;
  store : JobStore;
  (* mainLoop *)
  totalFailedJobs : Z;
  timeSinceJobsLastRescued : Q
}.

Definition with_objs (o : gmap nat BatchJob) (n : nat) (l : Leader) : Leader :=
  mkLeader o n (successorJobStoreIDToPredecessorJobs l) (successorCounts l)
    (updatedJobs l) (jobBatchSystemIDToJobStoreIDHash l) (jobsIssued l)
    (reissueMissingJobs_missingHash l) (batchSystem l) (store l)
    (totalFailedJobs l) (timeSinceJobsLastRescued l).

Definition with_predecessorJobs (m : gmap Atom (list nat)) (l : Leader) : Leader :=
  mkLeader (objs l) (next_obj l) m (successorCounts l)
    (updatedJobs l) (jobBatchSystemIDToJobStoreIDHash l) (jobsIssued l)
    (reissueMissingJobs_missingHash l) (batchSystem l) (store l)
    (totalFailedJobs l) (timeSinceJobsLastRescued l).

Definition with_successorCounts (m : gmap nat Z) (l : Leader) : Leader :=
  mkLeader (objs l) (next_obj l) (successorJobStoreIDToPredecessorJobs l) m
    (updatedJobs l) (jobBatchSystemIDToJobStoreIDHash l) (jobsIssued l)
    (reissueMissingJobs_missingHash l) (batchSystem l) (store l)
    (totalFailedJobs l) (timeSinceJobsLastRescued l).

Definition with_updatedJobs (u : list nat) (l : Leader) : Leader :=
  mkLeader (objs l) (next_obj l) (successorJobStoreIDToPredecessorJobs l)
    (successorCounts l) u (jobBatchSystemIDToJobStoreIDHash l) (jobsIssued l)
    (reissueMissingJobs_missingHash l) (batchSystem l) (store l)
    (totalFailedJobs l) (timeSinceJobsLastRescued l).

Definition with_batcher (h : gmap Z Atom) (n : Z) (b : BatchSystem) (l : Leader) : Leader :=
  mkLeader (objs l) (next_obj l) (successorJobStoreIDToPredecessorJobs l)
    (successorCounts l) (updatedJobs l) h n
    (reissueMissingJobs_missingHash l) b (store l)
    (totalFailedJobs l) (timeSinceJobsLastRescued l).

Definition with_missingHash (m : gmap Z Z) (l : Leader) : Leader :=
  mkLeader (objs l) (next_obj l) (successorJobStoreIDToPredecessorJobs l)
    (successorCounts l) (updatedJobs l) (jobBatchSystemIDToJobStoreIDHash l)
    (jobsIssued l) m (batchSystem l) (store l)
    (totalFailedJobs l) (timeSinceJobsLastRescued l).

Definition with_store (s : JobStore) (l : Leader) : Leader :=
  mkLeader (objs l) (next_obj l) (successorJobStoreIDToPredecessorJobs l)
    (successorCounts l) (updatedJobs l) (jobBatchSystemIDToJobStoreIDHash l)
    (jobsIssued l) (reissueMissingJobs_missingHash l) (batchSystem l) s
    (totalFailedJobs l) (timeSinceJobsLastRescued l).

Definition with_totalFailedJobs (n : Z) (l : Leader) : Leader :=
  mkLeader (objs l) (next_obj l) (successorJobStoreIDToPredecessorJobs l)
    (successorCounts l) (updatedJobs l) (jobBatchSystemIDToJobStoreIDHash l)
    (jobsIssued l) (reissueMissingJobs_missingHash l) (batchSystem l) (store l)
    n (timeSinceJobsLastRescued l).

Definition with_timeSinceJobsLastRescued (t : Q) (l : Leader) : Leader :=
  mkLeader (objs l) (next_obj l) (successorJobStoreIDToPredecessorJobs l)
    (successorCounts l) (updatedJobs l) (jobBatchSystemIDToJobStoreIDHash l)
    (jobsIssued l) (reissueMissingJobs_missingHash l) (batchSystem l) (store l)
    (totalFailedJobs l) t.

Definition get_obj (l : Leader) (r : nat) : Res BatchJob :=
  match objs l !! r with
  | Some j => Ok j
  | None => Raise AttributeError
  end.

(** A [BatchJob] object enters the leader's memory. *)
Definition new_obj (j : BatchJob) (l : Leader) : nat * Leader :=
  (next_obj l, with_objs (<[next_obj l := j]> (objs l)) (S (next_obj l)) l).

(** [jobStore.load] of whatever names the job. *)
Definition load_atom (s : JobStore) (a : Atom) : Res BatchJob :=
  match a with
  | PStr i => load s i
  | _ => Raise AttributeError
  end.

(** *** JobBatcher *)

Definition issueJob (jobStoreID_ memory_ cpu_ disk_ : Atom) (l : Leader) : Leader :=
  let b := batchSystem l in
  let jobBatchSystemID := nextJobID b in
  with_batcher
    (<[jobBatchSystemID := jobStoreID_]> (jobBatchSystemIDToJobStoreIDHash l))
    (jobsIssued l + 1)
    (mkBatchSystem (nextJobID b + 1)
       (issued b ++ [(jobBatchSystemID, jobStoreID_, memory_, cpu_, disk_)])
       (killed b))
    l.

Definition issueJobs (jobs : list (Atom * Atom * Atom * Atom)) (l : Leader) : Leader :=
  fold_left (fun l' '(i, m, c, d) => issueJob i m c d l') jobs l.

Definition getNumberOfJobsIssued (l : Leader) : Res Z :=
  _ ← py_assert (0 <=? jobsIssued l);
  Ok (jobsIssued l).

Definition getJob (l : Leader) (jobBatchSystemID : Z) : Res Atom :=
  match jobBatchSystemIDToJobStoreIDHash l !! jobBatchSystemID with
  | Some i => Ok i
  | None => Raise KeyError
  end.

Definition hasJob (l : Leader) (jobBatchSystemID : Z) : bool :=
  bool_decide (is_Some (jobBatchSystemIDToJobStoreIDHash l !! jobBatchSystemID)).

Definition getJobIDs (l : Leader) : list Z :=
  (map_to_list (jobBatchSystemIDToJobStoreIDHash l)).*1.

Definition removeJobID (jobBatchSystemID : Z) (l : Leader) : Res (Atom * Leader) :=
  match jobBatchSystemIDToJobStoreIDHash l !! jobBatchSystemID with
  | None => Raise AssertionError
  | Some i =>
      Ok (i, with_batcher
               (base.delete jobBatchSystemID (jobBatchSystemIDToJobStoreIDHash l))
               (jobsIssued l - 1) (batchSystem l) l)
  end.

(** The loop body of [_updatePredecessorStatus]. *)
Definition decrement_predecessor (predecessorJob : nat) (l : Leader) : Res Leader :=
  match successorCounts l !! predecessorJob with
  | None => Raise KeyError
  | Some n =>
      let n := n - 1 in
      _ ← py_assert (0 <=? n);
      if n =? 0 then
        _ ← py_assert (bool_decide (predecessorJob ∉ updatedJobs l));
        Ok (with_updatedJobs (updatedJobs l ++ [predecessorJob])
              (with_successorCounts (base.delete predecessorJob (successorCounts l)) l))
      else Ok (with_successorCounts (<[predecessorJob := n]> (successorCounts l)) l)
  end.

Definition _updatePredecessorStatus (jobStoreID_ : Atom) (l : Leader) : Res Leader :=
  match successorJobStoreIDToPredecessorJobs l !! jobStoreID_ with
  | None =>
      _ ← py_assert (length (updatedJobs l) =? 0)%nat;
      _ ← py_assert (bool_decide (successorJobStoreIDToPredecessorJobs l = ∅));
      _ ← py_assert (bool_decide (successorCounts l = ∅));
      Ok l
  | Some predecessors =>
      forM predecessors decrement_predecessor
        (with_predecessorJobs
           (base.delete jobStoreID_ (successorJobStoreIDToPredecessorJobs l)) l)
  end.

Section WithBatchJobMethods.

(** [BatchJob.setupJobAfterFailure] is not part of the sources at hand; the
    leader is defined for any such method. *)
Variable setupJobAfterFailure : Config -> BatchJob -> BatchJob.

(** [processFinishedJob].  Replaying the log file of the job is logging and
    is left out. *)
Definition processFinishedJob (jobBatchSystemID : Z) (resultStatus : Z) (l : Leader)
  : Res Leader :=
  '(jobStoreID_, l) ← removeJobID jobBatchSystemID l;
  ex ← exists_atom (store l) jobStoreID_;
  if (ex : bool) then
    batchjob ← load_atom (store l) jobStoreID_;
    let batchjob :=
      if negb (resultStatus =? 0)
      then setupJobAfterFailure (config (store l)) batchjob
      else batchjob in
    let '(r, l) := new_obj batchjob l in
    _ ← py_assert (bool_decide (r ∉ updatedJobs l));
    Ok (with_updatedJobs (updatedJobs l ++ [r]) l)
  else _updatePredecessorStatus jobStoreID_ l.

Definition killBatchJobs (jobIDs : list Z) (b : BatchSystem) : BatchSystem :=
  mkBatchSystem (nextJobID b) (issued b) (killed b ++ jobIDs).

(** [self.batchSystem.killBatchJobs(jobsToKill)] *)
Definition kill_in_batchSystem (jobsToKill : list Z) (l : Leader) : Leader :=
  with_batcher (jobBatchSystemIDToJobStoreIDHash l) (jobsIssued l)
    (killBatchJobs jobsToKill (batchSystem l)) l.

Definition killJobs (jobsToKill : list Z) (l : Leader) : Res Leader :=
  if (0 <? length jobsToKill)%nat then
    forM jobsToKill (fun jobBatchSystemID => processFinishedJob jobBatchSystemID 1)
      (kill_in_batchSystem jobsToKill l)
  else Ok l.

Definition Qltb (x y : Q) : bool := negb (Qle_bool y x).

(** The [maxJobDuration] that [reissueOverLongJobs] works with. *)
Definition effective_maxJobDuration (c : Config) : Q :=
  if Qltb (max_job_duration c) (job_time c * 10)%Q
  then (job_time c * 10)%Q
  else max_job_duration c.

(** The list [jobsToKill] that [reissueOverLongJobs] builds, given what
    [batchSystem.getRunningBatchJobIDs()] returned. *)
Definition overLong_jobsToKill (maxJobDuration : Q) (runningJobs : list (Z * Q))
    (l : Leader) : Res (list Z) :=
  forM runningJobs
    (fun '(jobBatchSystemID, t) jobsToKill =>
       if Qltb maxJobDuration t then
         _ ← getJob l jobBatchSystemID;
         Ok (jobsToKill ++ [jobBatchSystemID])%list
       else Ok jobsToKill)
    [].

Definition reissueOverLongJobs (runningJobs : list (Z * Q)) (l : Leader) : Res Leader :=
  let maxJobDuration := effective_maxJobDuration (config (store l)) in
  if Qltb maxJobDuration 10000000 then
    jobsToKill ← overLong_jobsToKill maxJobDuration runningJobs l;
    killJobs jobsToKill l
  else Ok l.

Definition reissueMissingJobs (issuedBatchJobIDs : list Z) (killAfterNTimesMissing : Z)
    (l : Leader) : Res (bool * Leader) :=
  let runningJobs : gset Z := list_to_set issuedBatchJobIDs in
  let jobBatchSystemIDsSet : gset Z := list_to_set (getJobIDs l) in
  let missingJobIDsSet : gset Z := dom (reissueMissingJobs_missingHash l) in
  let l :=
    with_missingHash
      (fold_left (fun m i => base.delete i m)
         (elements (missingJobIDsSet ∖ jobBatchSystemIDsSet))
         (reissueMissingJobs_missingHash l)) l in
  _ ← py_assert (bool_decide (runningJobs ⊆ jobBatchSystemIDsSet));
  '(jobsToKill, l) ←
    forM (elements (jobBatchSystemIDsSet ∖ runningJobs))
      (fun jobBatchSystemID '(jobsToKill, l) =>
         _ ← getJob l jobBatchSystemID;
         let timesMissing :=
           match reissueMissingJobs_missingHash l !! jobBatchSystemID with
           | Some n => n + 1
           | None => 1
           end in
         if timesMissing =? killAfterNTimesMissing then
           Ok ((jobsToKill ++ [jobBatchSystemID])%list,
               with_missingHash
                 (base.delete jobBatchSystemID (reissueMissingJobs_missingHash l)) l)
         else
           Ok (jobsToKill,
               with_missingHash
                 (<[jobBatchSystemID := timesMissing]> (reissueMissingJobs_missingHash l)) l))
      ([], l);
  l ← killJobs jobsToKill l;
  Ok (bool_decide (reissueMissingJobs_missingHash l = ∅), l).

(** *** ToilState *)

(** [set.add] on the set of updated jobs. *)
Definition updatedJobs_add (batchjob : nat) (l : Leader) : Leader :=
  if bool_decide (batchjob ∈ updatedJobs l) then l
  else with_updatedJobs (updatedJobs l ++ [batchjob]) l.

(** [_buildToilState].  The loop takes each element of the top phase as the
    id of the successor: a bare id is looked up and loaded; a tuple is not yet
    a key of the dictionary (no tuple ever stays one), is made one, and
    [jobStore.load] raises on it. *)
Fixpoint _buildToilState (fuel : nat) (batchjob : nat) (l : Leader) : Res Leader :=
  match fuel with
  | O => OutOfFuel
  | S fuel' =>
      j ← get_obj l batchjob;
      if bool_decide (command j <> None) || (length (stack j) =? 0)%nat then
        Ok (updatedJobs_add batchjob l)
      else
        let top := default [] (last (stack j)) in
        let l :=
          with_successorCounts
            (<[batchjob := Z.of_nat (length top)]> (successorCounts l)) l in
        forM top
          (fun successorJobStoreID l =>
             match successorJobStoreID with
             | PTuple _ => Raise AttributeError
             | PAtom a =>
                 match successorJobStoreIDToPredecessorJobs l !! a with
                 | None =>
                     let l :=
                       with_predecessorJobs
                         (<[a := [batchjob]]> (successorJobStoreIDToPredecessorJobs l)) l in
                     j2 ← load_atom (store l) a;
                     let '(r, l) := new_obj j2 l in
                     _buildToilState fuel' r l
                 | Some ps =>
                     Ok (with_predecessorJobs
                           (<[a := (ps ++ [batchjob])%list]>
                              (successorJobStoreIDToPredecessorJobs l)) l)
                 end
             end)
          l
  end.

(** *** mainLoop *)

(** The body of the loop over the popped phase. *)
Definition schedule_successor (batchjob : nat) (entry : StackEntry)
    (st : list (Atom * Atom * Atom * Atom) * Leader)
  : Res (list (Atom * Atom * Atom * Atom) * Leader) :=
  let '(successors, l) := st in
  '(successorJobStoreID, memory_, cpu_, disk_, predecessorID) ← unpack5 entry;
  let preds :=
    default [] (successorJobStoreIDToPredecessorJobs l !! successorJobStoreID) in
  let l :=
    with_predecessorJobs
      (<[successorJobStoreID := (preds ++ [batchjob])%list]>
         (successorJobStoreIDToPredecessorJobs l)) l in
  if bool_decide (predecessorID <> PNone) then
    job2 ← load_atom (store l) successorJobStoreID;
    let job2 :=
      set_predecessorsFinished ({[predecessorID]} ∪ predecessorsFinished job2) job2 in
    s ← update job2 (store l);
    let l := with_store s l in
    let n := Z.of_nat (size (predecessorsFinished job2)) in
    _ ← py_assert (1 <=? n);
    _ ← py_assert (n <=? predecessorNumber job2);
    if n <? predecessorNumber job2 then Ok (successors, l)
    else Ok ((successors ++ [(successorJobStoreID, memory_, cpu_, disk_)])%list, l)
  else Ok ((successors ++ [(successorJobStoreID, memory_, cpu_, disk_)])%list, l).

(** The body of [for batchjob in toilState.updatedJobs]. *)
Definition process_updatedJob (batchjob : nat) (l : Leader) : Res Leader :=
  j ← get_obj l batchjob;
  if bool_decide (command j <> None) then
    if 0 <? remainingRetryCount j
    then Ok (issueJob (PStr (jobStoreID j)) (memory j) (cpu j) (disk j) l)
    else Ok (with_totalFailedJobs (totalFailedJobs l + 1) l)
  else if (0 <? length (stack j))%nat then
    '(phase, rest) ← stack_pop (stack j);
    _ ← py_assert (0 <? length phase)%nat;
    _ ← py_assert (bool_decide (successorCounts l !! batchjob = None));
    let l :=
      with_successorCounts
        (<[batchjob := Z.of_nat (length phase)]> (successorCounts l)) l in
    let l := with_objs (<[batchjob := set_stack rest j]> (objs l)) (next_obj l) l in
    '(successors, l) ← forM phase (schedule_successor batchjob) ([], l);
    Ok (issueJobs successors l)
  else
    if 0 <? remainingRetryCount j
    then Ok (issueJob (PStr (jobStoreID j))
               (PNum (default_memory (config (store l))))
               (PNum (default_cpu (config (store l))))
               (PNum (default_disk (config (store l)))) l)
    else Ok (with_totalFailedJobs (totalFailedJobs l + 1) l).

(** The first part of a pass: every updated job is considered, then the set
    is reset. *)
Definition process_updatedJobs (l : Leader) : Res Leader :=
  l ← forM (updatedJobs l) process_updatedJob l;
  Ok (with_updatedJobs [] l).

(** What the leader meets from outside during one pass, after the exit
    test: what the workers have done to the job store in the meantime, what
    [getUpdatedBatchJob(10)] returns, the time, and what the batch system
    reports as running and as issued. *)
Record Tick : Type := mkTick {
  workers : JobStore -> JobStore;
  updatedJob : option (Z * Z);
  now : Q;
  runningBatchJobIDs : list (Z * Q);
  issuedBatchJobIDs : list Z
}.

(** The rest of a pass: gather an updated job, or rescue. *)
Definition gather (t : Tick) (l : Leader) : Res Leader :=
  let l := with_store (workers t (store l)) l in
  match updatedJob t with
  | Some (jobBatchSystemID, result) =>
      if hasJob l jobBatchSystemID
      then processFinishedJob jobBatchSystemID result l
      else Ok l
  | None =>
      if Qle_bool (rescue_jobs_frequency (config (store l)))
           (now t - timeSinceJobsLastRescued l)%Q
      then
        l ← reissueOverLongJobs (runningBatchJobIDs t) l;
        '(hasNoMissingJobs, l) ← reissueMissingJobs (issuedBatchJobIDs t) 3 l;
        Ok (if (hasNoMissingJobs : bool)
            then with_timeSinceJobsLastRescued (now t) l
            else with_timeSinceJobsLastRescued (timeSinceJobsLastRescued l + 60)%Q l)
      else Ok l
  end.

(** The [while True] loop; it returns [totalFailedJobs] at the [break].  The
    list of ticks is what the outside delivers, one per pass that goes past
    the exit test. *)
Fixpoint main_loop (ticks : list Tick) (l : Leader) : Res (Z * Leader) :=
  l ← process_updatedJobs l;
  n ← getNumberOfJobsIssued l;
  if n =? 0 then Ok (totalFailedJobs l, l)
  else
    match ticks with
    | [] => OutOfFuel
    | t :: ticks' => l ← gather t l; main_loop ticks' l
    end.

(** [mainLoop].  The stats and logging aggregator is a process of its own
    and is not part of the leader's state. *)
Definition mainLoop (fuel : nat) (ticks : list Tick) (startTime : Q)
    (initiallyIssued : list Z) (b : BatchSystem) (s : JobStore) (rootJob : BatchJob)
  : Res (Z * Leader) :=
  let l := mkLeader {[0%nat := rootJob]} 1 ∅ ∅ [] ∅ 0 ∅ b s 0 startTime in
  l ← _buildToilState fuel 0 l;
  _ ← py_assert (length initiallyIssued =? 0)%nat;
  main_loop ticks l.

(** The updated jobs that the passes of the loop consider, in order, as
    they are when their turn comes. *)
Fixpoint considered_jobs (jobs : list nat) (l : Leader) : list BatchJob :=
  match jobs with
  | [] => []
  | r :: jobs' =>
      match objs l !! r with
      | Some j =>
          j :: match process_updatedJob r l with
               | Ok l' => considered_jobs jobs' l'
               | _ => []
               end
      | None => []
      end
  end.

Fixpoint considered (ticks : list Tick) (l : Leader) : list BatchJob :=
  (considered_jobs (updatedJobs l) l ++
   match process_updatedJobs l with
   | Ok l1 =>
       if jobsIssued l1 =? 0 then []
       else
         match ticks with
         | [] => []
         | t :: ticks' =>
             match gather t l1 with
             | Ok l2 => considered ticks' l2
             | _ => []
             end
         end
   | _ => []
   end)%list.

End WithBatchJobMethods.

(** Modelled from the spec: [BatchJob.setupJobAfterFailure] is not part of
    the sources at hand; by the spec a failed attempt decrements
    [remainingRetryCount], which stays at or above zero. *)
Definition setupJobAfterFailure_spec (c : Config) (j : BatchJob) : BatchJob :=
  set_remainingRetryCount (Z.max 0 (remainingRetryCount j - 1)) j.

(** A job that the pass over the updated jobs counts as completely failed:
    it has a command, or nothing left on its stack, and no retry left. *)
Definition terminally_failed (j : BatchJob) : bool :=
  (bool_decide (command j <> None) || negb (0 <? length (stack j))%nat)
  && negb (0 <? remainingRetryCount j).

(** ** Well-formed stores, decided *)

Definition entry_writtenb (e : StackEntry) : bool :=
  match e with
  | PTuple (PStr _ :: _) => true
  | PAtom (PStr (String _ _)) => true
  | _ => false
  end.

Definition job_okb (i : string) (j : BatchJob) : bool :=
  bool_decide (jobStoreID j = i) && (1 <? String.length i)%nat &&
  forallb (fun phase => negb (length phase =? 0)%nat && forallb entry_writtenb phase)
    (stack j).

Definition store_okb (s : JobStore) : bool :=
  forallb (fun '(i, j) => job_okb i j) (map_to_list (jobFiles s)).

(** ** Targets: the check for cycles ([Target.checkTargetGraphAcylic]) *)

(** [_dfs]: the target and all targets reachable from it are added to
    [visited]. *)
Fixpoint _dfs (fuel : nat) (w : Worker) (self : TargetRef) (visited : gset TargetRef)
  : Res (gset TargetRef) :=
  match fuel with
  | O => OutOfFuel
  | S fuel' =>
      if bool_decide (self ∈ visited) then Ok visited
      else
        t ← get_target w self;
        forM (_children t ++ _followOns t) (_dfs fuel' w) ({[self]} ∪ visited)
  end.

(** [extraEdges[descendant] += target._followOns[:]] *)
Definition add_implied (followOns : list TargetRef) (descendant : TargetRef)
    (extraEdges : gmap TargetRef (list TargetRef))
  : Res (gmap TargetRef (list TargetRef)) :=
  match extraEdges !! descendant with
  | Some es => Ok (<[descendant := es ++ followOns]> extraEdges)
  | None => Raise KeyError
  end.

(** The body of the loop [for target in nodes] of [_getImpliedEdges]. *)
Definition implied_by (fuel : nat) (w : Worker) (target : TargetRef)
    (extraEdges : gmap TargetRef (list TargetRef))
  : Res (gmap TargetRef (list TargetRef)) :=
  t ← get_target w target;
  if (0 <? length (_followOns t))%nat then
    reacheable ← forM (_children t) (_dfs fuel w) ∅;
    forM (elements reacheable) (add_implied (_followOns t)) extraEdges
  else Ok extraEdges.

(** [_getImpliedEdges].  The sets are gone through in the order of their
    elements. *)
Definition _getImpliedEdges (fuel : nat) (w : Worker) (self : TargetRef)
  : Res (gmap TargetRef (list TargetRef)) :=
  nodes ← _dfs fuel w self ∅;
  forM (elements nodes) (implied_by fuel w) (gset_to_gmap [] nodes).

Definition cycle_detected : PyError :=
  RuntimeError "Detected cycle in augmented target graph".

(** [_checkTargetGraphAcylicDFS], threading [stack] and [visited]. *)
Fixpoint _checkTargetGraphAcylicDFS (fuel : nat) (w : Worker)
    (extraEdges : gmap TargetRef (list TargetRef)) (self : TargetRef)
    (st : list TargetRef * gset TargetRef) : Res (list TargetRef * gset TargetRef) :=
  match fuel with
  | O => OutOfFuel
  | S fuel' =>
      let '(stack, visited) := st in
      '(stack, visited) ←
        (if bool_decide (self ∉ visited) then
           t ← get_target w self;
           extra ← match extraEdges !! self with
                   | Some es => Ok es
                   | None => Raise KeyError
                   end;
           '(stack, visited) ←
             forM (_children t ++ _followOns t ++ extra)
               (_checkTargetGraphAcylicDFS fuel' w extraEdges)
               (stack ++ [self], {[self]} ∪ visited);
           (* assert stack.pop() == self *)
           match last stack with
           | Some top =>
               _ ← py_assert (bool_decide (top = self));
               Ok (removelast stack, visited)
           | None => Raise IndexError
           end
         else Ok (stack, visited));
      if bool_decide (self ∈ stack) then Raise cycle_detected
      else Ok (stack, visited)
  end.

Definition checkTargetGraphAcylic (fuel : nat) (w : Worker) (self : TargetRef)
  : Res unit :=
  extraEdges ← _getImpliedEdges fuel w self;
  _ ← _checkTargetGraphAcylicDFS fuel w extraEdges self ([], ∅);
  Ok tt.

(** No reference of the heap dangles, decided. *)
Definition heap_closedb (w : Worker) : bool :=
  forallb
    (fun '(_, t) =>
       forallb (fun y => bool_decide (is_Some (targets w !! y)))
         (_children t ++ _followOns t))
    (map_to_list (targets w)).

(** ** Example states *)

Definition example_config : Config :=
  mkConfig 1 2147483648 1 2147483648 1 5 1.

(** An empty job store whose random names are the decimal numbers. *)
Definition example_store : JobStore :=
  mkJobStore example_config ∅ ∅ [] (fun n => pretty n) 0.

Definition example_worker : Worker :=
  mkWorker ∅ ∅ 0 (fun n => "uuid" +:+ pretty n) 0 example_store.

(** Targets 0 and 1; then 1 made a child of 0. *)
Definition example_two_targets : Worker :=
  (new_Target 5 sys_maxint "dir" "mod.B"
     (new_Target sys_maxint 3 "dir" "mod.A" example_worker).2).2.

Definition example_edge : Worker := (addChild 0 1 example_two_targets).1.

(** Target 0 after [rv(0)]. *)
Definition example_promised : Worker :=
  match rv 0 0 example_two_targets with
  | Ok (_, w) => w
  | _ => example_two_targets
  end.

(** Targets 0, 1 and 2; 1 is a child and 2 a follow-on of 0; and a record
    for target 0 in the store, as the worker that runs it finds it. *)
Definition example_fork : Worker :=
  let w := (new_Target 7 2 "dir" "mod.C" example_two_targets).2 in
  let w := (addChild 0 1 w).1 in
  let w := (addFollowOn 0 2 w).1 in
  with_jobStore
    (create (Some "scriptTree firstTarget dir mod.A") (PNum 2147483648) (PNum 3)
       PNone PNone 0 (jobStore w)).2 w.

Definition example_root : BatchJob :=
  mkBatchJob (Some "scriptTree firstTarget dir mod.A") (PNum 2147483648) (PNum 3)
    PNone "batchjob0" 1 PNone 0 [] ∅ [] None.

(** A leader that holds one job, ready, and has issued nothing. *)
Definition leader_holding (j : BatchJob) (s : JobStore) : Leader :=
  mkLeader {[0%nat := j]} 1 ∅ ∅ [0%nat] ∅ 0 ∅ (mkBatchSystem 0 [] []) s 0 0.

(** Target 0 has promised its return value (promise object 2), has a record
    in the store, and the promise has its file. *)
Definition example_promise_file : Worker :=
  let w :=
    with_jobStore
      (create (Some "scriptTree firstTarget dir mod.A") (PNum 2147483648) (PNum 3)
         PNone PNone 0 (jobStore example_promised)).2 example_promised in
  match setFileID "batchjob0" 2 w with
  | Ok w' => w'
  | _ => w
  end.

(** Target 0 as it is in these heaps. *)
Definition example_target0 : Target :=
  mkTarget sys_maxint 3 [] [] ∅ "dir" ["mod.A"] {[0 := 2%nat]}.

(** Target 0 has run and returned its own promise. *)
Definition example_returned : Worker :=
  match _setReturnValuesForPromises 0 (VPromise 2%nat) example_promise_file with
  | Ok w => w
  | _ => example_promise_file
  end.

(** A store torn by a crash: jobA was creating jobC (update id "u1") when
    the worker died; jobA also has a stale log file.  jobB and jobD are older
    successors. *)
Definition example_torn : JobStore :=
  let d (i : string) := PTuple [PStr i; PNum 1; PNum 1; PNum 1; PNone] in
  let job i u del stk log :=
    mkBatchJob (Some "cmd") (PNum 1) (PNum 1) (PNum 1) i 1 u 1 del ∅ stk log in
  with_record (job "jobD" (PStr "u2") [] [] None)
    (with_record (job "jobC" (PStr "u1") [] [] None)
       (with_record (job "jobB" (PStr "u0") [] [] None)
          (with_record
             (job "jobA" PNone [PStr "u1"] [[d "jobB"]; [d "jobC"; d "jobD"]]
                (Some "log"))
             example_store))).

(** The store above after [clean]: the top phase of jobA has lost jobC and
    holds the bare id of jobD. *)
Definition example_cleaned_once : JobStore :=
  match clean example_torn with
  | Ok s => s
  | _ => example_torn
  end.

(** A leader that has issued the job "batchjob0" as batch job 0. *)
Definition example_running : Leader :=
  issueJob (PStr "batchjob0") (PNum 1) (PNum 1) (PNum 1)
    (mkLeader ∅ 0 ∅ ∅ [] ∅ 0 ∅ (mkBatchSystem 0 [] [])
       (create (Some "cmd") (PNum 1) (PNum 1) (PNum 1) PNone 0 example_store).2 0 0).

(** The rescue pass finds batch job 0 running for 11 seconds. *)
Definition example_rescued : Leader :=
  match reissueOverLongJobs setupJobAfterFailure_spec [(0, 11%Q)] example_running with
  | Ok l => l
  | _ => example_running
  end.

(** A run of the leader with [try_count] 1.  The root job R has a command.
    Its worker commits a graph with one successor S and is then reported
    with exit status 1, so R comes back with its successor to schedule and no
    retry left.  S is issued and fails before it commits anything. *)
Definition example_R : BatchJob :=
  mkBatchJob (Some "r") (PNum 1) (PNum 1) (PNum 1) "R" 1 PNone 0 [] ∅ [] None.

Definition example_S : BatchJob :=
  mkBatchJob (Some "s") (PNum 1) (PNum 1) (PNum 1) "S" 1 PNone 1 [] ∅ [] None.

Definition example_R_committed : BatchJob :=
  mkBatchJob None (PNum 1) (PNum 1) (PNum 1) "R" 1 PNone 0 [] ∅
    [[PTuple [PStr "S"; PNum 1; PNum 1; PNum 1; PNone]]] None.

Definition example_run_ticks : list Tick :=
  [ mkTick (fun s => with_record example_S (with_record example_R_committed s))
      (Some (0, 1)) 1 [] [];
    mkTick (fun s => s) (Some (1, 1)) 2 [] [] ].

Definition example_run_start : Leader :=
  mkLeader {[0%nat := example_R]} 1 ∅ ∅ [0%nat] ∅ 0 ∅ (mkBatchSystem 0 [] [])
    (with_record example_R example_store) 0 0.

(** Two jobs A and B, each with one phase left that names the job J with its
    own predecessor id; J waits for two predecessors.  The leader holds A
    and B as ready. *)
Definition example_J : BatchJob :=
  mkBatchJob (Some "j") (PNum 1) (PNum 1) (PNum 1) "J" 1 PNone 2 [] ∅ [] None.

Definition example_A : BatchJob :=
  mkBatchJob None (PNum 1) (PNum 1) (PNum 1) "A" 1 PNone 0 [] ∅
    [[PTuple [PStr "J"; PNum 1; PNum 1; PNum 1; PStr "A"]]] None.

Definition example_B : BatchJob :=
  mkBatchJob None (PNum 1) (PNum 1) (PNum 1) "B" 1 PNone 0 [] ∅
    [[PTuple [PStr "J"; PNum 1; PNum 1; PNum 1; PStr "B"]]] None.

Definition example_join : Leader :=
  mkLeader {[0%nat := example_A; 1%nat := example_B]} 2 ∅ ∅ [0%nat; 1%nat] ∅ 0 ∅
    (mkBatchSystem 0 [] []) (with_record example_J example_store) 0 0.

(** A store with one job and one file written for it. *)
Definition example_with_file : JobStore :=
  match writeFileStream "batchjob0" (FText "one")
          (create (Some "cmd") (PNum 1) (PNum 1) (PNum 1) PNone 0 example_store).2 with
  | Ok (_, s) => s
  | _ => example_store
  end.

(** Targets 0 and 1, each a child of the other. *)
Definition example_cycle : Worker := (addChild 1 0 example_edge).1.

(** A leader in which job 0 waits for the two successors S1 and S2 of its
    last phase. *)
Definition example_waiting : Leader :=
  mkLeader {[0%nat := example_R_committed]} 1
    {[PStr "S1" := [0%nat]; PStr "S2" := [0%nat]]} {[0%nat := 2]} [] ∅ 0 ∅
    (mkBatchSystem 0 [] []) example_store 0 0.

(** The batch job 0 of [example_running] has been found missing twice. *)
Definition example_lost : Leader := with_missingHash {[0 := 2]} example_running.

Definition example_lost_rescued : Leader :=
  match reissueMissingJobs setupJobAfterFailure_spec [] 3 example_lost with
  | Ok (_, l) => l
  | _ => example_lost
  end.

(** A store in order: the record A has one phase left, with the successor
    B, and B is in the store. *)
Definition example_in_order : JobStore :=
  with_record (mkBatchJob (Some "cmd") (PNum 1) (PNum 1) (PNum 1) "B" 1 (PStr "u0") 1
            [] ∅ [] None)
    (with_record (mkBatchJob None (PNum 1) (PNum 1) (PNum 1) "A" 1 PNone 0 [] ∅
               [[PTuple [PStr "B"; PNum 1; PNum 1; PNum 1; PNone]]] None)
       example_store).

(** Target 0 has run and returned the pair (7, "seven"), with the promise
    for index 1 vended besides the one for index 0. *)
Definition example_two_promises : Worker :=
  match rv 0 1 example_promise_file with
  | Ok (p, w) =>
      match setFileID "batchjob0" p w with
      | Ok w' => w'
      | _ => w
      end
  | _ => example_promise_file
  end.

Definition example_returned_pair : Worker :=
  match _setReturnValuesForPromises 0 (VTuple [VAtom (PNum 7); VAtom (PStr "seven")])
          example_two_promises with
  | Ok w => w
  | _ => example_two_promises
  end.

(** Target 0 as it is in these two heaps. *)
Definition example_target0_two : Target :=
  mkTarget sys_maxint 3 [] [] ∅ "dir" ["mod.A"] {[0 := 2%nat; 1 := 3%nat]}.

(** Every promise vended in the heap is in the heap, decided. *)
Definition vended_okb (w : Worker) : bool :=
  forallb
    (fun '(_, t) =>
       forallb (fun '(_, p) => bool_decide (is_Some (promises w !! p)))
         (map_to_list (_rvs t)))
    (map_to_list (targets w)).

(** Targets 0 and 1, the promise for index 0 of target 0 vended and without
    a file yet, and the record of the job that runs target 0 in the store. *)
Definition example_promised_in_store : Worker :=
  with_jobStore
    (create (Some "scriptTree firstTarget dir mod.A") (PNum 2147483648) (PNum 3)
       PNone PNone 0 (jobStore example_promised)).2 example_promised.

(** The worker of the job R runs it to the end and deletes its record; the
    batch system then reports batch job 0 as finished. *)
Definition example_R_succeeds : Tick :=
  mkTick (delete "R") (Some (0, 0)) 1 [] [].

(** ** Restarting ([utils/toilRestart.py]) *)

(** [toilRestart.main], from [jobStore.clean()] on: the store is cleaned,
    the root job is loaded and handed to [mainLoop].  [rootJob_] is
    [config.attrib["rootJob"]]. *)
Definition toilRestart (setupJobAfterFailure : Config -> BatchJob -> BatchJob)
    (fuel : nat) (ticks : list Tick) (startTime : Q) (initiallyIssued : list Z)
    (b : BatchSystem) (rootJob_ : string) (s : JobStore) : Res (Z * Leader) :=
  s ← clean s;
  rootJob ← load s rootJob_;
  mainLoop setupJobAfterFailure fuel ticks startTime initiallyIssued b s rootJob.

(** A store as a leader that died leaves it.  The root job jobR has run and
    committed one phase with the successors jobK, jobJ and jobL.  jobJ has
    two predecessors, jobR and jobK; the leader has popped the phase of jobR,
    so the predecessor id "p1" is in [predecessorsFinished] of jobJ, and has
    issued jobK and jobL.  jobL has run and its record is gone; jobK has not
    run yet. *)
Definition example_crashed : JobStore :=
  let job i c pn pf stk :=
    mkBatchJob c (PNum 1) (PNum 1) (PNum 1) i 1 PNone pn [] pf stk None in
  with_record (job "jobJ" (Some "j") 2 {[PStr "p1"]} [])
    (with_record (job "jobK" (Some "k") 1 ∅ [])
       (with_record
          (job "jobR" None 0 ∅
             [[PTuple [PStr "jobK"; PNum 1; PNum 1; PNum 1; PNone];
               PTuple [PStr "jobJ"; PNum 1; PNum 1; PNum 1; PStr "p1"];
               PTuple [PStr "jobL"; PNum 1; PNum 1; PNum 1; PNone]]])
          example_store)).

(** After the restart: the worker of jobK runs it and commits its phase,
    which names jobJ with the predecessor id "p2"; the batch system reports
    batch job 0 as finished. *)
Definition example_K_finishes : Tick :=
  mkTick
    (with_record
       (mkBatchJob None (PNum 1) (PNum 1) (PNum 1) "jobK" 1 PNone 1 [] ∅
          [[PTuple [PStr "jobJ"; PNum 1; PNum 1; PNum 1; PStr "p2"]]] None))
    (Some (0, 0)) 1 [] [].

(** The states of the restart on [example_crashed]: the store that [clean]
    leaves, the root job loaded from it, the leader when [_buildToilState]
    has returned, after the first pass over the updated jobs, after jobK has
    been reported finished, and after the second pass. *)
Definition example_restart_store : JobStore :=
  match clean example_crashed with
  | Ok s => s
  | _ => example_crashed
  end.

Definition example_restart_root : BatchJob :=
  match load example_restart_store "jobR" with
  | Ok j => j
  | _ => example_R
  end.

Definition example_restart_init : Leader :=
  mkLeader {[0%nat := example_restart_root]} 1 ∅ ∅ [] ∅ 0 ∅ (mkBatchSystem 0 [] [])
    example_restart_store 0 0.

Definition example_restart_built : Leader :=
  match _buildToilState 3 0 example_restart_init with
  | Ok l => l
  | _ => example_restart_init
  end.

Definition example_restart_pass1 : Leader :=
  match process_updatedJobs example_restart_built with
  | Ok l => l
  | _ => example_restart_built
  end.

Definition example_restart_gathered : Leader :=
  match gather setupJobAfterFailure_spec example_K_finishes example_restart_pass1 with
  | Ok l => l
  | _ => example_restart_pass1
  end.

Definition example_restart_pass2 : Leader :=
  match process_updatedJobs example_restart_gathered with
  | Ok l => l
  | _ => example_restart_gathered
  end.

(** * Part II: properties *)

(** ** Results and loops *)

Lemma bind_Ok_inv {A B} (m : Res A) (k : A -> Res B) (b : B) :
  (m ≫= k) = Ok b -> exists a, m = Ok a /\ k a = Ok b.
Proof. destruct m; simpl; intros H; try discriminate. eauto. Qed.

Lemma forM_app {A S} (l1 l2 : list A) (body : A -> S -> Res S) (s : S) :
  forM (l1 ++ l2) body s = (forM l1 body s ≫= forM l2 body).
Proof.
  revert s. induction l1 as [|a l1 IH]; intros s; simpl; [done|].
  destruct (body a s); simpl; auto.
Qed.

(** An invariant of the loop body is an invariant of the loop. *)
Lemma forM_invariant {A S} (I : S -> Prop) (l : list A) (body : A -> S -> Res S) :
  (forall a s s', a ∈ l -> I s -> body a s = Ok s' -> I s') ->
  forall s s', I s -> forM l body s = Ok s' -> I s'.
Proof.
  induction l as [|a l IH]; intros Hbody s s' Hs; simpl.
  - intros [= <-]. exact Hs.
  - intros H. apply bind_Ok_inv in H as (s1 & H1 & H2).
    eapply IH; [| |exact H2].
    + intros a' t t' Ha'. apply Hbody. by right.
    + eapply Hbody; [left|exact Hs|exact H1].
Qed.

Ltac inv_bind H :=
  let x := fresh "x" in
  let Hx := fresh "Hx" in
  apply bind_Ok_inv in H as (x & Hx & H).

Tactic Notation "invert_bind" hyp(H) "as" simple_intropattern(x) ident(Hx) :=
  apply bind_Ok_inv in H as (x & Hx & H).

(** ** Building the target graph: one edge per ordered pair *)

Definition successors (t : Target) : list TargetRef := _children t ++ _followOns t.

(** What holds of every heap built by [Target(...)], [addChild],
    [addFollowOn] and [rv]: a declared edge is matched by an entry in the
    successor's set of predecessors, no edge is declared twice, and
    references are below the allocation mark. *)
Record graph_ok (w : Worker) : Prop := mkGraphOk {
  edge_has_predecessor :
    forall a ta b, targets w !! a = Some ta -> b ∈ successors ta ->
      exists tb, targets w !! b = Some tb /\ a ∈ _predecessors tb;
  predecessor_has_edge :
    forall a b tb, targets w !! b = Some tb -> a ∈ _predecessors tb ->
      exists ta, targets w !! a = Some ta /\ b ∈ successors ta;
  edges_NoDup :
    forall a ta, targets w !! a = Some ta -> NoDup (successors ta);
  targets_allocated :
    forall a, is_Some (targets w !! a) -> (a < allocated w)%nat
}.

(** The heaps that user code can build. *)
Inductive built : Worker -> Prop :=
| built_empty w : targets w = ∅ -> built w
| built_Target w memory_ cpu_ d m :
    built w -> built (new_Target memory_ cpu_ d m w).2
| built_addChild w a b w' r :
    built w -> addChild a b w = (w', Ok r) -> built w'
| built_addFollowOn w a b w' r :
    built w -> addFollowOn a b w = (w', Ok r) -> built w'
| built_rv w a i p w' :
    built w -> rv a i w = Ok (p, w') -> built w'.

Lemma graph_ok_empty w : targets w = ∅ -> graph_ok w.
Proof.
  intros He. split; intros *; rewrite He; try rewrite lookup_empty; try done.
Qed.

Lemma graph_ok_new_Target w memory_ cpu_ d m :
  graph_ok w -> graph_ok (new_Target memory_ cpu_ d m w).2.
Proof.
  intros [H1 H2 H3 H4]. unfold new_Target; simpl.
  assert (Hfresh : targets w !! allocated w = None).
  { destruct (targets w !! allocated w) eqn:E; [|done].
    specialize (H4 (allocated w) (ltac:(eauto))). lia. }
  split; simpl.
  - intros a ta b Ha Hb. destruct (decide (a = allocated w)) as [->|Hne].
    + rewrite lookup_insert_eq in Ha. injection Ha as <-. inversion Hb.
    + rewrite lookup_insert_ne in Ha by done.
      destruct (H1 a ta b Ha Hb) as (tb & Hb1 & Hb2).
      exists tb. split; [|done].
      rewrite lookup_insert_ne; [done|]. intros E. rewrite E in Hfresh. congruence.
  - intros a b tb Hb Ha. destruct (decide (b = allocated w)) as [->|Hne].
    + rewrite lookup_insert_eq in Hb. injection Hb as <-. simpl in Ha. set_solver.
    + rewrite lookup_insert_ne in Hb by done.
      destruct (H2 a b tb Hb Ha) as (ta & Ha1 & Ha2).
      exists ta. split; [|done].
      rewrite lookup_insert_ne; [done|]. intros E. rewrite E in Hfresh. congruence.
  - intros a ta Ha. destruct (decide (a = allocated w)) as [->|Hne].
    + rewrite lookup_insert_eq in Ha. injection Ha as <-. constructor.
    + rewrite lookup_insert_ne in Ha by done. eauto.
  - intros a Ha. destruct (decide (a = allocated w)) as [->|Hne]; [lia|].
    rewrite lookup_insert_ne in Ha by done. specialize (H4 a Ha). lia.
Qed.

(** What a successful [addChild] or [addFollowOn] does to the heap, seen
    through the edges: one edge [a -> b] more, and [a] one more predecessor
    of [b], which it was not before. *)
Definition edge_added (a b : TargetRef) (w w' : Worker) : Prop :=
  allocated w' = allocated w /\
  (exists tb, targets w !! b = Some tb /\ a ∉ _predecessors tb) /\
  is_Some (targets w !! a) /\
  forall x,
    option_Forall2
      (fun tx tx' =>
         (forall y, y ∈ successors tx' <-> y ∈ successors tx \/ (x = a /\ y = b)) /\
         (forall p, p ∈ _predecessors tx' <-> p ∈ _predecessors tx \/ (x = b /\ p = a)) /\
         (NoDup (successors tx) -> (x = a -> b ∉ successors tx) -> NoDup (successors tx')))
      (targets w !! x) (targets w' !! x).

Lemma NoDup_insert_middle {A} (l1 l2 : list A) (b : A) :
  NoDup (l1 ++ l2) -> b ∉ l1 ++ l2 -> NoDup ((l1 ++ [b]) ++ l2).
Proof.
  intros Hnd Hb. rewrite <- app_assoc. simpl.
  apply NoDup_app in Hnd as (H1 & H2 & H3).
  apply not_elem_of_app in Hb as [Hb1 Hb2].
  apply NoDup_app. split; [done|]. split.
  - intros x Hx Hx'. apply elem_of_cons in Hx' as [->|Hx']; [done|]. by eapply H2.
  - constructor; done.
Qed.

Lemma NoDup_snoc_app {A} (l1 l2 : list A) (b : A) :
  NoDup (l1 ++ l2) -> b ∉ l1 ++ l2 -> NoDup (l1 ++ l2 ++ [b]).
Proof.
  intros Hnd Hb. rewrite app_assoc. apply NoDup_app. split; [done|]. split.
  - intros x Hx Hx'. apply list_elem_of_singleton in Hx'. by subst.
  - apply NoDup_singleton.
Qed.

Lemma addChild_edge_added a b w w' r :
  addChild a b w = (w', Ok r) -> edge_added a b w w' /\ r = b.
Proof.
  unfold addChild, _addPredecessor. simpl.
  destruct (targets w !! a) as [ta|] eqn:Ea; [|intros [= ]].
  destruct (decide (b = a)) as [->|Hne].
  - rewrite lookup_insert_eq. simpl. case_bool_decide as Hp; [intros [= ]|].
    intros [= <- <-]. split; [|done]. split; [done|].
    split; [eauto|]. split; [eauto|]. intros x. simpl.
    rewrite insert_insert_eq.
    destruct (decide (x = a)) as [->|Hx].
    + rewrite Ea, lookup_insert_eq. constructor. simpl. unfold successors; simpl.
      split; [|split].
      * intros y. rewrite !elem_of_app, list_elem_of_singleton. naive_solver.
      * intros p. set_solver.
      * intros Hnd Hb. apply NoDup_insert_middle; auto.
    + rewrite lookup_insert_ne by done.
      destruct (targets w !! x); constructor. naive_solver.
  - rewrite lookup_insert_ne by done.
    destruct (targets w !! b) as [tb|] eqn:Eb; [|intros [= ]].
    case_bool_decide as Hp; [intros [= ]|].
    intros [= <- <-]. split; [|done]. split; [done|].
    split; [eauto|]. split; [eauto|]. intros x. simpl.
    destruct (decide (x = b)) as [->|Hxb].
    + rewrite Eb, lookup_insert_eq. constructor. simpl. unfold successors; simpl.
      split; [|split]; [naive_solver|set_solver|naive_solver].
    + rewrite lookup_insert_ne by done.
      destruct (decide (x = a)) as [->|Hxa].
      * rewrite Ea, lookup_insert_eq. constructor. unfold successors; simpl.
        split; [|split].
        -- intros y. rewrite !elem_of_app, list_elem_of_singleton. naive_solver.
        -- naive_solver.
        -- intros Hnd Hb. apply NoDup_insert_middle; auto.
      * rewrite lookup_insert_ne by done.
        destruct (targets w !! x); constructor. naive_solver.
Qed.

Lemma addFollowOn_edge_added a b w w' r :
  addFollowOn a b w = (w', Ok r) -> edge_added a b w w' /\ r = b.
Proof.
  unfold addFollowOn, _addPredecessor. simpl.
  destruct (targets w !! a) as [ta|] eqn:Ea; [|intros [= ]].
  destruct (decide (b = a)) as [->|Hne].
  - rewrite lookup_insert_eq. simpl. case_bool_decide as Hp; [intros [= ]|].
    intros [= <- <-]. split; [|done]. split; [done|].
    split; [eauto|]. split; [eauto|]. intros x. simpl.
    rewrite insert_insert_eq.
    destruct (decide (x = a)) as [->|Hx].
    + rewrite Ea, lookup_insert_eq. constructor. simpl. unfold successors; simpl.
      split; [|split].
      * intros y. rewrite !elem_of_app, list_elem_of_singleton. naive_solver.
      * intros p. set_solver.
      * intros Hnd Hb. apply NoDup_snoc_app; auto.
    + rewrite lookup_insert_ne by done.
      destruct (targets w !! x); constructor. naive_solver.
  - rewrite lookup_insert_ne by done.
    destruct (targets w !! b) as [tb|] eqn:Eb; [|intros [= ]].
    case_bool_decide as Hp; [intros [= ]|].
    intros [= <- <-]. split; [|done]. split; [done|].
    split; [eauto|]. split; [eauto|]. intros x. simpl.
    destruct (decide (x = b)) as [->|Hxb].
    + rewrite Eb, lookup_insert_eq. constructor. simpl. unfold successors; simpl.
      split; [|split]; [naive_solver|set_solver|naive_solver].
    + rewrite lookup_insert_ne by done.
      destruct (decide (x = a)) as [->|Hxa].
      * rewrite Ea, lookup_insert_eq. constructor. unfold successors; simpl.
        split; [|split].
        -- intros y. rewrite !elem_of_app, list_elem_of_singleton. naive_solver.
        -- naive_solver.
        -- intros Hnd Hb. apply NoDup_snoc_app; auto.
      * rewrite lookup_insert_ne by done.
        destruct (targets w !! x); constructor. naive_solver.
Qed.

Lemma edge_added_graph_ok a b w w' :
  graph_ok w -> edge_added a b w w' -> graph_ok w'.
Proof.
  intros [H1 H2 H3 H4] (Hal & (tb & Hb & Hnp) & [ta Ha] & Hx).
  assert (Hfw : forall x tx, targets w !! x = Some tx ->
            exists tx', targets w' !! x = Some tx' /\
              (forall y, y ∈ successors tx' <-> y ∈ successors tx \/ (x = a /\ y = b)) /\
              (forall p, p ∈ _predecessors tx' <-> p ∈ _predecessors tx \/ (x = b /\ p = a)) /\
              (NoDup (successors tx) -> (x = a -> b ∉ successors tx) -> NoDup (successors tx'))).
  { intros x tx E. specialize (Hx x). rewrite E in Hx. inversion Hx; subst. eauto. }
  assert (Hbw : forall x tx', targets w' !! x = Some tx' ->
            exists tx, targets w !! x = Some tx /\
              (forall y, y ∈ successors tx' <-> y ∈ successors tx \/ (x = a /\ y = b)) /\
              (forall p, p ∈ _predecessors tx' <-> p ∈ _predecessors tx \/ (x = b /\ p = a)) /\
              (NoDup (successors tx) -> (x = a -> b ∉ successors tx) -> NoDup (successors tx'))).
  { intros x tx' E. specialize (Hx x). rewrite E in Hx. inversion Hx; subst. eauto. }
  split.
  - intros x tx' y E Hy.
    destruct (Hbw x tx' E) as (tx & Ex & Hs & _).
    destruct (proj1 (Hs y) Hy) as [Hy'|[E1 E2]]; [clear Hy; rename Hy' into Hy|subst x y].
    + destruct (H1 x tx y Ex Hy) as (ty & Ey & Hp).
      destruct (Hfw y ty Ey) as (ty' & Ey' & _ & Hp' & _).
      exists ty'. split; [done|]. apply Hp'. by left.
    + destruct (Hfw b tb Hb) as (tb' & Eb' & _ & Hp' & _).
      exists tb'. split; [done|]. apply Hp'. by right.
  - intros x y ty' E Hp.
    destruct (Hbw y ty' E) as (ty & Ey & _ & Hps & _).
    destruct (proj1 (Hps x) Hp) as [Hp'|[E1 E2]]; [clear Hp; rename Hp' into Hp|subst x y].
    + destruct (H2 x y ty Ey Hp) as (tx & Ex & Hs).
      destruct (Hfw x tx Ex) as (tx' & Ex' & Hs' & _).
      exists tx'. split; [done|]. apply Hs'. by left.
    + destruct (Hfw a ta Ha) as (ta' & Ea' & Hs' & _).
      exists ta'. split; [done|]. apply Hs'. by right.
  - intros x tx' E.
    destruct (Hbw x tx' E) as (tx & Ex & _ & _ & Hnd).
    apply Hnd; [by eapply H3|].
    intros -> Hin. destruct (H1 a tx b Ex Hin) as (tb2 & Eb2 & Hp).
    rewrite Hb in Eb2. injection Eb2 as <-. done.
  - intros x [tx' E]. destruct (Hbw x tx' E) as (tx & Ex & _).
    rewrite Hal. apply H4. eauto.
Qed.

Lemma rv_graph_ok a i p w w' :
  graph_ok w -> rv a i w = Ok (p, w') -> graph_ok w'.
Proof.
  intros Hok. unfold rv, get_target.
  destruct (targets w !! a) as [ta|] eqn:Ea; simpl; [|intros [= ]].
  destruct (_rvs ta !! i); [intros [= <- <-]; done|].
  intros [= <- <-]. destruct Hok as [H1 H2 H3 H4].
  assert (Hl : forall x tx',
            <[a:=set_rvs (<[i:=allocated w]> (_rvs ta)) ta]> (targets w) !! x = Some tx' ->
            exists tx, targets w !! x = Some tx /\ successors tx' = successors tx /\
                       _predecessors tx' = _predecessors tx).
  { intros x tx'. destruct (decide (x = a)) as [->|Hne].
    - rewrite lookup_insert_eq. intros [= <-]. eauto.
    - rewrite lookup_insert_ne by done. eauto. }
  assert (Hr : forall x tx, targets w !! x = Some tx ->
            exists tx',
              <[a:=set_rvs (<[i:=allocated w]> (_rvs ta)) ta]> (targets w) !! x = Some tx' /\
              successors tx' = successors tx /\ _predecessors tx' = _predecessors tx).
  { intros x tx. destruct (decide (x = a)) as [->|Hne].
    - rewrite lookup_insert_eq, Ea. intros [= <-]. eauto.
    - rewrite lookup_insert_ne by done. eauto. }
  split; simpl.
  - intros x tx' y E Hy. destruct (Hl x tx' E) as (tx & Ex & Hs & _).
    rewrite Hs in Hy. destruct (H1 x tx y Ex Hy) as (ty & Ey & Hp).
    destruct (Hr y ty Ey) as (ty' & Ey' & _ & Hp'). exists ty'. by rewrite Hp'.
  - intros x y ty' E Hp. destruct (Hl y ty' E) as (ty & Ey & _ & Hps).
    rewrite Hps in Hp. destruct (H2 x y ty Ey Hp) as (tx & Ex & Hs).
    destruct (Hr x tx Ex) as (tx' & Ex' & Hs' & _). exists tx'. by rewrite Hs'.
  - intros x tx' E. destruct (Hl x tx' E) as (tx & Ex & Hs & _).
    rewrite Hs. eauto.
  - intros x [tx' E]. destruct (Hl x tx' E) as (tx & Ex & _).
    specialize (H4 x (ltac:(eauto))). lia.
Qed.

Lemma built_graph_ok w : built w -> graph_ok w.
Proof.
  induction 1 as [w He|w m c d n Hb IH|w a b w' r Hb IH Ha|w a b w' r Hb IH Ha
                 |w a i p w' Hb IH Hr].
  - by apply graph_ok_empty.
  - by apply graph_ok_new_Target.
  - apply addChild_edge_added in Ha as [Ha _]. by eapply edge_added_graph_ok.
  - apply addFollowOn_edge_added in Ha as [Ha _]. by eapply edge_added_graph_ok.
  - by eapply rv_graph_ok.
Qed.

Definition already_a_predecessor : PyError :=
  RuntimeError "The given target is already a predecessor of this target".

(** In a heap built by calls that returned: once [b] is a successor of [a],
    [a.addChild(b)] and [a.addFollowOn(b)] raise the RuntimeError of
    [_addPredecessor], and no target lists a successor twice. *)
Lemma addChild_addFollowOn_once (w : Worker) (a b : TargetRef) (ta : Target) :
  built w ->
  targets w !! a = Some ta ->
  b ∈ _children ta ++ _followOns ta ->
  (addChild a b w).2 = Raise already_a_predecessor /\
  (addFollowOn a b w).2 = Raise already_a_predecessor /\
  NoDup (_children ta ++ _followOns ta).
Proof.
  intros Hb Ha Hin. apply built_graph_ok in Hb as [H1 H2 H3 H4].
  destruct (H1 a ta b Ha Hin) as (tb & Eb & Hp).
  split; [|split]; [| |by apply (H3 a)].
  - unfold addChild, _addPredecessor. rewrite Ha. simpl.
    destruct (decide (b = a)) as [->|Hne].
    + rewrite lookup_insert_eq. simpl. rewrite Ha in Eb. injection Eb as <-.
      by rewrite bool_decide_true.
    + rewrite lookup_insert_ne by done. rewrite Eb.
      by rewrite bool_decide_true.
  - unfold addFollowOn, _addPredecessor. rewrite Ha. simpl.
    destruct (decide (b = a)) as [->|Hne].
    + rewrite lookup_insert_eq. simpl. rewrite Ha in Eb. injection Eb as <-.
      by rewrite bool_decide_true.
    + rewrite lookup_insert_ne by done. rewrite Eb.
      by rewrite bool_decide_true.
Qed.

Lemma addChild_addFollowOn_once_witness :
  (addChild 0 1 example_edge).2 = Raise already_a_predecessor /\
  (addFollowOn 0 1 example_edge).2 = Raise already_a_predecessor /\
  NoDup ([1%nat] ++ []).
Proof.
  apply (addChild_addFollowOn_once example_edge 0%nat 1%nat
           (mkTarget sys_maxint 3 [1%nat] [] ∅ "dir" ["mod.A"] ∅)).
  - apply (built_addChild example_two_targets 0%nat 1%nat _ 1%nat); [|reflexivity].
    apply built_Target. apply built_Target. apply built_empty. reflexivity.
  - reflexivity.
  - simpl. apply list_elem_of_here.
Defined.

(** ** Promises: one per target and index *)











(** ** The stack of a record *)

Lemma stack_pop_snoc stk phase : stack_pop (stk ++ [phase]) = Ok (phase, stk).
Proof. unfold stack_pop. by rewrite last_snoc, removelast_last. Qed.

(** ** The stats and logging channel *)

(** The files that a drain hands to the callback: the stats files that are
    not ".new". *)
Definition delivered (l : list (TempName * string)) : list (TempName * string) :=
  List.filter (fun e => name_startswith "stats" e.1 && negb (name_endswith ".new" e.1)) l.

Lemma readStats_file_store {X} (cb : string -> X -> X) e c acc s :
  (readStats_file cb e (c, acc, s)).2 =
    if name_startswith "stats" e.1 then os_remove e.1 s else s.
Proof.
  unfold readStats_file. destruct e as [n d]; simpl.
  destruct (name_startswith "stats" n); [|done].
  by destruct (negb (name_endswith ".new" n)).
Qed.

Lemma readStats_file_values {X} (cb : string -> X -> X) e c acc s :
  (readStats_file cb e (c, acc, s)).1 =
    if name_startswith "stats" e.1 && negb (name_endswith ".new" e.1)
    then (S c, cb e.2 acc) else (c, acc).
Proof.
  unfold readStats_file. destruct e as [n d]; simpl.
  destruct (name_startswith "stats" n); [|done].
  by destruct (negb (name_endswith ".new" n)).
Qed.

Lemma readStats_fold_values {X} (cb : string -> X -> X) (l : list (TempName * string)) :
  forall c acc s,
    (fold_left (fun st e => readStats_file cb e st) l (c, acc, s)).1 =
    ((c + length (delivered l))%nat,
     fold_left (fun a e => cb e.2 a) (delivered l) acc).
Proof.
  induction l as [|e l IH]; intros c acc s; cbn [fold_left].
  - simpl. f_equal. lia.
  - pose proof (readStats_file_values cb e c acc s) as Hv.
    destruct (readStats_file cb e (c, acc, s)) as [[c1 a1] s1]. simpl in Hv.
    rewrite IH. unfold delivered; simpl.
    destruct (name_startswith "stats" e.1 && negb (name_endswith ".new" e.1));
      injection Hv as -> ->; simpl; f_equal; lia.
Qed.

Lemma readStats_fold_store {X} (cb : string -> X -> X) (l : list (TempName * string)) :
  forall c acc s,
    let s' := (fold_left (fun st e => readStats_file cb e st) l (c, acc, s)).2 in
    (forall e, e ∈ tempFiles s' <->
               e ∈ tempFiles s /\ ~ (name_startswith "stats" e.1 = true /\ e.1 ∈ l.*1)) /\
    used s' = used s /\ jobFiles s' = jobFiles s /\ files s' = files s.
Proof.
  induction l as [|e0 l IH]; intros c acc s; cbn [fold_left].
  - simpl. split; [|done]. intros e. split.
    + intros He. split; [done|]. intros [_ Hin]. inversion Hin.
    + by intros [He _].
  - cbn zeta. pose proof (readStats_file_store cb e0 c acc s) as Hs.
    destruct (readStats_file cb e0 (c, acc, s)) as [[c1 a1] s1]. simpl in Hs.
    destruct (IH c1 a1 s1) as (H3 & H4 & H5 & H6). clear IH.
    destruct (name_startswith "stats" e0.1) eqn:Es; subst s1.
    + split; [|done]. intros e. rewrite H3. unfold os_remove; simpl.
      rewrite list_elem_of_filter, elem_of_cons. split.
      * intros [[Hne He] Hn]. split; [done|]. intros [Hst [Heq|Hin]]; [done|].
        apply Hn. done.
      * intros [He Hn]. split; [split; [|done]|].
        -- intros Heq. apply Hn. split; [by rewrite Heq|by left].
        -- intros [Hst Hin]. apply Hn. split; [done|by right].
    + split; [|done]. intros e. rewrite H3, fmap_cons, elem_of_cons. split.
      * intros [He Hn]. split; [done|]. intros [Hst [Heq|Hin]]; [|by apply Hn].
        rewrite Heq in Hst. congruence.
      * intros [He Hn]. split; [done|]. intros [Hst Hin]. apply Hn. split; [done|by right].
Qed.

(** A drain: the callback gets each finished stats file once, the count is
    their number, and no stats file is left, finished or not. *)
Lemma readStatsAndLogging_spec {X} (cb : string -> X -> X) (acc : X) (s : JobStore) :
  let r := readStatsAndLogging cb acc s in
  r.1 = (length (delivered (tempFiles s)),
         fold_left (fun a e => cb e.2 a) (delivered (tempFiles s)) acc) /\
  (forall e, e ∈ tempFiles r.2 <->
             e ∈ tempFiles s /\ name_startswith "stats" e.1 = false) /\
  used r.2 = used s /\ jobFiles r.2 = jobFiles s /\ files r.2 = files s.
Proof.
  unfold readStatsAndLogging. split; [apply readStats_fold_values|].
  destruct (readStats_fold_store cb (tempFiles s) 0%nat acc s) as (H3 & H4).
  split; [|done]. intros e. rewrite H3. split.
  - intros [He Hn]. split; [done|].
    destruct (name_startswith "stats" e.1) eqn:Es; [|done].
    exfalso. apply Hn. split; [done|]. apply list_elem_of_fmap. by exists e.
  - intros [He Hs]. split; [done|]. intros [Hs' _]. congruence.
Qed.

Lemma delivered_none (l : list (TempName * string)) :
  (forall e, e ∈ l -> name_startswith "stats" e.1 = false) -> delivered l = [].
Proof.
  induction l as [|e l IH]; intros H; [done|]. unfold delivered; simpl.
  rewrite (H e) by left. simpl. apply IH. intros e' He'. apply H. by right.
Qed.

(** A drain right after a drain finds nothing. *)
Lemma readStatsAndLogging_twice {X} (cb : string -> X -> X) (acc : X) (s : JobStore) :
  let r := readStatsAndLogging cb acc s in
  forall acc', (readStatsAndLogging cb acc' r.2).1 = (0%nat, acc').
Proof.
  intros r acc'.
  destruct (readStatsAndLogging_spec cb acc s) as (_ & H3 & _). fold r in H3.
  destruct (readStatsAndLogging_spec cb acc' r.2) as (H1 & _).
  rewrite delivered_none in H1 by (intros e He; by apply H3 in He as [_ ?]).
  exact H1.
Qed.

(** C7, where the code fails it.  A write has made its ".new" file and
    written the string, and has not renamed the file yet.  A drain at that
    moment hands nothing of the write to the callback (its count and what the
    callback has accumulated are those of a drain without the write), removes
    the ".new" file with the rest, so that the rename of the write raises
    [OSError], and nothing of the write is left for any later drain. *)
Theorem drain_removes_write_in_progress {X : Type}
    (cb : string -> X -> X) (acc : X) (s : JobStore) (blob : string) :
  let w := writeStats_tempfile blob s in
  let r := readStatsAndLogging cb acc w.2 in
  r.1 = (readStatsAndLogging cb acc s).1 /\
  writeStats_rename w.1 r.2 = Raise OSError /\
  forall acc', (readStatsAndLogging cb acc' r.2).1 = (0%nat, acc').
Proof.
  intros w r.
  destruct (readStatsAndLogging_spec cb acc w.2) as (H1 & H3 & _). fold r in H1, H3.
  destruct (readStatsAndLogging_spec cb acc s) as (H1' & _).
  assert (Hd : delivered (tempFiles w.2) = delivered (tempFiles s)).
  { unfold w, writeStats_tempfile, delivered; simpl.
    rewrite List.filter_app. simpl. apply app_nil_r. }
  split; [|split].
  - rewrite Hd in H1. congruence.
  - unfold writeStats_rename.
    destruct (list_find (fun e => e.1 = w.1) (tempFiles r.2)) as [[i [n d]]|] eqn:Ef;
      [|done].
    apply list_find_Some in Ef as (Hi & Hn & _). simpl in Hn.
    assert (Hin : (n, d) ∈ tempFiles r.2) by (eapply list_elem_of_lookup_2; eauto).
    apply H3 in Hin as [_ Hs]. simpl in Hs. rewrite Hn in Hs. discriminate.
  - apply readStatsAndLogging_twice.
Qed.

(** ** Promises returned from [run] *)

Definition nested_promise : PyError :=
  RuntimeError "A nested PromisedTargetReturnValue has been found.".

Lemma _storeValue_spec p v w w' :
  _storeValue p v w = Ok w' ->
  exists f pv,
    promises w !! p = Some (Some f) /\ pickle_value w v = Ok pv /\
    promises w' = promises w /\ targets w' = targets w /\
    is_Some (files (jobStore w) !! f) /\
    files (jobStore w') =
      alter (fun fl => mkFile (owner fl) (FPickle (KValue pv))) f (files (jobStore w)).
Proof.
  unfold _storeValue, get_promise. intros H.
  destruct (promises w !! p) as [[f|]|] eqn:Ep; simpl in H; try done.
  inv_bind H. rename x into pv. inv_bind H. injection H as <-.
  unfold updateFileStream, _checkJobStoreFileID in Hx0.
  case_bool_decide as Hf; simpl in Hx0; [|done]. injection Hx0 as <-.
  exists f, pv. simpl. repeat split; done.
Qed.

Lemma pickle_value_promise w (v : PyValue PromiseRef) pv :
  isinstance_PromisedTargetReturnValue v = true ->
  pickle_value w v = Ok pv -> isinstance_PromisedTargetReturnValue pv = true.
Proof.
  destruct v; try done. simpl. intros _ H. inv_bind H. by injection H as <-.
Qed.

Lemma loadValue_never_a_promise f s k :
  loadValue f s = Ok k ->
  match k with KValue v => isinstance_PromisedTargetReturnValue v = false | _ => True end.
Proof.
  unfold loadValue. destruct f as [f|]; [|done]. intros H. inv_bind H.
  destruct x as [|k'|]; try done.
  destruct k' as [[a|q|items]|t pr]; try done; by injection H as <-.
Qed.

Lemma loadValue_promise f s o pv :
  files s !! f = Some (mkFile o (FPickle (KValue pv))) ->
  isinstance_PromisedTargetReturnValue pv = true ->
  loadValue (Some f) s = Raise nested_promise.
Proof.
  intros Hf Hp. unfold loadValue, readFileStream. rewrite Hf. simpl.
  by destruct pv.
Qed.

(** The check that there is.  The worker of the producing job stores what
    [run] returned without inspecting it.  When the value selected by a
    vended index is a [PromisedTargetReturnValue], the file of that promise
    holds a pickled promise, and [loadValue], which the worker of a consuming
    job calls before its [run], raises the RuntimeError; and [loadValue]
    never returns a promise. *)
Lemma returned_promise_raises_on_load
    (w w' : Worker) (target : TargetRef) (t : Target)
    (returnValues : PyValue PromiseRef) :
  targets w !! target = Some t ->
  (forall i j p q f,
     _rvs t !! i = Some p -> _rvs t !! j = Some q ->
     promises w !! p = Some (Some f) -> promises w !! q = Some (Some f) -> i = j) ->
  _setReturnValuesForPromises target returnValues w = Ok w' ->
  (forall i p v,
     _rvs t !! i = Some p -> argToStore returnValues i = Ok v ->
     isinstance_PromisedTargetReturnValue v = true ->
     exists f, promises w !! p = Some (Some f) /\
               loadValue (Some f) (jobStore w') = Raise nested_promise) /\
  (forall f s k,
     loadValue f s = Ok k ->
     match k with
     | KValue v => isinstance_PromisedTargetReturnValue v = false
     | _ => True
     end).
Proof.
  intros Ht Hdistinct Hset. split; [|apply loadValue_never_a_promise].
  intros i p v Hi Hv Hprom.
  unfold _setReturnValuesForPromises, get_target in Hset. rewrite Ht in Hset.
  simpl in Hset.
  set (body := fun '(i, promise) w' =>
                 argToStore returnValues i ≫= fun v => _storeValue promise v w') in Hset.
  assert (Hpres : forall l w1 w2, forM l body w1 = Ok w2 -> promises w2 = promises w1).
  { intros l w1 w2 H.
    eapply (forM_invariant (fun x => promises x = promises w1)) in H; [done| |done].
    intros [j q] s s' _ Hs E. unfold body in E. inv_bind E.
    apply _storeValue_spec in E as (f & pv & _ & _ & Hp & _). congruence. }
  assert (Hin : (i, p) ∈ map_to_list (_rvs t)) by (by apply elem_of_map_to_list).
  pose proof (NoDup_fst_map_to_list (_rvs t)) as Hnd.
  apply list_elem_of_split in Hin as (l1 & l2 & Hl). rewrite Hl in Hset, Hnd.
  rewrite forM_app in Hset. inv_bind Hset. rename x into w1. rename Hx into H1.
  simpl in Hset. inv_bind Hset. rename x into w2. rename Hx into H2.
  pose proof (Hpres _ _ _ H1) as Hp1.
  unfold body in H2. rewrite Hv in H2. simpl in H2.
  apply _storeValue_spec in H2 as (f & pv & Hpf & Hpick & Hp2 & _ & [fl Hfl] & Hfiles).
  rewrite Hp1 in Hpf. exists f. split; [done|].
  apply (pickle_value_promise _ _ _ Hprom) in Hpick.
  eapply (forM_invariant
            (fun x => promises x = promises w /\
                      files (jobStore x) !! f
                        = Some (mkFile (owner fl) (FPickle (KValue pv))))) in Hset.
  - destruct Hset as [_ Hf]. by eapply loadValue_promise.
  - intros [j q] s s' Hjq [Hps Hfs] E. unfold body in E. inv_bind E.
    apply _storeValue_spec in E as (f' & pv' & Hpf' & _ & Hp' & _ & _ & Hfiles').
    split; [congruence|]. rewrite Hfiles'.
    rewrite lookup_alter_ne; [done|]. intros <-.
    assert (j = i).
    { eapply (Hdistinct j i q p f'); try done; try congruence.
      apply elem_of_map_to_list. rewrite Hl. apply elem_of_app. right. by right. }
    subst j. rewrite fmap_app in Hnd. apply NoDup_app in Hnd as (_ & _ & Hnd).
    simpl in Hnd. apply NoDup_cons in Hnd as [Hnd _]. apply Hnd.
    apply list_elem_of_fmap. by exists (i, q).
  - split; [congruence|]. rewrite Hfiles. rewrite lookup_alter_eq, Hfl. done.
Qed.

Lemma returned_promise_raises_on_load_witness :
  (forall i p v,
     _rvs example_target0 !! i = Some p ->
     argToStore (VPromise 2%nat) i = Ok v ->
     isinstance_PromisedTargetReturnValue v = true ->
     exists f, promises example_promise_file !! p = Some (Some f) /\
               loadValue (Some f) (jobStore example_returned) = Raise nested_promise) /\
  (forall f s k,
     loadValue f s = Ok k ->
     match k with
     | KValue v => isinstance_PromisedTargetReturnValue v = false
     | _ => True
     end).
Proof.
  apply (returned_promise_raises_on_load example_promise_file example_returned 0%nat
           example_target0 (VPromise 2%nat)).
  - reflexivity.
  - simpl. intros i j p q f Hi Hj _ _.
    apply lookup_singleton_Some in Hi as [<- _].
    apply lookup_singleton_Some in Hj as [<- _]. reflexivity.
  - reflexivity.
Defined.

(** Target 1 has vended no promise and its [run] returns a
    [PromisedTargetReturnValue]; nothing is stored, nothing is raised and
    the heap and the store are as before.  And where the index is vended
    (target 0), the producer's worker stores the promise and raises
    nothing. *)
Example returned_promise_not_detected_by_producer :
  isinstance_PromisedTargetReturnValue (VPromise 2%nat : PyValue nat) = true /\
  _setReturnValuesForPromises 1 (VPromise 2%nat) example_promise_file
    = Ok example_promise_file /\
  _setReturnValuesForPromises 0 (VPromise 2%nat) example_promise_file
    = Ok example_returned.
Proof. repeat split; vm_compute; reflexivity. Qed.

(** ** Cleaning up the job store *)

(** An id is mentioned when some record lists it in its [jobsToDelete]. *)
Definition mentioned (s : JobStore) (a : Atom) : Prop :=
  exists i j, jobFiles s !! i = Some j /\ a ∈ jobsToDelete j.

(** The successor that an element of a phase names: the first component of a
    descriptor, or the bare id that [clean] leaves in a pruned phase. *)
Definition listed (e : StackEntry) : option string :=
  match e with
  | PTuple (PStr i :: _) => Some i
  | PAtom (PStr i) => Some i
  | _ => None
  end.

Definition listed_exists (s : JobStore) (e : StackEntry) : Prop :=
  exists i, listed e = Some i /\ is_Some (jobFiles s !! i).

(** An element of a phase as the program writes it: a descriptor, which is
    a tuple that starts with the id of the successor, or the bare id that
    [clean] leaves in a phase that it has pruned in part. *)
Definition entry_written (e : StackEntry) : Prop :=
  match e with
  | PTuple (PStr _ :: _) => True
  | PAtom (PStr sid) => sid <> ""
  | _ => False
  end.

Definition phase_written (phase : list StackEntry) : Prop :=
  phase <> [] /\ forall e, e ∈ phase -> entry_written e.

(** The stores that the workers, the leader and [clean] leave behind: a
    record is filed under its own id; the id of a job, the path of a
    directory that [mkdtemp] has named "batchjob...", has more than one
    character; and a phase is a non-empty list of descriptors and bare
    ids. *)
Record store_written (s : JobStore) : Prop := mkStoreWritten {
  filed_under_id : forall i j, jobFiles s !! i = Some j -> jobStoreID j = i;
  ids_long : forall i, is_Some (jobFiles s !! i) -> (1 < String.length i)%nat;
  phases_written :
    forall i j phase, jobFiles s !! i = Some j -> phase ∈ stack j -> phase_written phase
}.

Lemma elem_of_jobIDs s i : i ∈ jobIDs s <-> is_Some (jobFiles s !! i).
Proof.
  unfold jobIDs. rewrite list_elem_of_fmap. split.
  - intros ([k j] & -> & H). apply elem_of_map_to_list in H. eauto.
  - intros [j H]. exists (i, j). split; [done|]. by apply elem_of_map_to_list.
Qed.

Lemma NoDup_jobIDs s : NoDup (jobIDs s).
Proof. apply NoDup_fst_map_to_list. Qed.

Lemma load_Some s i j : jobFiles s !! i = Some j -> load s i = Ok j.
Proof. unfold load. by intros ->. Qed.

(** *** First loop *)

Lemma collate_loop s (l : list string) :
  (forall i, i ∈ l -> is_Some (jobFiles s !! i)) ->
  forall acc : gset Atom,
  exists M : gset Atom,
    forM l (fun i (jobsToDelete_ : gset Atom) =>
              load s i ≫= fun batchjob =>
              Ok (jobsToDelete_ ∪ list_to_set (jobsToDelete batchjob))) acc = Ok M /\
    forall a, a ∈ M <->
      a ∈ acc \/ exists i j, i ∈ l /\ jobFiles s !! i = Some j /\ a ∈ jobsToDelete j.
Proof.
  induction l as [|i l IH]; intros Hl acc; simpl.
  - exists acc. split; [done|]. intros a. split; [by left|].
    intros [?|(i & j & Hi & _)]; [done|]. inversion Hi.
  - destruct (Hl i (list_elem_of_here _ _)) as [j Hj].
    rewrite (load_Some _ _ _ Hj). simpl.
    destruct (IH (fun k Hk => Hl k (list_elem_of_further _ _ _ Hk))
                (acc ∪ list_to_set (jobsToDelete j))) as (M & HM & Hspec).
    exists M. split; [done|]. intros a. rewrite Hspec, elem_of_union, elem_of_list_to_set.
    split.
    + intros [[Ha|Ha]|(k & jk & Hk & Hjk & Ha)]; [by left| |].
      * right. exists i, j. split; [left|done].
      * right. exists k, jk. split; [by right|done].
    + intros [Ha|(k & jk & Hk & Hjk & Ha)]; [by left; left|].
      apply elem_of_cons in Hk as [->|Hk].
      * rewrite Hj in Hjk. injection Hjk as <-. by left; right.
      * right. eauto.
Qed.

Lemma collate_jobsToDelete_spec s :
  exists M : gset Atom,
    collate_jobsToDelete s = Ok M /\ forall a, a ∈ M <-> mentioned s a.
Proof.
  destruct (collate_loop s (jobIDs s) (fun i Hi => proj1 (elem_of_jobIDs s i) Hi) ∅)
    as (M & HM & Hspec).
  exists M. split; [exact HM|]. intros a. rewrite Hspec. unfold mentioned. split.
  - intros [Ha|(i & j & _ & Hj & Ha)]; [set_solver|eauto].
  - intros (i & j & Hj & Ha). right. exists i, j. split; [|done].
    apply elem_of_jobIDs. eauto.
Qed.

(** *** Second loop *)

Lemma lookup_delete_job i k s :
  jobFiles (delete i s) !! k = if decide (i = k) then None else jobFiles s !! k.
Proof.
  unfold delete, exists_. case_bool_decide as He; simpl.
  - apply lookup_delete.
  - case_decide; [|done]. subst k.
    destruct (jobFiles s !! i) eqn:E; [|done]. exfalso. apply He. eauto.
Qed.

Lemma delete_loop (M : gset Atom) s0 (l : list string) :
  (forall i j, jobFiles s0 !! i = Some j -> jobStoreID j = i) ->
  NoDup l ->
  forall s,
    (forall i, i ∈ l -> jobFiles s !! i = jobFiles s0 !! i) ->
    (forall i, i ∈ l -> is_Some (jobFiles s0 !! i)) ->
    exists s',
      forM l (fun i s' =>
                load s' i ≫= fun batchjob =>
                if bool_decide (updateID batchjob ∈ M)
                then Ok (delete (jobStoreID batchjob) s')
                else Ok s') s = Ok s' /\
      forall k, jobFiles s' !! k =
        match jobFiles s0 !! k with
        | Some j => if bool_decide (k ∈ l /\ updateID j ∈ M) then None else jobFiles s !! k
        | None => jobFiles s !! k
        end.
Proof.
  intros Hid. induction l as [|i l IH]; intros Hnd s Hagree Hin; cbn [forM].
  - exists s. split; [done|]. intros k. destruct (jobFiles s0 !! k); [|done].
    rewrite bool_decide_false; [done|]. intros [Hk _]. inversion Hk.
  - apply NoDup_cons in Hnd as [Hni Hnd].
    destruct (Hin i (list_elem_of_here _ _)) as [j Hj].
    rewrite (load_Some s i j) by (rewrite (Hagree i) by left; done). simpl.
    rewrite (Hid i j Hj).
    set (s1 := if bool_decide (updateID j ∈ M) then delete i s else s).
    assert (Hs1 : forall k, jobFiles s1 !! k =
              if bool_decide (k = i /\ updateID j ∈ M) then None else jobFiles s !! k).
    { intros k. unfold s1. case_bool_decide as Hm.
      - rewrite lookup_delete_job. case_decide; subst.
        + by rewrite bool_decide_true.
        + rewrite bool_decide_false; [done|]. intros [-> _]. done.
      - rewrite bool_decide_false; [done|]. intros [_ ?]. done. }
    destruct (IH Hnd s1) as (s' & Hs' & Hspec).
    + intros k Hk. rewrite Hs1. rewrite bool_decide_false.
      * apply Hagree. by right.
      * intros [-> _]. done.
    + intros k Hk. apply Hin. by right.
    + exists s'. split.
      * unfold s1 in Hs'. by destruct (bool_decide (updateID j ∈ M)).
      * intros k. rewrite Hspec. destruct (jobFiles s0 !! k) as [jk|] eqn:Ek.
        -- destruct (decide (k = i)) as [->|Hki].
           ++ rewrite Hj in Ek. injection Ek as <-.
              rewrite (bool_decide_false (i ∈ l /\ _)) by (intros [? _]; done).
              rewrite Hs1.
              apply (f_equal (fun b : bool => if b then None else jobFiles s !! i)).
              apply bool_decide_ext. split.
              ** intros [_ ?]. split; [left|done].
              ** intros [_ ?]. done.
           ++ rewrite Hs1. rewrite (bool_decide_false (k = i /\ _)) by (intros [? _]; done).
              apply (f_equal (fun b : bool => if b then None else jobFiles s !! k)).
              apply bool_decide_ext. rewrite elem_of_cons. naive_solver.
        -- rewrite Hs1. rewrite bool_decide_false; [done|]. intros [-> _]. congruence.
Qed.

Lemma delete_collated_spec (M : gset Atom) s :
  (forall i j, jobFiles s !! i = Some j -> jobStoreID j = i) ->
  exists s',
    delete_collated M s = Ok s' /\
    forall k, jobFiles s' !! k =
      match jobFiles s !! k with
      | Some j => if bool_decide (updateID j ∈ M) then None else Some j
      | None => None
      end.
Proof.
  intros Hid.
  destruct (delete_loop M s (jobIDs s) Hid (NoDup_jobIDs s) s)
    as (s' & Hs' & Hspec); [done|by intros i; apply elem_of_jobIDs|].
  exists s'. split; [exact Hs'|]. intros k. rewrite Hspec.
  destruct (jobFiles s !! k) as [j|] eqn:Ek; [|done].
  apply (f_equal (fun b : bool => if b then None else Some j)).
  apply bool_decide_ext. split; [by intros [_ ?]|]. intros ?. split; [|done].
  apply elem_of_jobIDs. eauto.
Qed.

(** *** Third loop *)

Lemma update_exists batchjob s :
  is_Some (jobFiles s !! jobStoreID batchjob) ->
  update batchjob s = Ok (with_record batchjob s).
Proof. intros H. unfold update, exists_. by rewrite bool_decide_true. Qed.

(** [command[0]] of a descriptor is the id of the successor; of a bare id it
    is the first character, which names no job. *)
Lemma existing_successors_spec s phase :
  (forall i, is_Some (jobFiles s !! i) -> (1 < String.length i)%nat) ->
  (forall e, e ∈ phase -> entry_written e) ->
  exists jobs,
    existing_successors s phase = Ok jobs /\
    (length jobs <= length phase)%nat /\
    (forall a, a ∈ jobs -> exists sid, a = PStr sid /\ is_Some (jobFiles s !! sid)) /\
    (length jobs = length phase -> forall e, e ∈ phase -> listed_exists s e).
Proof.
  intros Hlong. induction phase as [|e phase IH]; intros Hd.
  - exists []. split; [done|]. split; [done|]. split.
    + intros a Ha. inversion Ha.
    + intros _ e He. inversion He.
  - destruct IH as (jobs & Hj & Hlen & Hex & Hall).
    { intros e' He'. apply Hd. by right. }
    pose proof (Hd e (list_elem_of_here _ _)) as He.
    destruct e as [[|[|sid|] rest]|[|[|c r]|]]; try done.
    + cbn [existing_successors index0 exists_atom]. simpl. rewrite Hj. simpl.
      unfold exists_. case_bool_decide as Hs.
      * exists (PStr sid :: jobs). split; [done|]. split; [simpl; lia|]. split.
        -- intros a Ha. apply elem_of_cons in Ha as [->|Ha]; [eauto|by apply Hex].
        -- simpl. intros Hl e' He'. apply elem_of_cons in He' as [->|He'].
           ++ exists sid. done.
           ++ apply Hall; [lia|done].
      * exists jobs. split; [done|]. split; [simpl; lia|]. split; [done|].
        simpl. intros Hl. lia.
    + cbn [existing_successors index0 exists_atom]. simpl. rewrite Hj. simpl.
      unfold exists_. rewrite bool_decide_false.
      2:{ intros Hs. apply Hlong in Hs. simpl in Hs. lia. }
      exists jobs. split; [done|]. split; [simpl; lia|]. split; [done|].
      simpl. intros Hl. lia.
Qed.

(** What [clean] leaves on top of a stack. *)
Definition top_ok (s : JobStore) (top : list StackEntry) : Prop :=
  top <> [] /\ forall e, e ∈ top -> listed_exists s e.

Lemma prune_top_spec s rstack :
  (forall i, is_Some (jobFiles s !! i) -> (1 < String.length i)%nat) ->
  (forall phase, phase ∈ rstack -> phase_written phase) ->
  forall changed,
  exists r changed',
    prune_top s rstack changed = Ok (r, changed') /\
    (forall top, head r = Some top -> top_ok s top) /\
    (forall phase, phase ∈ r -> phase_written phase) /\
    (changed' = false -> r = rstack /\ changed = false).
Proof.
  intros Hlong. induction rstack as [|top below IH]; intros Hph changed.
  - exists [], changed. split; [done|]. split; [done|]. split; [|done].
    intros phase Hp. inversion Hp.
  - destruct (Hph top (list_elem_of_here _ _)) as [Hne Hd].
    destruct (existing_successors_spec s top Hlong Hd) as (jobs & Hj & Hlen & Hex & Hall).
    cbn [prune_top]. rewrite Hj. simpl.
    destruct (length jobs <? length top)%nat eqn:Hlt.
    + destruct (0 <? length jobs)%nat eqn:Hpos.
      * exists ((PAtom <$> jobs) :: below), true. split; [done|].
        split; [|split; [|done]].
        -- intros top' [= <-]. split.
           ++ destruct jobs; [done|]. done.
           ++ intros e He. apply list_elem_of_fmap in He as (a & -> & Ha).
              destruct (Hex a Ha) as (sid & -> & Hs). exists sid. done.
        -- intros phase Hp. apply elem_of_cons in Hp as [->|Hp].
           ++ split; [by destruct jobs|].
              intros e He. apply list_elem_of_fmap in He as (a & -> & Ha).
              destruct (Hex a Ha) as (sid & -> & Hs). simpl.
              intros ->. apply Hlong in Hs. simpl in Hs. lia.
           ++ apply Hph. by right.
      * destruct (IH (fun p Hp => Hph p (list_elem_of_further _ _ _ Hp)) true)
          as (r & c' & Hr & Htop & Hw & Hc).
        exists r, c'. split; [done|]. split; [done|]. split; [done|].
        intros ->. by destruct Hc.
    + exists (top :: below), changed. split; [done|]. split; [|split; [done|done]].
      intros top' [= <-]. split; [done|]. apply Hall.
      apply Nat.ltb_ge in Hlt. lia.
Qed.

Lemma elem_of_rev {A} (x : A) (l : list A) : x ∈ rev l <-> x ∈ l.
Proof. rewrite !list_elem_of_In. symmetry. apply in_rev. Qed.

Lemma last_rev_head {A} (l : list A) : last (rev l) = head l.
Proof. destruct l as [|a l]; [done|]. simpl. by rewrite last_snoc. Qed.

(** A record as [clean] leaves it. *)
Definition cleaned (s : JobStore) (j : BatchJob) : Prop :=
  jobsToDelete j = [] /\ logJobStoreFileID j = None /\
  forall top, last (stack j) = Some top -> top_ok s top.

Definition raw_ok (i : string) (j : BatchJob) : Prop :=
  jobStoreID j = i /\
  forall phase, phase ∈ stack j -> phase_written phase.

Lemma set_stack_same j : set_stack (stack j) j = j.
Proof. by destruct j. Qed.

Lemma clean_job_spec i s j :
  (forall k, is_Some (jobFiles s !! k) -> (1 < String.length k)%nat) ->
  jobFiles s !! i = Some j -> raw_ok i j ->
  exists s' j',
    clean_job i s = Ok s' /\
    jobFiles s' = <[i := j']> (jobFiles s) /\
    cleaned s j' /\ raw_ok i j' /\ updateID j' = updateID j /\
    tempFiles s' = tempFiles s.
Proof.
  intros Hlong Hj [Hid Hph]. unfold clean_job. rewrite (load_Some _ _ _ Hj). simpl.
  set (b1 := if negb (length (jobsToDelete j) =? 0)%nat
             then (set_jobsToDelete [] j, true) else (j, false)).
  assert (Hb1 : jobsToDelete b1.1 = [] /\ stack b1.1 = stack j /\
                logJobStoreFileID b1.1 = logJobStoreFileID j /\
                jobStoreID b1.1 = i /\ updateID b1.1 = updateID j /\
                (b1.2 = false -> b1.1 = j)).
  { unfold b1. destruct (length (jobsToDelete j) =? 0)%nat eqn:E; simpl.
    - apply Nat.eqb_eq in E. destruct (jobsToDelete j); [|done]. done.
    - repeat split; try done. }
  destruct b1 as [batchjob changed]. simpl in Hb1.
  destruct Hb1 as (Hjd & Hstk & Hlog & Hid1 & Hup & Hsame).
  unfold prune_stack.
  destruct (prune_top_spec s (rev (stack batchjob)) Hlong) with (changed := changed)
    as (r & c' & Hr & Htop & Hw & Hc).
  { intros p Hp. apply Hph. rewrite <- Hstk. by apply elem_of_rev. }
  rewrite Hr. simpl.
  assert (Hlast : forall top, last (rev r) = Some top -> top_ok s top).
  { intros top. rewrite last_rev_head. apply Htop. }
  assert (Hwr : forall phase, phase ∈ rev r -> phase_written phase).
  { intros phase Hp. apply Hw. by apply elem_of_rev. }
  destruct (logJobStoreFileID batchjob) as [f|] eqn:El.
  - unfold clearLogFile. simpl. rewrite El. simpl.
    rewrite update_exists by (simpl; rewrite Hid1; eauto).
    eexists _, _. split; [reflexivity|]. simpl. rewrite Hid1.
    split; [done|]. split; [|split; [|split; done]].
    + split; [done|]. split; [done|]. exact Hlast.
    + split; [done|]. exact Hwr.
  - destruct c' eqn:Ec.
    + rewrite update_exists by (simpl; rewrite Hid1; eauto).
      eexists _, _. split; [reflexivity|]. simpl. rewrite Hid1.
      split; [done|]. split; [|split; [|split; done]].
      * split; [done|]. split; [done|]. exact Hlast.
      * split; [done|]. exact Hwr.
    + destruct (Hc eq_refl) as [-> ->].
      rewrite (Hsame eq_refl) in *.
      exists s, j. split; [done|].
      split; [by rewrite insert_id|].
      split; [|split; [|split; done]].
      * split; [done|]. split; [done|].
        intros top Ht. apply Hlast. by rewrite rev_involutive.
      * split; [done|]. exact Hph.
Qed.

Lemma cleaned_same_jobs s s' j :
  dom (jobFiles s') = dom (jobFiles s) -> cleaned s j -> cleaned s' j.
Proof.
  intros Hdom (H1 & H2 & H3). split; [done|]. split; [done|].
  intros top Ht. destruct (H3 top Ht) as [Hne Hall]. split; [done|].
  intros e He. destruct (Hall e He) as (i & Hi & Hs). exists i. split; [done|].
  apply elem_of_dom. rewrite Hdom. by apply elem_of_dom.
Qed.

Lemma clean_loop (l : list string) :
  NoDup l ->
  forall s,
    (forall k, is_Some (jobFiles s !! k) -> (1 < String.length k)%nat) ->
    (forall i, i ∈ l -> exists j, jobFiles s !! i = Some j /\ raw_ok i j) ->
    exists s',
      forM l clean_job s = Ok s' /\
      dom (jobFiles s') = dom (jobFiles s) /\
      (forall i, i ∈ l ->
         exists j j', jobFiles s !! i = Some j /\ jobFiles s' !! i = Some j' /\
                      cleaned s j' /\ raw_ok i j' /\ updateID j' = updateID j) /\
      (forall k, k ∉ l -> jobFiles s' !! k = jobFiles s !! k) /\
      tempFiles s' = tempFiles s.
Proof.
  induction l as [|i l IH]; intros Hnd s Hlong Hl; cbn [forM].
  - exists s. split; [done|]. split; [done|]. split; [|done].
    intros i Hi. inversion Hi.
  - apply NoDup_cons in Hnd as [Hni Hnd].
    destruct (Hl i (list_elem_of_here _ _)) as (j & Hj & Hraw).
    destruct (clean_job_spec i s j Hlong Hj Hraw)
      as (s1 & j1 & Hc & Hf1 & Hcl & Hraw1 & Hup & Htmp).
    rewrite Hc. simpl.
    assert (Hdom1 : dom (jobFiles s1) = dom (jobFiles s)).
    { rewrite Hf1, dom_insert_L.
      assert (i ∈ dom (jobFiles s)) by (apply elem_of_dom; eauto). set_solver. }
    destruct (IH Hnd s1) as (s' & Hs' & Hdom & Hin & Hout & Htmp').
    { intros k Hk. apply Hlong. apply elem_of_dom. rewrite <- Hdom1.
      by apply elem_of_dom. }
    { intros k Hk. destruct (Hl k (list_elem_of_further _ _ _ Hk)) as (jk & Hjk & Hrk).
      exists jk. split; [|done]. rewrite Hf1, lookup_insert_ne; [done|].
      intros ->. done. }
    exists s'. split; [done|]. split; [congruence|]. split; [|split; [|congruence]].
    + intros k Hk. apply elem_of_cons in Hk as [->|Hk].
      * exists j, j1. split; [done|]. split.
        -- rewrite (Hout i Hni), Hf1. apply lookup_insert_eq.
        -- done.
      * destruct (Hin k Hk) as (jk & jk' & Hjk & Hjk' & Hck & Hrk & Huk).
        exists jk, jk'. split.
        -- rewrite Hf1, lookup_insert_ne in Hjk; [done|]. intros ->. done.
        -- split; [done|]. split; [|done]. by eapply cleaned_same_jobs.
    + intros k Hk. apply not_elem_of_cons in Hk as [Hki Hk].
      rewrite (Hout k Hk), Hf1. by apply lookup_insert_ne.
Qed.

(** C5.  [clean] returns on every store that the program has written, and
    afterwards: every record whose update id was mentioned in some
    [jobsToDelete] is gone; every record that is left is one whose update id
    was not mentioned, has an empty [jobsToDelete], no [logJobStoreFileID],
    and, if its stack is not empty, a top phase that is not empty and names
    only records that exist.  The statement is about the records in the
    store, that is, about what has been persisted.  The store that [clean]
    leaves is again one that the program has written, so the statement
    covers the next [clean] as well. *)
Theorem clean_reconciles (s : JobStore) :
  store_written s ->
  exists s',
    clean s = Ok s' /\
    (forall i j, jobFiles s !! i = Some j -> mentioned s (updateID j) ->
                 jobFiles s' !! i = None) /\
    (forall i j', jobFiles s' !! i = Some j' ->
       cleaned s' j' /\
       exists j, jobFiles s !! i = Some j /\ ~ mentioned s (updateID j) /\
                 updateID j' = updateID j) /\
    store_written s'.
Proof.
  intros [Hid Hlong Hwr]. unfold clean.
  destruct (collate_jobsToDelete_spec s) as (M & HM & HMspec). rewrite HM. simpl.
  assert (H1 : exists s1,
            (if bool_decide (M = ∅) then Ok s else delete_collated M s) = Ok s1 /\
            forall k, jobFiles s1 !! k =
              match jobFiles s !! k with
              | Some j => if bool_decide (updateID j ∈ M) then None else Some j
              | None => None
              end).
  { case_bool_decide as HE.
    - exists s. split; [done|]. intros k. destruct (jobFiles s !! k); [|done].
      rewrite bool_decide_false; [done|]. rewrite HE. set_solver.
    - by apply delete_collated_spec. }
  destruct H1 as (s1 & Hs1 & Hspec1). rewrite Hs1. simpl.
  assert (Hsub : forall k j, jobFiles s1 !! k = Some j -> jobFiles s !! k = Some j).
  { intros k j Hk. rewrite Hspec1 in Hk. destruct (jobFiles s !! k) as [j0|]; [|done].
    by destruct (bool_decide (updateID j0 ∈ M)). }
  destruct (clean_loop (jobIDs s1) (NoDup_jobIDs s1) s1)
    as (s2 & Hs2 & Hdom2 & Hin2 & _ & _).
  { intros k [j Hk]. apply Hlong. apply Hsub in Hk. eauto. }
  { intros i Hi. apply elem_of_jobIDs in Hi as [j Hj]. exists j. split; [done|].
    apply Hsub in Hj. split; [by eapply Hid|]. intros phase Hp. by eapply Hwr. }
  rewrite Hs2. simpl. eexists. split; [reflexivity|].
  destruct (readStatsAndLogging_spec (fun _ (u : unit) => u) tt s2)
    as (_ & _ & _ & Hjobs & _).
  set (s3 := (readStatsAndLogging (fun _ (u : unit) => u) tt s2).2) in *.
  assert (Hleft : forall i j', jobFiles s3 !! i = Some j' ->
            exists j1, jobFiles s1 !! i = Some j1 /\ cleaned s1 j' /\ raw_ok i j' /\
                       updateID j' = updateID j1).
  { intros i j' Hj'. rewrite Hjobs in Hj'.
    assert (Hi1 : is_Some (jobFiles s1 !! i)).
    { apply elem_of_dom. rewrite <- Hdom2. apply elem_of_dom. eauto. }
    destruct (Hin2 i (proj2 (elem_of_jobIDs s1 i) Hi1))
      as (j1 & j2 & Hj1 & Hj2 & Hcl & Hraw & Hup).
    rewrite Hj' in Hj2. injection Hj2 as <-. eauto. }
  split; [|split].
  - intros i j Hj Hm. rewrite Hjobs.
    destruct (jobFiles s2 !! i) as [j2|] eqn:E2; [|done]. exfalso.
    assert (Hi1 : is_Some (jobFiles s1 !! i)).
    { apply elem_of_dom. rewrite <- Hdom2. apply elem_of_dom. eauto. }
    rewrite Hspec1, Hj in Hi1. apply HMspec in Hm.
    rewrite bool_decide_true in Hi1 by done. by destruct Hi1.
  - intros i j' Hj'. destruct (Hleft i j' Hj') as (j1 & Hj1 & Hcl & _ & Hup). split.
    + eapply cleaned_same_jobs; [|exact Hcl]. by rewrite Hjobs.
    + rewrite Hspec1 in Hj1. destruct (jobFiles s !! i) as [j0|] eqn:E0; [|done].
      case_bool_decide as Hm; [done|]. injection Hj1 as <-.
      exists j0. split; [done|]. split; [|done]. by rewrite <- HMspec.
  - split.
    + intros i j' Hj'. destruct (Hleft i j' Hj') as (_ & _ & _ & [Hi _] & _). done.
    + intros i [j' Hj']. destruct (Hleft i j' Hj') as (j1 & Hj1 & _).
      apply Hlong. apply Hsub in Hj1. eauto.
    + intros i j' phase Hj' Hp. destruct (Hleft i j' Hj') as (_ & _ & _ & [_ Hph] & _).
      by apply Hph.
Qed.

Lemma store_okb_ok s : store_okb s = true -> store_written s.
Proof.
  unfold store_okb. rewrite forallb_forall. intros H.
  assert (Hj : forall i j, jobFiles s !! i = Some j -> job_okb i j = true).
  { intros i j Hj. apply (H (i, j)). apply list_elem_of_In. by apply elem_of_map_to_list. }
  split.
  - intros i j Hij. apply Hj in Hij. unfold job_okb in Hij.
    apply andb_true_iff in Hij as [Hij _]. apply andb_true_iff in Hij as [Hij _].
    by apply bool_decide_eq_true in Hij.
  - intros i [j Hij]. apply Hj in Hij. unfold job_okb in Hij.
    apply andb_true_iff in Hij as [Hij _]. apply andb_true_iff in Hij as [_ Hij].
    by apply Nat.ltb_lt in Hij.
  - intros i j phase Hij Hp. apply Hj in Hij. unfold job_okb in Hij.
    apply andb_true_iff in Hij as [_ Hij]. rewrite forallb_forall in Hij.
    specialize (Hij phase (proj1 (list_elem_of_In _ _) Hp)).
    apply andb_true_iff in Hij as [Hne Hij]. split; [by destruct phase|].
    intros e He. rewrite forallb_forall in Hij.
    specialize (Hij e (proj1 (list_elem_of_In _ _) He)).
    destruct e as [[|[| sid |] rest]|[|[|c r]|]]; done.
Qed.

Lemma clean_reconciles_witness :
  exists s',
    clean example_cleaned_once = Ok s' /\
    (forall i j, jobFiles example_cleaned_once !! i = Some j ->
                 mentioned example_cleaned_once (updateID j) ->
                 jobFiles s' !! i = None) /\
    (forall i j', jobFiles s' !! i = Some j' ->
       cleaned s' j' /\
       exists j, jobFiles example_cleaned_once !! i = Some j /\
                 ~ mentioned example_cleaned_once (updateID j) /\
                 updateID j' = updateID j) /\
    store_written s'.
Proof.
  apply (clean_reconciles example_cleaned_once).
  apply store_okb_ok. vm_compute. reflexivity.
Defined.

(** The two stores of the witness.  The first [clean] deletes jobC, whose
    update id jobA lists, empties that list, drops the log file, and leaves
    the bare id of jobD in the top phase of jobA.  The second [clean] reads
    the first character of that id, finds no job of that name, and pops the
    phase; the phase below, with jobB, is then the top one. *)
Example example_clean_twice :
  let d (i : string) := PTuple [PStr i; PNum 1; PNum 1; PNum 1; PNone] in
  (stack <$> jobFiles example_cleaned_once !! "jobA")
    = Some [[d "jobB"]; [PAtom (PStr "jobD")]] /\
  jobFiles example_cleaned_once !! "jobC" = None /\
  exists s', clean example_cleaned_once = Ok s' /\
             (stack <$> jobFiles s' !! "jobA") = Some [[d "jobB"]] /\
             is_Some (jobFiles s' !! "jobD").
Proof.
  split; [vm_compute; reflexivity|]. split; [vm_compute; reflexivity|].
  eexists. split; [vm_compute; reflexivity|]. split; [vm_compute; reflexivity|].
  vm_compute. eauto.
Qed.

(** ** The leader: rescue of over-long jobs *)

Lemma Qltb_lt x y : Qltb x y = true <-> (x < y)%Q.
Proof.
  unfold Qltb. rewrite negb_true_iff. split.
  - intros H. apply Qnot_le_lt. intros Hle. apply Qle_bool_iff in Hle. congruence.
  - intros H. destruct (Qle_bool y x) eqn:E; [|done].
    apply Qle_bool_iff in E. exfalso. by apply (Qlt_not_le x y).
Qed.

Lemma overLong_jobsToKill_spec maxJobDuration runningJobs l :
  forall acc jobsToKill,
    forM runningJobs
      (fun '(jobBatchSystemID, t) jobsToKill =>
         if Qltb maxJobDuration t then
           getJob l jobBatchSystemID ≫= fun _ => Ok (jobsToKill ++ [jobBatchSystemID])
         else Ok jobsToKill) acc = Ok jobsToKill ->
    forall i, i ∈ jobsToKill <->
      i ∈ acc \/ exists t, (i, t) ∈ runningJobs /\ (maxJobDuration < t)%Q.
Proof.
  induction runningJobs as [|[k t] rest IH]; intros acc jobsToKill; cbn [forM].
  - intros [= <-] i. split; [by left|]. intros [?|(t & Ht & _)]; [done|]. inversion Ht.
  - intros H. inv_bind H. rename x into acc1. rename Hx into H1.
    specialize (IH _ _ H). intros i. rewrite IH. clear IH H.
    destruct (Qltb maxJobDuration t) eqn:Et.
    + inv_bind H1. injection H1 as <-. apply Qltb_lt in Et.
      rewrite elem_of_app, list_elem_of_singleton. split.
      * intros [[Hi| ->]|(t' & Ht' & Hlt)]; [by left| |].
        -- right. exists t. split; [left|done].
        -- right. exists t'. split; [by right|done].
      * intros [Hi|(t' & Ht' & Hlt)]; [by left; left|].
        apply elem_of_cons in Ht' as [[= -> ->]|Ht']; [by left; right|].
        right. eauto.
    + injection H1 as <-. split.
      * intros [Hi|(t' & Ht' & Hlt)]; [by left|]. right. exists t'. split; [by right|done].
      * intros [Hi|(t' & Ht' & Hlt)]; [by left|].
        apply elem_of_cons in Ht' as [[= -> ->]|Ht'].
        -- apply Qltb_lt in Hlt. congruence.
        -- right. eauto.
Qed.

Section LeaderFacts.

Variable setupJobAfterFailure : Config -> BatchJob -> BatchJob.

(** What of the leader's state the exit test and the return value rest on. *)
Definition batcher_unchanged (l l' : Leader) : Prop :=
  jobBatchSystemIDToJobStoreIDHash l' = jobBatchSystemIDToJobStoreIDHash l /\
  jobsIssued l' = jobsIssued l /\
  batchSystem l' = batchSystem l /\
  totalFailedJobs l' = totalFailedJobs l.

Lemma batcher_unchanged_refl l : batcher_unchanged l l.
Proof. by repeat split. Qed.

Lemma batcher_unchanged_trans l1 l2 l3 :
  batcher_unchanged l1 l2 -> batcher_unchanged l2 l3 -> batcher_unchanged l1 l3.
Proof. intros (?&?&?&?) (?&?&?&?). repeat split; congruence. Qed.

(** A batch job has left the batcher. *)
Definition job_removed (jobBatchSystemID : Z) (l l' : Leader) : Prop :=
  is_Some (jobBatchSystemIDToJobStoreIDHash l !! jobBatchSystemID) /\
  jobBatchSystemIDToJobStoreIDHash l'
    = base.delete jobBatchSystemID (jobBatchSystemIDToJobStoreIDHash l) /\
  jobsIssued l' = jobsIssued l - 1 /\
  batchSystem l' = batchSystem l /\
  totalFailedJobs l' = totalFailedJobs l.

Lemma decrement_predecessor_unchanged p l l' :
  decrement_predecessor p l = Ok l' -> batcher_unchanged l l'.
Proof.
  unfold decrement_predecessor. destruct (successorCounts l !! p); [|done].
  intros H. inv_bind H. destruct (_ =? 0).
  - inv_bind H. injection H as <-. by repeat split.
  - injection H as <-. by repeat split.
Qed.

Lemma _updatePredecessorStatus_unchanged i l l' :
  _updatePredecessorStatus i l = Ok l' -> batcher_unchanged l l'.
Proof.
  unfold _updatePredecessorStatus.
  destruct (successorJobStoreIDToPredecessorJobs l !! i) as [ps|].
  - intros H.
    eapply (forM_invariant (batcher_unchanged l)) in H; [done| |by repeat split].
    intros p s s' _ Hs E. apply decrement_predecessor_unchanged in E.
    by eapply batcher_unchanged_trans.
  - intros H. inv_bind H. inv_bind H. inv_bind H. injection H as <-.
    apply batcher_unchanged_refl.
Qed.

Lemma processFinishedJob_removed i r l l' :
  processFinishedJob setupJobAfterFailure i r l = Ok l' -> job_removed i l l'.
Proof.
  unfold processFinishedJob, removeJobID. intros H. inv_bind H.
  destruct x as [a l1].
  destruct (jobBatchSystemIDToJobStoreIDHash l !! i) as [a'|] eqn:Ei; [|done].
  injection Hx as <- <-. inv_bind H. destruct x.
  - inv_bind H. unfold new_obj in H. simpl in H. inv_bind H. injection H as <-.
    split; [eauto|]. by repeat split.
  - apply _updatePredecessorStatus_unchanged in H as (H1 & H2 & H3 & H4).
    simpl in *. split; [eauto|]. by repeat split.
Qed.

(** The batch jobs of a list have left the batcher, one after the other. *)
Fixpoint jobs_removed (ids : list Z) (l l' : Leader) : Prop :=
  match ids with
  | [] => batcher_unchanged l l'
  | i :: ids' => exists l1, job_removed i l l1 /\ jobs_removed ids' l1 l'
  end.

Lemma kill_in_batchSystem_nil l : kill_in_batchSystem [] l = l.
Proof.
  unfold kill_in_batchSystem, killBatchJobs, with_batcher. rewrite app_nil_r.
  by destruct l as [? ? ? ? ? ? ? ? [? ? ?] ? ? ?].
Qed.

Lemma forM_processFinishedJob_removed ids :
  forall r l0 l1,
    forM ids (fun i => processFinishedJob setupJobAfterFailure i r) l0 = Ok l1 ->
    batchSystem l1 = batchSystem l0 /\ jobs_removed ids l0 l1.
Proof.
  induction ids as [|k ids IH]; intros r l0 l1; cbn [forM].
  - intros [= <-]. split; [done|]. apply batcher_unchanged_refl.
  - intros H0. inv_bind H0. pose proof (processFinishedJob_removed _ _ _ _ Hx) as Hr.
    destruct (IH _ _ _ H0) as [Hb Hrest]. split.
    + destruct Hr as (_ & _ & _ & Hb' & _). congruence.
    + exists x. done.
Qed.

Lemma killJobs_spec jobsToKill l l' :
  killJobs setupJobAfterFailure jobsToKill l = Ok l' ->
  forM jobsToKill (fun i => processFinishedJob setupJobAfterFailure i 1)
    (kill_in_batchSystem jobsToKill l) = Ok l' /\
  killed (batchSystem l') = killed (batchSystem l) ++ jobsToKill /\
  nextJobID (batchSystem l') = nextJobID (batchSystem l) /\
  jobs_removed jobsToKill (kill_in_batchSystem jobsToKill l) l'.
Proof.
  unfold killJobs. intros H.
  assert (Hf : forM jobsToKill (fun i => processFinishedJob setupJobAfterFailure i 1)
                 (kill_in_batchSystem jobsToKill l) = Ok l').
  { destruct jobsToKill; [|done]. simpl in H. injection H as <-.
    by rewrite kill_in_batchSystem_nil. }
  split; [done|].
  destruct (forM_processFinishedJob_removed _ _ _ _ Hf) as [Hb Hr].
  rewrite Hb. done.
Qed.

(** C8, as the code has it.  The pass over the running jobs kills a job
    exactly when the effective maximum (the configured [max_job_duration],
    raised to ten times [job_time] if it is below that) is less than ten
    million seconds and the job has run for longer than that maximum.  The
    jobs to kill are handed to [killBatchJobs] and then each goes through
    [processFinishedJob] with result status 1. *)
Theorem overlong_jobs_killed_above_effective_maximum
    (runningJobs : list (Z * Q)) (l l' : Leader) :
  reissueOverLongJobs setupJobAfterFailure runningJobs l = Ok l' ->
  let maxJobDuration := effective_maxJobDuration (config (store l)) in
  exists jobsToKill,
    (forall i, i ∈ jobsToKill <->
       exists t, (i, t) ∈ runningJobs /\
                 (maxJobDuration < 10000000)%Q /\ (maxJobDuration < t)%Q) /\
    killed (batchSystem l') = killed (batchSystem l) ++ jobsToKill /\
    forM jobsToKill (fun i => processFinishedJob setupJobAfterFailure i 1)
      (kill_in_batchSystem jobsToKill l) = Ok l'.
Proof.
  intros H maxJobDuration. unfold reissueOverLongJobs in H.
  cbv zeta in H. fold maxJobDuration in H.
  destruct (Qltb maxJobDuration 10000000) eqn:Eg.
  - inv_bind H. rename x into jobsToKill. unfold overLong_jobsToKill in Hx.
    pose proof (overLong_jobsToKill_spec _ _ _ _ _ Hx) as Hspec.
    apply killJobs_spec in H as (Hf & Hk & _). apply Qltb_lt in Eg.
    exists jobsToKill. split; [|done]. intros i. rewrite Hspec. split.
    + intros [Hi|(t & Ht & Hlt)]; [inversion Hi|eauto].
    + intros (t & Ht & _ & Hlt). right. eauto.
  - injection H as <-. exists []. split; [|split].
    + intros i. split; [intros Hi; inversion Hi|].
      intros (t & _ & Hlt & _). apply Qltb_lt in Hlt. congruence.
    + by rewrite app_nil_r.
    + cbn [forM]. by rewrite kill_in_batchSystem_nil.
Qed.

End LeaderFacts.

Lemma overlong_jobs_killed_above_effective_maximum_witness :
  let maxJobDuration := effective_maxJobDuration (config (store example_running)) in
  exists jobsToKill,
    (forall i, i ∈ jobsToKill <->
       exists t, (i, t) ∈ [(0, 11%Q)] /\
                 (maxJobDuration < 10000000)%Q /\ (maxJobDuration < t)%Q) /\
    killed (batchSystem example_rescued)
      = killed (batchSystem example_running) ++ jobsToKill /\
    forM jobsToKill (fun i => processFinishedJob setupJobAfterFailure_spec i 1)
      (kill_in_batchSystem jobsToKill example_running) = Ok example_rescued.
Proof.
  apply (overlong_jobs_killed_above_effective_maximum setupJobAfterFailure_spec
           [(0, 11%Q)] example_running example_rescued).
  vm_compute. reflexivity.
Defined.

(** C8 as stated fails: [max_job_duration] is 5 and [job_time] is 1; batch
    job 0 has been running for 7 seconds, more than [max_job_duration], and
    the rescue pass kills nothing and leaves the leader as it was. *)
Lemma overlong_job_below_ten_job_times_not_killed :
  (max_job_duration (config (store example_running)) < 7)%Q /\
  reissueOverLongJobs setupJobAfterFailure_spec [(0, 7%Q)] example_running
    = Ok example_running /\
  killed (batchSystem example_running) = [] /\
  hasJob example_running 0 = true.
Proof. repeat split; vm_compute; reflexivity. Qed.

(** ** The leader: the exit of the main loop and what it returns *)

(** The counter [jobsIssued] counts the entries of the dictionary of the
    batcher, and the ids in it are ids that the batch system has handed
    out. *)
Record batcher_ok (l : Leader) : Prop := mkBatcherOk {
  issued_counted :
    jobsIssued l = Z.of_nat (size (jobBatchSystemIDToJobStoreIDHash l));
  issued_below_next :
    forall k, is_Some (jobBatchSystemIDToJobStoreIDHash l !! k) ->
              k < nextJobID (batchSystem l)
}.

(** A step that fails no job and keeps the batcher in order. *)
Definition quiet (l l' : Leader) : Prop :=
  totalFailedJobs l' = totalFailedJobs l /\ (batcher_ok l -> batcher_ok l').

Lemma quiet_refl l : quiet l l.
Proof. by split. Qed.

Lemma quiet_trans l1 l2 l3 : quiet l1 l2 -> quiet l2 l3 -> quiet l1 l3.
Proof. intros [H1 H2] [H3 H4]. split; [congruence|auto]. Qed.

Lemma batcher_unchanged_quiet l l' : batcher_unchanged l l' -> quiet l l'.
Proof.
  intros (H1 & H2 & H3 & H4). split; [done|]. intros [Hc Hb].
  split; rewrite ?H1, ?H2, ?H3; done.
Qed.

Lemma issueJob_quiet i m c d l : quiet l (issueJob i m c d l).
Proof.
  split; [done|]. intros [Hc Hb]. unfold issueJob. split; simpl.
  - rewrite map_size_insert_None, Hc; [lia|].
    destruct (jobBatchSystemIDToJobStoreIDHash l !! nextJobID (batchSystem l)) eqn:E;
      [|done].
    specialize (Hb _ (ltac:(eauto))). lia.
  - intros k Hk. destruct (decide (k = nextJobID (batchSystem l))) as [->|Hne]; [lia|].
    rewrite lookup_insert_ne in Hk by done. specialize (Hb k Hk). lia.
Qed.

Lemma issueJobs_quiet jobs : forall l, quiet l (issueJobs jobs l).
Proof.
  unfold issueJobs. induction jobs as [|[[[i m] c] d] jobs IH]; intros l; simpl.
  - apply quiet_refl.
  - eapply quiet_trans; [apply issueJob_quiet|apply IH].
Qed.

Lemma job_removed_quiet i l l' : job_removed i l l' -> quiet l l'.
Proof.
  intros (Hs & Hh & Hn & Hb & Ht). split; [done|]. intros [Hc Hlt]. split.
  - rewrite Hn, Hh, map_size_delete_Some, Hc by done.
    assert (size (jobBatchSystemIDToJobStoreIDHash l) <> 0%nat).
    { apply map_size_ne_0_lookup. destruct Hs as [a Ha]. eauto. }
    lia.
  - intros k Hk. rewrite Hh in Hk. rewrite Hb. apply Hlt.
    destruct (decide (i = k)) as [->|Hne].
    + rewrite lookup_delete_eq in Hk. by destruct Hk.
    + by rewrite lookup_delete_ne in Hk.
Qed.

Lemma jobs_removed_quiet ids : forall l l', jobs_removed ids l l' -> quiet l l'.
Proof.
  induction ids as [|i ids IH]; intros l l'; simpl.
  - apply batcher_unchanged_quiet.
  - intros (l1 & H1 & H2). eapply quiet_trans; [by eapply job_removed_quiet|by apply IH].
Qed.

Lemma kill_in_batchSystem_quiet ids l : quiet l (kill_in_batchSystem ids l).
Proof. split; [done|]. intros [Hc Hb]. split; done. Qed.

Lemma schedule_successor_unchanged batchjob entry succs l succs' l' :
  schedule_successor batchjob entry (succs, l) = Ok (succs', l') ->
  batcher_unchanged l l'.
Proof.
  unfold schedule_successor. intros H. inv_bind H.
  destruct x as [[[[sid m] c] d] pid].
  case_bool_decide.
  - inv_bind H. inv_bind H. inv_bind H. inv_bind H.
    destruct (_ <? _); injection H as <- <-; by repeat split.
  - injection H as <- <-. by repeat split.
Qed.

Lemma forM_schedule_successor_unchanged batchjob phase :
  forall succs l succs' l',
    forM phase (schedule_successor batchjob) (succs, l) = Ok (succs', l') ->
    batcher_unchanged l l'.
Proof.
  induction phase as [|e phase IH]; intros succs l succs' l'; cbn [forM].
  - intros [= <- <-]. apply batcher_unchanged_refl.
  - intros H. inv_bind H. destruct x as [succs1 l1].
    apply schedule_successor_unchanged in Hx. apply IH in H.
    by eapply batcher_unchanged_trans.
Qed.

Lemma process_updatedJob_total r l l' j :
  objs l !! r = Some j ->
  process_updatedJob r l = Ok l' ->
  totalFailedJobs l' = totalFailedJobs l + (if terminally_failed j then 1 else 0) /\
  (batcher_ok l -> batcher_ok l').
Proof.
  intros Hr. unfold process_updatedJob, get_obj, terminally_failed. rewrite Hr. simpl.
  case_bool_decide as Hc; simpl.
  - destruct (0 <? remainingRetryCount j); simpl.
    + intros [= <-]. split; [simpl; lia|]. apply issueJob_quiet.
    + intros [= <-]. split; [done|]. intros [? ?]. by split.
  - destruct (0 <? length (stack j))%nat eqn:Es; simpl.
    + intros H. inv_bind H. destruct x as [phase rest]. inv_bind H. inv_bind H.
      inv_bind H. destruct x1 as [successors l1]. injection H as <-.
      apply forM_schedule_successor_unchanged in Hx2.
      pose proof (issueJobs_quiet successors l1) as [Ht Hq].
      destruct Hx2 as (H1 & H2 & H3 & H4). simpl in *.
      split; [lia|]. intros [Hcount Hbelow]. apply Hq.
      split; rewrite ?H1, ?H2, ?H3; done.
    + destruct (0 <? remainingRetryCount j); simpl.
      * intros [= <-]. split; [simpl; lia|]. apply issueJob_quiet.
      * intros [= <-]. split; [done|]. intros [? ?]. by split.
Qed.

Lemma forM_process_updatedJob_total rs :
  forall l l1,
    forM rs process_updatedJob l = Ok l1 ->
    totalFailedJobs l1
      = totalFailedJobs l
        + Z.of_nat (length (List.filter terminally_failed (considered_jobs rs l))) /\
    (batcher_ok l -> batcher_ok l1).
Proof.
  induction rs as [|r rs IH]; intros l l1; cbn [forM considered_jobs].
  - intros [= <-]. simpl. split; [lia|done].
  - intros H. inv_bind H. rename x into l0.
    assert (Hr : exists j, objs l !! r = Some j).
    { unfold process_updatedJob, get_obj in Hx.
      destruct (objs l !! r) as [j|]; [eauto|done]. }
    destruct Hr as [j Hr]. rewrite Hr, Hx.
    destruct (process_updatedJob_total r l l0 j Hr Hx) as [Ht Hb].
    destruct (IH _ _ H) as [Ht' Hb'].
    split; [|auto]. simpl. destruct (terminally_failed j); simpl; lia.
Qed.

Lemma process_updatedJobs_total l l1 :
  process_updatedJobs l = Ok l1 ->
  totalFailedJobs l1
    = totalFailedJobs l
      + Z.of_nat (length (List.filter terminally_failed
                            (considered_jobs (updatedJobs l) l))) /\
  (batcher_ok l -> batcher_ok l1).
Proof.
  unfold process_updatedJobs. intros H. inv_bind H. injection H as <-.
  apply forM_process_updatedJob_total in Hx as [Ht Hb]. split; [done|].
  intros Hok. destruct (Hb Hok). by split.
Qed.

Section MainLoopFacts.

Variable setupJobAfterFailure : Config -> BatchJob -> BatchJob.

Lemma processFinishedJob_quiet i r l l' :
  processFinishedJob setupJobAfterFailure i r l = Ok l' -> quiet l l'.
Proof. intros H. eapply job_removed_quiet. by eapply processFinishedJob_removed. Qed.

Lemma killJobs_quiet ids l l' :
  killJobs setupJobAfterFailure ids l = Ok l' -> quiet l l'.
Proof.
  intros H. apply killJobs_spec in H as (_ & _ & _ & H).
  eapply quiet_trans; [apply kill_in_batchSystem_quiet|by eapply jobs_removed_quiet].
Qed.

Lemma reissueOverLongJobs_quiet running l l' :
  reissueOverLongJobs setupJobAfterFailure running l = Ok l' -> quiet l l'.
Proof.
  unfold reissueOverLongJobs. destruct (Qltb _ _).
  - intros H. inv_bind H. by eapply killJobs_quiet.
  - intros [= <-]. apply quiet_refl.
Qed.

Lemma reissueMissingJobs_quiet issuedIDs n l b l' :
  reissueMissingJobs setupJobAfterFailure issuedIDs n l = Ok (b, l') -> quiet l l'.
Proof.
  unfold reissueMissingJobs. intros H. invert_bind H as u Hassert.
  invert_bind H as [jobsToKill l1] Hloop. invert_bind H as l2 Hkill. injection H as _ <-.
  apply killJobs_quiet in Hkill.
  eapply quiet_trans; [|exact Hkill]. clear Hkill Hassert.
  match type of Hloop with forM _ ?body _ = _ =>
    assert (Hgen : forall ks jobs l3 jobs' l4,
              forM ks body (jobs, l3) = Ok (jobs', l4) -> batcher_unchanged l3 l4)
  end.
  { induction ks as [|k ks IH]; intros jobs l3 jobs' l4; cbn [forM].
    - intros [= <- <-]. apply batcher_unchanged_refl.
    - intros H. invert_bind H as [jobs1 l5] Hstep. invert_bind Hstep as a Hget.
      apply IH in H. eapply batcher_unchanged_trans; [|exact H].
      destruct (_ =? n); injection Hstep as <- <-; by repeat split. }
  apply Hgen in Hloop. apply batcher_unchanged_quiet.
  destruct Hloop as (H1 & H2 & H3 & H4). by repeat split.
Qed.

Lemma gather_quiet t l l' :
  gather setupJobAfterFailure t l = Ok l' -> quiet l l'.
Proof.
  unfold gather.
  assert (Hs : quiet l (with_store (workers t (store l)) l)).
  { split; [done|]. intros [? ?]. by split. }
  destruct (updatedJob t) as [[i r]|].
  - destruct (hasJob _ i).
    + intros H. apply processFinishedJob_quiet in H. by eapply quiet_trans.
    + by intros [= <-].
  - destruct (Qle_bool _ _).
    + intros H. invert_bind H as l1 Hlong. invert_bind H as [b l2] Hmiss.
      apply reissueOverLongJobs_quiet in Hlong.
      apply reissueMissingJobs_quiet in Hmiss.
      assert (Hq : quiet l l2) by (eauto using quiet_trans).
      destruct b; injection H as <-; destruct Hq as [Ht Hb];
        (split; [done|]; intros Hok; destruct (Hb Hok); by split).
    + by intros [= <-].
Qed.

Lemma _buildToilState_unchanged fuel :
  forall r l l', _buildToilState fuel r l = Ok l' -> batcher_unchanged l l'.
Proof.
  induction fuel as [|fuel IH]; intros r l l'; [done|].
  cbn beta iota zeta delta [_buildToilState]. intros H. invert_bind H as j Hj.
  destruct (_ || _).
  - injection H as <-. unfold updatedJobs_add. case_bool_decide; by repeat split.
  - eapply (forM_invariant (batcher_unchanged l)) in H; [done| |by repeat split].
    intros e s s' _ Hs E. eapply batcher_unchanged_trans; [exact Hs|].
    destruct e as [items|a]; [done|].
    destruct (successorJobStoreIDToPredecessorJobs s !! a).
    + injection E as <-. by repeat split.
    + invert_bind E as j2 Hj2. unfold new_obj in E. simpl in E.
      apply IH in E. destruct E as (H1 & H2 & H3 & H4). by repeat split.
Qed.

Lemma main_loop_unfold ticks l :
  main_loop setupJobAfterFailure ticks l =
    (process_updatedJobs l ≫= fun l1 =>
     getNumberOfJobsIssued l1 ≫= fun n =>
     if n =? 0 then Ok (totalFailedJobs l1, l1)
     else match ticks with
          | [] => OutOfFuel
          | t :: ticks' =>
              gather setupJobAfterFailure t l1 ≫= main_loop setupJobAfterFailure ticks'
          end).
Proof. by destruct ticks. Qed.

Lemma getNumberOfJobsIssued_ok l : batcher_ok l -> getNumberOfJobsIssued l = Ok (jobsIssued l).
Proof.
  intros [Hc _]. unfold getNumberOfJobsIssued.
  replace (0 <=? jobsIssued l) with true by (symmetry; apply Z.leb_le; lia). done.
Qed.

Lemma main_loop_exit ticks :
  forall l n l',
    batcher_ok l ->
    main_loop setupJobAfterFailure ticks l = Ok (n, l') ->
    jobBatchSystemIDToJobStoreIDHash l' = ∅ /\ jobsIssued l' = 0 /\
    n = totalFailedJobs l
        + Z.of_nat (length (List.filter terminally_failed
                              (considered setupJobAfterFailure ticks l))).
Proof.
  induction ticks as [|t ticks IH]; intros l n l' Hok; rewrite main_loop_unfold;
    intros H; invert_bind H as l1 Hdrain;
    destruct (process_updatedJobs_total _ _ Hdrain) as [Ht Hb];
    specialize (Hb Hok); rewrite (getNumberOfJobsIssued_ok _ Hb) in H; simpl in H;
    cbn [considered]; rewrite Hdrain;
    destruct (jobsIssued l1 =? 0) eqn:Ez.
  - injection H as <- <-. apply Z.eqb_eq in Ez. split; [|split; [done|]].
    + destruct Hb as [Hc _]. apply map_size_empty_inv. lia.
    + rewrite app_nil_r. done.
  - done.
  - injection H as <- <-. apply Z.eqb_eq in Ez. split; [|split; [done|]].
    + destruct Hb as [Hc _]. apply map_size_empty_inv. lia.
    + rewrite app_nil_r. done.
  - invert_bind H as l2 Hg. rewrite Hg.
    destruct (gather_quiet _ _ _ Hg) as [Ht2 Hb2].
    destruct (IH _ _ _ (Hb2 Hb) H) as (He & Hz & Hn).
    split; [done|]. split; [done|].
    rewrite List.filter_app, length_app. lia.
Qed.

(** C1, as the code has it.  In a pass of the main loop, once the updated
    jobs have been considered: if the batcher has no job outstanding, the
    loop is left at once and [totalFailedJobs] is returned; if it has, the
    loop goes on to wait for the batch system.  When the loop has been left,
    the dictionary of the batcher is empty, and the number returned is the
    number of jobs, among those considered in all the passes, that had a
    command or an empty stack and no retry left.  The same holds of
    [mainLoop], which starts from no failed job and an empty batcher. *)
Theorem mainLoop_exit_and_return (ticks : list Tick) (l : Leader) :
  batcher_ok l ->
  (forall l1,
     process_updatedJobs l = Ok l1 ->
     (jobsIssued l1 = 0 ->
      main_loop setupJobAfterFailure ticks l = Ok (totalFailedJobs l1, l1)) /\
     (jobsIssued l1 <> 0 ->
      main_loop setupJobAfterFailure ticks l =
        match ticks with
        | [] => OutOfFuel
        | t :: ticks' =>
            gather setupJobAfterFailure t l1 ≫= main_loop setupJobAfterFailure ticks'
        end)) /\
  (forall n l',
     main_loop setupJobAfterFailure ticks l = Ok (n, l') ->
     jobBatchSystemIDToJobStoreIDHash l' = ∅ /\ jobsIssued l' = 0 /\
     n = totalFailedJobs l
         + Z.of_nat (length (List.filter terminally_failed
                               (considered setupJobAfterFailure ticks l)))) /\
  (forall fuel startTime initiallyIssued b s rootJob n l',
     mainLoop setupJobAfterFailure fuel ticks startTime initiallyIssued b s rootJob
       = Ok (n, l') ->
     jobBatchSystemIDToJobStoreIDHash l' = ∅ /\ jobsIssued l' = 0 /\
     exists l0,
       _buildToilState fuel 0
         (mkLeader {[0%nat := rootJob]} 1 ∅ ∅ [] ∅ 0 ∅ b s 0 startTime) = Ok l0 /\
       n = Z.of_nat (length (List.filter terminally_failed
                               (considered setupJobAfterFailure ticks l0)))).
Proof.
  intros Hok. split; [|split].
  - intros l1 Hdrain.
    destruct (process_updatedJobs_total _ _ Hdrain) as [_ Hb]. specialize (Hb Hok).
    rewrite main_loop_unfold, Hdrain. simpl.
    rewrite (getNumberOfJobsIssued_ok _ Hb). simpl. split.
    + intros ->. done.
    + intros Hne. apply Z.eqb_neq in Hne. by rewrite Hne.
  - intros n l'. by apply main_loop_exit.
  - intros fuel startTime initiallyIssued b s rootJob n l' H.
    unfold mainLoop in H. invert_bind H as l0 Hbuild. invert_bind H as u Hassert.
    pose proof (_buildToilState_unchanged _ _ _ _ Hbuild) as (H1 & H2 & H3 & H4).
    simpl in H1, H2, H3, H4.
    assert (Hok0 : batcher_ok l0).
    { split; rewrite H1, ?H2; [done|]. intros k [a Hk]. by rewrite lookup_empty in Hk. }
    destruct (main_loop_exit _ _ _ _ Hok0 H) as (He & Hz & Hn).
    split; [done|]. split; [done|]. exists l0. split; [done|]. rewrite Hn, H4. lia.
Qed.

End MainLoopFacts.

Lemma mainLoop_exit_and_return_witness :
  (forall l1,
     process_updatedJobs example_run_start = Ok l1 ->
     (jobsIssued l1 = 0 ->
      main_loop setupJobAfterFailure_spec example_run_ticks example_run_start
        = Ok (totalFailedJobs l1, l1)) /\
     (jobsIssued l1 <> 0 ->
      main_loop setupJobAfterFailure_spec example_run_ticks example_run_start =
        match example_run_ticks with
        | [] => OutOfFuel
        | t :: ticks' =>
            gather setupJobAfterFailure_spec t l1
              ≫= main_loop setupJobAfterFailure_spec ticks'
        end)) /\
  (forall n l',
     main_loop setupJobAfterFailure_spec example_run_ticks example_run_start
       = Ok (n, l') ->
     jobBatchSystemIDToJobStoreIDHash l' = ∅ /\ jobsIssued l' = 0 /\
     n = totalFailedJobs example_run_start
         + Z.of_nat (length (List.filter terminally_failed
                               (considered setupJobAfterFailure_spec example_run_ticks
                                  example_run_start)))) /\
  (forall fuel startTime initiallyIssued b s rootJob n l',
     mainLoop setupJobAfterFailure_spec fuel example_run_ticks startTime
       initiallyIssued b s rootJob = Ok (n, l') ->
     jobBatchSystemIDToJobStoreIDHash l' = ∅ /\ jobsIssued l' = 0 /\
     exists l0,
       _buildToilState fuel 0
         (mkLeader {[0%nat := rootJob]} 1 ∅ ∅ [] ∅ 0 ∅ b s 0 startTime) = Ok l0 /\
       n = Z.of_nat (length (List.filter terminally_failed
                               (considered setupJobAfterFailure_spec example_run_ticks
                                  l0)))).
Proof.
  apply (mainLoop_exit_and_return setupJobAfterFailure_spec example_run_ticks
           example_run_start).
  split.
  - reflexivity.
  - intros k [a Hk]. vm_compute in Hk. discriminate.
Defined.

(** C1 as stated fails.  In this run [mainLoop] returns 1, and two of the
    jobs it considered had [remainingRetryCount] 0: R, when it came back
    with a successor to schedule, and S.  R had its successor scheduled and
    was not counted. *)
Lemma mainLoop_does_not_count_every_job_without_retries :
  (exists l',
     mainLoop setupJobAfterFailure_spec 1 example_run_ticks 0 []
       (mkBatchSystem 0 [] []) (with_record example_R example_store) example_R
     = Ok (1, l')) /\
  _buildToilState 1 0
    (mkLeader {[0%nat := example_R]} 1 ∅ ∅ [] ∅ 0 ∅ (mkBatchSystem 0 [] [])
       (with_record example_R example_store) 0 0) = Ok example_run_start /\
  List.map (fun j => (jobStoreID j, command j, length (stack j), remainingRetryCount j))
    (considered setupJobAfterFailure_spec example_run_ticks example_run_start)
  = [("R", Some "r", 0%nat, 1); ("R", None, 1%nat, 0); ("S", Some "s", 0%nat, 0)] /\
  length (List.filter (fun j => remainingRetryCount j =? 0)
            (considered setupJobAfterFailure_spec example_run_ticks example_run_start))
  = 2%nat.
Proof.
  split; [|split; [|split]].
  - eexists. vm_compute. reflexivity.
  - vm_compute. reflexivity.
  - vm_compute. reflexivity.
  - vm_compute. reflexivity.
Qed.

(** ** The leader: successors with several predecessors *)

Lemma schedule_successor_join l batchjob sid m c d pid succs job2 :
  pid <> PNone ->
  jobFiles (store l) !! sid = Some job2 ->
  jobStoreID job2 = sid ->
  let finished := {[pid]} ∪ predecessorsFinished job2 in
  let job2' := set_predecessorsFinished finished job2 in
  let n := Z.of_nat (size finished) in
  let l' :=
    with_store (with_record job2' (store l))
      (with_predecessorJobs
         (<[PStr sid :=
              default [] (successorJobStoreIDToPredecessorJobs l !! PStr sid)
                ++ [batchjob]]>
            (successorJobStoreIDToPredecessorJobs l)) l) in
  schedule_successor batchjob (PTuple [PStr sid; m; c; d; pid]) (succs, l) =
    if n <=? predecessorNumber job2 then
      if n <? predecessorNumber job2 then Ok (succs, l')
      else Ok (succs ++ [(PStr sid, m, c, d)], l')
    else Raise AssertionError.
Proof.
  intros Hpid Hj Hid finished job2' n l'.
  unfold schedule_successor. simpl.
  rewrite bool_decide_true by done. unfold load. rewrite Hj. simpl.
  fold finished. fold job2'. fold n.
  rewrite update_exists by (simpl; rewrite Hid; eauto). simpl.
  assert (Hn : (1 <=? n) = true).
  { apply Z.leb_le. unfold n.
    assert (size finished <> 0%nat); [|lia].
    apply size_non_empty_iff. unfold finished. set_solver. }
  rewrite Hn. simpl. destruct (n <=? predecessorNumber job2); simpl; [|done].
  by destruct (n <? predecessorNumber job2).
Qed.

#[local] Arguments schedule_successor : simpl never.

(** The step of the loop over a popped phase.  A descriptor with a
    predecessor id makes the leader load the successor, add the id to its
    [predecessorsFinished] and write the record back; the successor is put
    on the list of jobs to issue exactly when the set then has
    [predecessorNumber] elements (a larger set fails the assertion), and a
    job whose phase is that descriptor issues it exactly then.  So for a
    successor with two predecessors and nothing finished: the first
    predecessor id leaves it unissued, and any other predecessor id after
    that gets it issued. *)
Lemma join_issued_when_all_predecessors_finished
    (l : Leader) (batchjob : nat) (sid : string) (m c d pid : Atom)
    (succs : list (Atom * Atom * Atom * Atom)) (job2 : BatchJob) :
  pid <> PNone ->
  jobFiles (store l) !! sid = Some job2 ->
  jobStoreID job2 = sid ->
  let finished := {[pid]} ∪ predecessorsFinished job2 in
  let job2' := set_predecessorsFinished finished job2 in
  let n := Z.of_nat (size finished) in
  let entry := PTuple [PStr sid; m; c; d; pid] in
  match schedule_successor batchjob entry (succs, l) with
  | Ok (succs', l') =>
      jobFiles (store l') = <[sid := job2']> (jobFiles (store l)) /\
      (n = predecessorNumber job2 /\ succs' = succs ++ [(PStr sid, m, c, d)] \/
       n < predecessorNumber job2 /\ succs' = succs)
  | Raise e => e = AssertionError /\ predecessorNumber job2 < n
  | OutOfFuel => False
  end /\
  (forall j below,
     objs l !! batchjob = Some j -> command j = None ->
     stack j = below ++ [[entry]] -> successorCounts l !! batchjob = None ->
     match process_updatedJob batchjob l with
     | Ok l' =>
         issued (batchSystem l') =
           issued (batchSystem l) ++
           (if n =? predecessorNumber job2
            then [(nextJobID (batchSystem l), PStr sid, m, c, d)] else [])
     | Raise e => e = AssertionError /\ predecessorNumber job2 < n
     | OutOfFuel => False
     end) /\
  (predecessorNumber job2 = 2 -> predecessorsFinished job2 = ∅ ->
   exists l1,
     schedule_successor batchjob entry (succs, l) = Ok (succs, l1) /\
     jobFiles (store l1) !! sid = Some job2' /\
     forall l2 batchjob2 m2 c2 d2 pid2 succs2,
       pid2 <> PNone -> pid2 <> pid ->
       jobFiles (store l2) !! sid = Some job2' ->
       exists l3,
         schedule_successor batchjob2 (PTuple [PStr sid; m2; c2; d2; pid2]) (succs2, l2)
           = Ok (succs2 ++ [(PStr sid, m2, c2, d2)], l3)).
Proof.
  intros Hpid Hj Hid finished job2' n entry.
  pose proof (schedule_successor_join l batchjob sid m c d pid succs job2 Hpid Hj Hid)
    as Hs.
  cbv zeta in Hs. fold finished job2' n entry in Hs.
  split; [|split].
  - rewrite Hs. destruct (n <=? predecessorNumber job2) eqn:Ele.
    + apply Z.leb_le in Ele. destruct (n <? predecessorNumber job2) eqn:Elt.
      * apply Z.ltb_lt in Elt. split; [by simpl; rewrite Hid|]. right. done.
      * apply Z.ltb_ge in Elt. split; [by simpl; rewrite Hid|]. left. split; [lia|done].
    + apply Z.leb_gt in Ele. done.
  - intros j below Hr Hc Hstk Hcount.
    unfold process_updatedJob, get_obj. rewrite Hr. simpl. rewrite Hc.
    rewrite bool_decide_false by (intros ?; done).
    rewrite Hstk, length_app, stack_pop_snoc. simpl.
    replace (0 <? length below + 1)%nat with true by (symmetry; apply Nat.ltb_lt; lia).
    simpl. rewrite Hcount. simpl. unfold entry.
    match goal with |- context [schedule_successor batchjob _ ([], ?l0)] =>
      pose proof (schedule_successor_join l0 batchjob sid m c d pid [] job2 Hpid Hj Hid)
        as Hs'
    end.
    cbv zeta in Hs'. fold finished job2' n in Hs'. rewrite Hs'.
    destruct (n <=? predecessorNumber job2) eqn:Ele; simpl.
    + apply Z.leb_le in Ele. destruct (n <? predecessorNumber job2) eqn:Elt; simpl.
      * apply Z.ltb_lt in Elt. replace (n =? predecessorNumber job2) with false
          by (symmetry; apply Z.eqb_neq; lia). by rewrite app_nil_r.
      * apply Z.ltb_ge in Elt. replace (n =? predecessorNumber job2) with true
          by (symmetry; apply Z.eqb_eq; lia). done.
    + apply Z.leb_gt in Ele. done.
  - intros Hnum Hfin.
    assert (Hn1 : n = 1).
    { unfold n, finished. rewrite Hfin, union_empty_r_L, size_singleton. done. }
    rewrite Hs, Hnum, Hn1. simpl. eexists. split; [reflexivity|]. split.
    + simpl. rewrite Hid. apply lookup_insert_eq.
    + intros l2 batchjob2 m2 c2 d2 pid2 succs2 Hpid2 Hne Hj2.
      pose proof (schedule_successor_join l2 batchjob2 sid m2 c2 d2 pid2 succs2 job2'
                    Hpid2 Hj2 Hid) as Hs2.
      cbv zeta in Hs2. rewrite Hs2. simpl.
      assert (Hn2 : size ({[pid2]} ∪ finished) = 2%nat).
      { unfold finished. rewrite Hfin, union_empty_r_L.
        rewrite size_union by set_solver. by rewrite !size_singleton. }
      rewrite Hn2, Hnum. simpl. eexists. reflexivity.
Qed.

Lemma join_issued_when_all_predecessors_finished_witness :
  exists l1,
    schedule_successor 0 (PTuple [PStr "J"; PNum 1; PNum 1; PNum 1; PStr "A"])
      ([], example_join) = Ok ([], l1) /\
    predecessorsFinished <$> jobFiles (store l1) !! "J" = Some {[PStr "A"]} /\
    exists l3,
      schedule_successor 1 (PTuple [PStr "J"; PNum 1; PNum 1; PNum 1; PStr "B"])
        ([], l1) = Ok ([(PStr "J", PNum 1, PNum 1, PNum 1)], l3).
Proof.
  destruct (join_issued_when_all_predecessors_finished example_join 0 "J"
              (PNum 1) (PNum 1) (PNum 1) (PStr "A") [] example_J)
    as (_ & _ & H); [done | reflexivity | reflexivity |].
  destruct (H eq_refl eq_refl) as (l1 & H1 & H2 & H3).
  exists l1. split; [exact H1|]. split.
  - rewrite H2. reflexivity.
  - apply (H3 l1 1%nat (PNum 1) (PNum 1) (PNum 1) (PStr "B") []);
      [done | done | exact H2].
Defined.

(** The two ready jobs in one pass: after A alone nothing is issued; after A
    and B the job J is issued, once. *)
Example example_join_issued_once :
  match process_updatedJob 0 example_join with
  | Ok l => Some (issued (batchSystem l))
  | _ => None
  end = Some [] /\
  match process_updatedJobs example_join with
  | Ok l => Some (issued (batchSystem l))
  | _ => None
  end = Some [(0, PStr "J", PNum 1, PNum 1, PNum 1)].
Proof. split; vm_compute; reflexivity. Qed.

(** * Part III: further properties *)

(** ** The job store: records *)

(** X1.  [create] returns a record with the fields it was given, the
    configured number of tries, and nothing on its stack, in its
    [jobsToDelete] or among its finished predecessors; the record exists in
    the store and [load] returns it; every other record is as it was, and so
    are the files. *)
Theorem create_then_load
    (c : option string) (m cp d u : Atom) (pn : Z) (s : JobStore) :
  let r := create c m cp d u pn s in
  exists_ r.2 (jobStoreID r.1) = true /\
  load r.2 (jobStoreID r.1) = Ok r.1 /\
  r.1 = mkBatchJob c m cp d (jobStoreID r.1) (try_count (config s)) u pn [] ∅ [] None /\
  (forall i, i <> jobStoreID r.1 ->
     load r.2 i = load s i /\ exists_ r.2 i = exists_ s i) /\
  files r.2 = files s /\ tempFiles r.2 = tempFiles s.
Proof.
  intros r. unfold r, create, fresh, with_record, load, exists_, _defaultTryCount. simpl.
  rewrite lookup_insert_eq. split; [|split; [done|split; [done|split; [|done]]]].
  - apply bool_decide_eq_true. eauto.
  - intros i Hi. by rewrite lookup_insert_ne.
Qed.

(** X2.  [update] persists the record of a job that exists: [load] of its
    id then returns the record as written, whatever was there before, the
    other records and the files are as they were, and an [update] that
    follows replaces it.  On a job that does not exist (it was never created,
    or it has been deleted) [update] raises [IOError]: it does not bring a
    job into the store. *)
Theorem update_then_load (batchjob : BatchJob) (s : JobStore) :
  match update batchjob s with
  | Ok s' =>
      exists_ s (jobStoreID batchjob) = true /\
      load s' (jobStoreID batchjob) = Ok batchjob /\
      (forall i, i <> jobStoreID batchjob ->
         load s' i = load s i /\ exists_ s' i = exists_ s i) /\
      files s' = files s /\ tempFiles s' = tempFiles s /\
      (forall later, jobStoreID later = jobStoreID batchjob ->
         update later s' = update later s)
  | Raise e => e = IOError /\ exists_ s (jobStoreID batchjob) = false
  | OutOfFuel => False
  end /\
  update batchjob (delete (jobStoreID batchjob) s) = Raise IOError.
Proof.
  split.
  - unfold update. destruct (exists_ s (jobStoreID batchjob)) eqn:Ex; [|done].
    split; [done|]. unfold load, exists_, with_record. simpl.
    rewrite lookup_insert_eq. split; [done|]. split; [|split; [done|split; [done|]]].
    + intros i Hi. by rewrite lookup_insert_ne.
    + intros later Hid. rewrite Hid, lookup_insert_eq.
      unfold exists_ in Ex. rewrite Ex, bool_decide_true by eauto.
      unfold with_jobFiles. simpl. by rewrite insert_insert_eq.
  - unfold update, exists_. rewrite lookup_delete_job.
    rewrite decide_True by done. rewrite bool_decide_false; [done|]. by intros [? ?].
Qed.

(** X3.  After [delete] the job does not exist and [load] raises
    [NoSuchJobException]; the files written for the job are gone with it; the
    other jobs and their files are as they were; deleting again, or deleting
    a job that does not exist, changes nothing. *)
Theorem delete_removes_job_and_its_files (i : string) (s : JobStore) :
  let s' := delete i s in
  exists_ s' i = false /\
  load s' i = Raise NoSuchJobException /\
  (exists_ s i = true ->
   forall f fl, files s !! f = Some fl -> owner fl = i ->
     readFileStream s' f = Raise NoSuchFileException) /\
  (forall k, k <> i -> load s' k = load s k) /\
  (forall f fl, files s !! f = Some fl -> owner fl <> i ->
     readFileStream s' f = Ok (content fl)) /\
  delete i s' = s' /\
  (exists_ s i = false -> s' = s).
Proof.
  intros s'.
  assert (Hnone : jobFiles s' !! i = None).
  { unfold s'. rewrite lookup_delete_job. by rewrite decide_True. }
  assert (Hex : exists_ s' i = false).
  { unfold exists_. apply bool_decide_eq_false. rewrite Hnone. by intros [? ?]. }
  split; [done|]. split; [unfold load; by rewrite Hnone|].
  split; [|split; [|split; [|split]]].
  - intros He f fl Hf Ho. unfold s', delete. rewrite He. unfold readFileStream. simpl.
    destruct (filter _ (files s) !! f) as [fl'|] eqn:Ef; [|done].
    apply map_lookup_filter_Some in Ef as [Hf' Hne]. simpl in Hne. congruence.
  - intros k Hk. unfold load, s'. rewrite lookup_delete_job. by rewrite decide_False.
  - intros f fl Hf Ho. unfold s', delete, readFileStream.
    destruct (exists_ s i); simpl; [|by rewrite Hf].
    assert (filter (fun kv : string * File => owner kv.2 <> i) (files s) !! f = Some fl)
      as ->; [|done].
    apply map_lookup_filter_Some. done.
  - unfold delete at 1. by rewrite Hex.
  - intros He. unfold s', delete. by rewrite He.
Qed.

(** ** The job store: files *)

(** X4.  [writeFileStream] on a job that exists makes a file that
    [readFileStream] reads back as written; the records and the other files
    are as they were, and deleting the job removes the file.  On a job that
    does not exist it raises [NoSuchJobException]. *)
Theorem writeFileStream_then_read (i : string) (data : FileData) (s : JobStore) :
  match writeFileStream i data s with
  | Ok (f, s') =>
      exists_ s i = true /\
      readFileStream s' f = Ok data /\
      jobFiles s' = jobFiles s /\
      (forall g, g <> f -> readFileStream s' g = readFileStream s g) /\
      readFileStream (delete i s') f = Raise NoSuchFileException
  | Raise e => e = NoSuchJobException /\ exists_ s i = false
  | OutOfFuel => False
  end.
Proof.
  unfold writeFileStream, _checkJobStoreId. destruct (exists_ s i) eqn:He; simpl; [|done].
  split; [done|]. unfold readFileStream. simpl. rewrite lookup_insert_eq.
  split; [done|]. split; [done|]. split.
  - intros g Hg. by rewrite lookup_insert_ne.
  - unfold delete, exists_ in *. simpl. rewrite He. simpl.
    match goal with |- context [filter ?P ?m !! ?k] =>
      destruct (filter P m !! k) as [fl|] eqn:Ef; [|done] end.
    apply map_lookup_filter_Some in Ef as [Hf Hne]. simpl in Hne.
    rewrite lookup_insert_eq in Hf. injection Hf as <-. done.
Qed.

(** X5.  [updateFileStream] replaces what a file holds and nothing else:
    [readFileStream] then reads the new content, the file stays with its job,
    and the records and the other files are as they were.  On a file that
    does not exist it raises [NoSuchFileException], as [readFileStream]
    does. *)
Theorem updateFileStream_then_read (f : string) (data : FileData) (s : JobStore) :
  match updateFileStream f data s with
  | Ok s' =>
      (exists fl, files s !! f = Some fl /\ files s' !! f = Some (mkFile (owner fl) data)) /\
      readFileStream s' f = Ok data /\
      jobFiles s' = jobFiles s /\
      (forall g, g <> f -> readFileStream s' g = readFileStream s g)
  | Raise e =>
      e = NoSuchFileException /\ readFileStream s f = Raise NoSuchFileException
  | OutOfFuel => False
  end.
Proof.
  unfold updateFileStream, _checkJobStoreFileID, readFileStream.
  destruct (files s !! f) as [fl|] eqn:Ef.
  - rewrite bool_decide_true by eauto. simpl. rewrite lookup_alter_eq, Ef. simpl.
    split; [eauto|]. split; [done|]. split; [done|].
    intros g Hg. by rewrite lookup_alter_ne.
  - rewrite bool_decide_false by (by intros [? ?]). simpl. done.
Qed.

(** X6.  [deleteFile] of a file that exists: afterwards reading or updating
    it raises [NoSuchFileException], deleting it again changes nothing, and
    the records and the other files are as they were. *)
Theorem deleteFile_then_read (f : string) (fl : File) (data : FileData) (s : JobStore) :
  files s !! f = Some fl ->
  let s' := deleteFile f s in
  readFileStream s' f = Raise NoSuchFileException /\
  updateFileStream f data s' = Raise NoSuchFileException /\
  deleteFile f s' = s' /\
  jobFiles s' = jobFiles s /\
  (forall g, g <> f -> readFileStream s' g = readFileStream s g).
Proof.
  intros Hf s'. unfold s', deleteFile, readFileStream, updateFileStream,
    _checkJobStoreFileID. simpl. rewrite lookup_delete_eq.
  split; [done|]. split.
  - rewrite bool_decide_false by (by intros [? ?]). done.
  - split; [|split; [done|]].
    + unfold with_files. simpl. by rewrite delete_delete_eq.
    + intros g Hg. by rewrite lookup_delete_ne.
Qed.

Lemma deleteFile_then_read_witness :
  let s' := deleteFile "batchjob0/g/tmp1.tmp" example_with_file in
  readFileStream s' "batchjob0/g/tmp1.tmp" = Raise NoSuchFileException /\
  updateFileStream "batchjob0/g/tmp1.tmp" FEmpty s' = Raise NoSuchFileException /\
  deleteFile "batchjob0/g/tmp1.tmp" s' = s' /\
  jobFiles s' = jobFiles example_with_file /\
  (forall g, g <> "batchjob0/g/tmp1.tmp" ->
     readFileStream s' g = readFileStream example_with_file g).
Proof.
  apply (deleteFile_then_read "batchjob0/g/tmp1.tmp"
           (mkFile "batchjob0" (FText "one")) FEmpty example_with_file).
  vm_compute. reflexivity.
Defined.

(** ** The job store: the iterator over the records *)

Lemma lookup_delete_jobs (ids : list string) :
  forall s k,
    jobFiles (fold_left (fun s' i => delete i s') ids s) !! k =
      if decide (k ∈ ids) then None else jobFiles s !! k.
Proof.
  induction ids as [|i ids IH]; intros s k; cbn [fold_left].
  - rewrite decide_False; [done|]. intros H. inversion H.
  - rewrite IH, lookup_delete_job.
    destruct (decide (k ∈ ids)) as [Hin|Hin].
    + rewrite decide_True; [done|]. by right.
    + destruct (decide (i = k)) as [->|Hne].
      * rewrite decide_True; [done|]. by left.
      * rewrite decide_False; [done|]. intros [->|?]%elem_of_cons; done.
Qed.

(** X7.  [jobs] yields every record of the store once, and only records
    that [load] returns; once each of them has been deleted, it yields
    nothing. *)
Theorem jobs_lists_each_record_once (s : JobStore) :
  NoDup (jobIDs s) /\
  (forall i, i ∈ jobIDs s <-> exists_ s i = true) /\
  (forall i, i ∈ jobIDs s <-> exists j, load s i = Ok j) /\
  jobIDs (fold_left (fun s' i => delete i s') (jobIDs s) s) = [].
Proof.
  split; [apply NoDup_jobIDs|]. split; [|split].
  - intros i. rewrite elem_of_jobIDs. unfold exists_. by rewrite bool_decide_eq_true.
  - intros i. rewrite elem_of_jobIDs. unfold load. split.
    + intros [j ->]. eauto.
    + intros [j Hj]. destruct (jobFiles s !! i); [eauto|done].
  - unfold jobIDs at 1.
    assert (jobFiles (fold_left (fun s' i => delete i s') (jobIDs s) s) = ∅) as ->.
    { apply map_eq. intros k. rewrite lookup_delete_jobs, lookup_empty.
      case_decide as Hk; [done|]. rewrite elem_of_jobIDs in Hk.
      destruct (jobFiles s !! k); [|done]. exfalso. eauto. }
    by rewrite map_to_list_empty.
Qed.

(** ** The job store: writing and draining statistics *)

(** The names that [mkstemp] has handed out for the files at hand are names
    already used: the next one is new. *)
Definition temp_fresh (s : JobStore) : Prop :=
  forall e, e ∈ tempFiles s -> (tn_random e.1 < used s)%nat.

Lemma filter_all {A} (P : A -> Prop) `{forall x, Decision (P x)} (l : list A) :
  (forall x, x ∈ l -> P x) -> filter P l = l.
Proof.
  induction l as [|x l IH]; intros Hl; [done|].
  rewrite filter_cons_True by (apply Hl; left).
  f_equal. apply IH. intros y Hy. apply Hl. by right.
Qed.

Lemma writeStatsAndLogging_fresh (str : string) (s : JobStore) :
  temp_fresh s ->
  writeStatsAndLogging str s =
    Ok (with_tempFiles (tempFiles s ++ [(mkTempName "stats" (used s) "", str)])
          (with_used (S (used s)) s)).
Proof.
  intros Hfresh. unfold writeStatsAndLogging, writeStats_tempfile, writeStats_rename.
  cbn [tempFiles with_tempFiles with_used].
  set (tmp := mkTempName "stats" (used s) ".new").
  assert (Hold : forall e, e ∈ tempFiles s -> e.1 <> tmp /\ e.1 <> drop_last4 tmp).
  { intros e He. apply Hfresh in He. split; intros Heq; rewrite Heq in He;
      simpl in He; lia. }
  destruct (list_find (fun e : TempName * string => e.1 = tmp)
              (tempFiles s ++ [(tmp, str)])) as [[i [n d]]|] eqn:Ef.
  - apply list_find_Some in Ef as (Hi & Hn & _). simpl in Hn. subst n.
    apply list_elem_of_lookup_2 in Hi. apply elem_of_app in Hi as [Hi|Hi].
    + apply Hold in Hi as [Hi _]. done.
    + apply list_elem_of_singleton in Hi. injection Hi as ->.
      rewrite filter_app, (filter_all _ _ Hold).
      rewrite filter_cons_False by (intros [? _]; done).
      rewrite filter_nil, app_nil_r. reflexivity.
  - exfalso. apply list_find_None in Ef.
    pose proof (proj1 (Forall_forall _ _) Ef (tmp, str)) as Hc.
    apply Hc; [|done]. apply elem_of_app. right. left.
Qed.

Lemma writes_fresh (strs : list string) :
  forall s, temp_fresh s ->
    exists s',
      forM strs writeStatsAndLogging s = Ok s' /\
      delivered (tempFiles s') =
        delivered (tempFiles s)
          ++ imap (fun k str => (mkTempName "stats" (used s + k) "", str)) strs /\
      (forall e, e ∈ tempFiles s' ->
         e ∈ tempFiles s \/ name_startswith "stats" e.1 = true) /\
      jobFiles s' = jobFiles s /\ files s' = files s.
Proof.
  induction strs as [|str strs IH]; intros s Hfresh; cbn [forM].
  - exists s. split; [done|]. simpl. rewrite app_nil_r. by repeat split; auto.
  - rewrite (writeStatsAndLogging_fresh _ _ Hfresh). simpl.
    set (s1 := with_tempFiles _ _).
    assert (Hfresh1 : temp_fresh s1).
    { intros e He. unfold s1 in He. simpl in He. simpl.
      apply elem_of_app in He as [He|He].
      - apply Hfresh in He. lia.
      - apply list_elem_of_singleton in He. subst e. simpl. lia. }
    destruct (IH s1 Hfresh1) as (s' & Hrun & Hd & Hin & Hj & Hf).
    exists s'. split; [done|]. split; [|split; [|done]].
    + rewrite Hd. unfold s1. simpl. unfold delivered.
      rewrite List.filter_app. simpl. rewrite <- app_assoc. simpl.
      rewrite Nat.add_0_r. do 2 f_equal. apply imap_ext. intros k x _. simpl.
      do 2 f_equal. lia.
    + intros e He. apply Hin in He as [He|He]; [|by right].
      unfold s1 in He. simpl in He. apply elem_of_app in He as [He|He]; [by left|].
      apply list_elem_of_singleton in He. subst e. by right.
Qed.

Lemma fold_left_snoc_fmap {A B} (f : A -> B) (l : list A) :
  forall acc, fold_left (fun a e => a ++ [f e]) l acc = acc ++ (f <$> l).
Proof.
  induction l as [|x l IH]; intros acc; simpl; [by rewrite app_nil_r|].
  rewrite IH, <- app_assoc. done.
Qed.

Lemma imap_snd {A B} (f : nat -> A) (l : list B) :
  (imap (fun k x => (f k, x)) l).*2 = l.
Proof.
  revert f. induction l as [|x l IH]; intros f; [done|].
  simpl. f_equal. apply (IH (fun k => f (S k))).
Qed.

(** X8.  Writes that have finished are all met by the next drain: after
    [writeStatsAndLogging] of each of a list of strings, [readStatsAndLogging]
    returns the number of finished files that were there before plus the
    number of strings written, hands the callback exactly those strings, and
    leaves the records and the files of the jobs alone; a drain right after
    it returns 0. *)
Theorem writes_then_drain (strs : list string) (s : JobStore) :
  temp_fresh s ->
  exists s',
    forM strs writeStatsAndLogging s = Ok s' /\
    let r := readStatsAndLogging (fun x got => got ++ [x]) [] s' in
    r.1.1 = (length (delivered (tempFiles s)) + length strs)%nat /\
    r.1.2 ≡ₚ (delivered (tempFiles s)).*2 ++ strs /\
    jobFiles r.2 = jobFiles s /\ files r.2 = files s /\
    forall (X : Type) (cb : string -> X -> X) (acc : X),
      (readStatsAndLogging cb acc r.2).1 = (0%nat, acc).
Proof.
  intros Hfresh. destruct (writes_fresh strs s Hfresh) as (s' & Hrun & Hd & _ & Hj & Hf).
  exists s'. split; [done|]. intros r.
  destruct (readStatsAndLogging_spec (fun x got => got ++ [x]) [] s')
    as (H1 & _ & _ & Hj' & Hf').
  fold r in H1, Hj', Hf'. rewrite H1, Hd. simpl.
  split; [|split; [|split; [congruence|split; [congruence|]]]].
  - by rewrite length_app, length_imap.
  - rewrite (fold_left_snoc_fmap snd). simpl. rewrite fmap_app.
    apply Permutation_app; [done|].
    by rewrite imap_snd.
  - intros X cb acc.
    destruct (readStatsAndLogging_spec (fun x got => got ++ [x]) [] s') as (_ & H3 & _).
    fold r in H3.
    destruct (readStatsAndLogging_spec cb acc r.2) as (H1' & _).
    rewrite delivered_none in H1' by (intros e He; by apply H3 in He as [_ ?]).
    exact H1'.
Qed.

Lemma writes_then_drain_witness :
  exists s',
    forM ["abc"; "abc"] writeStatsAndLogging example_store = Ok s' /\
    let r := readStatsAndLogging (fun x got => got ++ [x]) [] s' in
    r.1.1 = (length (delivered (tempFiles example_store)) + length ["abc"; "abc"])%nat /\
    r.1.2 ≡ₚ (delivered (tempFiles example_store)).*2 ++ ["abc"; "abc"] /\
    jobFiles r.2 = jobFiles example_store /\ files r.2 = files example_store /\
    forall (X : Type) (cb : string -> X -> X) (acc : X),
      (readStatsAndLogging cb acc r.2).1 = (0%nat, acc).
Proof.
  apply (writes_then_drain ["abc"; "abc"] example_store).
  intros e He. inversion He.
Defined.

(** ** Targets: reachability and the check for cycles *)

(** The child and follow-on edges of the heap. *)
Definition edge (w : Worker) (x y : TargetRef) : Prop :=
  exists t, targets w !! x = Some t /\ y ∈ _children t ++ _followOns t.

(** No reference dangles. *)
Definition heap_closed (w : Worker) : Prop :=
  forall x y, edge w x y -> is_Some (targets w !! y).

(** The targets not yet visited. *)
Definition unvisited (w : Worker) (visited : gset TargetRef) : nat :=
  size (dom (targets w) ∖ visited).

Lemma unvisited_mono w (V V' : gset TargetRef) :
  V ⊆ V' -> (unvisited w V' <= unvisited w V)%nat.
Proof. intros H. apply subseteq_size. set_solver. Qed.

Lemma unvisited_add w (V : gset TargetRef) x :
  is_Some (targets w !! x) -> x ∉ V -> (unvisited w ({[x]} ∪ V) < unvisited w V)%nat.
Proof.
  intros Hx Hn. apply subset_size. apply elem_of_dom in Hx. set_solver.
Qed.

(** What a traversal from [self] adds to [visited]: targets reachable from
    [self], together with their successors. *)
Record dfs_post (w : Worker) (from : TargetRef -> Prop) (V0 V : gset TargetRef) : Prop :=
  mkDfsPost {
    dfs_grows : V0 ⊆ V;
    dfs_reached : forall x, x ∈ V -> x ∉ V0 -> exists r, from r /\ rtc (edge w) r x;
    dfs_closed : forall x y, x ∈ V -> x ∉ V0 -> edge w x y -> y ∈ V
  }.

Section Reachability.

Variable w : Worker.
Hypothesis Hclosed : heap_closed w.

Lemma dfs_loop (fuel : nat) :
  (forall self V0,
     is_Some (targets w !! self) -> (unvisited w V0 < fuel)%nat ->
     exists V, _dfs fuel w self V0 = Ok V /\ self ∈ V /\ dfs_post w (eq self) V0 V) ->
  forall (l : list TargetRef) V0,
    (forall c, c ∈ l -> is_Some (targets w !! c)) -> (unvisited w V0 < fuel)%nat ->
    exists V, forM l (_dfs fuel w) V0 = Ok V /\ (forall c, c ∈ l -> c ∈ V) /\
              dfs_post w (fun r => r ∈ l) V0 V.
Proof.
  intros Hdfs l. induction l as [|c l IH]; intros V0 Hl Hfuel; cbn [forM].
  - exists V0. split; [done|]. split; [intros c Hc; inversion Hc|].
    split; [done|intros; done|intros; done].
  - destruct (Hdfs c V0 (Hl c (list_elem_of_here _ _)) Hfuel) as (V1 & -> & Hc & [G1 R1 C1]).
    simpl.
    destruct (IH V1) as (V & HV & Hin & [G2 R2 C2]).
    { intros c' Hc'. apply Hl. by right. }
    { pose proof (unvisited_mono w _ _ G1). lia. }
    exists V. split; [done|]. split; [|split].
    + intros c' [->|Hc']%elem_of_cons; [set_solver|auto].
    + set_solver.
    + intros x Hx Hn. destruct (decide (x ∈ V1)) as [Hx1|Hx1].
      * destruct (R1 x Hx1 Hn) as (r & <- & Hr). exists c. split; [left|done].
      * destruct (R2 x Hx Hx1) as (r & Hr & Hrx). exists r. split; [by right|done].
    + intros x y Hx Hn Hxy. destruct (decide (x ∈ V1)) as [Hx1|Hx1].
      * apply G2. by eapply C1.
      * by eapply C2.
Qed.

Lemma dfs_spec (fuel : nat) :
  forall self V0,
    is_Some (targets w !! self) -> (unvisited w V0 < fuel)%nat ->
    exists V, _dfs fuel w self V0 = Ok V /\ self ∈ V /\ dfs_post w (eq self) V0 V.
Proof.
  induction fuel as [|fuel IH]; intros self V0 [t Ht] Hfuel; [lia|].
  cbn [_dfs]. case_bool_decide as Hv.
  - exists V0. split; [done|]. split; [done|]. split; [done|intros; done|intros; done].
  - unfold get_target. rewrite Ht. simpl.
    destruct (dfs_loop fuel IH (_children t ++ _followOns t) ({[self]} ∪ V0))
      as (V & HV & Hin & [G R C]).
    { intros c Hc. apply (Hclosed self c). by exists t. }
    { pose proof (unvisited_add w V0 self (ltac:(eauto)) Hv). lia. }
    exists V. split; [done|]. split; [set_solver|]. split.
    + set_solver.
    + intros x Hx Hn. exists self. split; [done|].
      destruct (decide (x = self)) as [->|Hne]; [done|].
      destruct (R x Hx) as (c & Hc & Hcx); [set_solver|].
      eapply rtc_l; [|exact Hcx]. by exists t.
    + intros x y Hx Hn Hxy. destruct (decide (x = self)) as [->|Hne].
      * apply Hin. destruct Hxy as (t' & Ht' & Hy). congruence.
      * eapply C; [exact Hx|set_solver|exact Hxy].
Qed.

Lemma dfs_post_reachable (from : TargetRef -> Prop) (V : gset TargetRef) :
  (forall r, from r -> r ∈ V) -> dfs_post w from ∅ V ->
  forall x, x ∈ V <-> exists r, from r /\ rtc (edge w) r x.
Proof.
  intros Hfrom [G R C] x. split.
  - intros Hx. apply R; [done|set_solver].
  - intros (r & Hr & Hrx). apply Hfrom in Hr.
    induction Hrx as [|a b c Hab Hbc IH]; [done|].
    apply IH. eapply C; [exact Hr|set_solver|exact Hab].
Qed.

End Reachability.

Section CycleCheck.

Variable w : Worker.
Variable extraEdges : gmap TargetRef (list TargetRef).
Variable root : TargetRef.

(** The edges that [_checkTargetGraphAcylicDFS] follows. *)
Definition aug_edge (x y : TargetRef) : Prop :=
  exists t es, targets w !! x = Some t /\ extraEdges !! x = Some es /\
               y ∈ _children t ++ _followOns t ++ es.

Hypothesis Haug_closed : forall x y, aug_edge x y -> is_Some (targets w !! y).
Hypothesis Hextra : forall x, rtc aug_edge root x -> is_Some (extraEdges !! x).

Definition stack_path (stk : list TargetRef) : Prop :=
  forall i x y, stk !! i = Some x -> stk !! (S i) = Some y -> aug_edge x y.

(** Between two calls: the stack is a path of visited targets, and the
    visited targets off the stack are finished, that is closed under the
    edges and on no cycle. *)
Record check_inv (stk : list TargetRef) (V : gset TargetRef) : Prop := mkCheckInv {
  inv_stack_visited : forall x, x ∈ stk -> x ∈ V;
  inv_closed : forall x y, x ∈ V -> x ∉ stk -> aug_edge x y -> y ∈ V /\ y ∉ stk;
  inv_acyclic : forall x, x ∈ V -> x ∉ stk -> ~ tc aug_edge x x;
  inv_path : stack_path stk
}.

Definition found_cycle (e : PyError) : Prop :=
  e = cycle_detected /\ exists x, rtc aug_edge root x /\ tc aug_edge x x.

Lemma check_inv_rtc stk V x y :
  check_inv stk V -> x ∈ V -> x ∉ stk -> rtc aug_edge x y -> y ∈ V /\ y ∉ stk.
Proof.
  intros Hinv Hx Hn Hxy. induction Hxy as [|a b c Hab Hbc IH]; [done|].
  destruct (inv_closed _ _ Hinv a b Hx Hn Hab). auto.
Qed.

Lemma stack_path_snoc stk x :
  stack_path stk -> (forall q, last stk = Some q -> aug_edge q x) ->
  stack_path (stk ++ [x]).
Proof.
  intros Hp Hl i a b Ha Hb.
  destruct (decide (S i < length stk)%nat) as [Hlt|Hge].
  - rewrite lookup_app_l in Ha by lia. rewrite lookup_app_l in Hb by lia. eauto.
  - assert (length stk = S i) as Hlen.
    { apply lookup_lt_Some in Hb. rewrite length_app in Hb. simpl in Hb. lia. }
    rewrite lookup_app_l in Ha by lia. rewrite lookup_app_r in Hb by lia.
    rewrite Hlen, Nat.sub_diag in Hb. injection Hb as <-.
    apply Hl. rewrite last_lookup, Hlen. done.
Qed.

Lemma stack_path_to_last stk :
  stack_path stk -> forall i x q, stk !! i = Some x -> last stk = Some q -> rtc aug_edge x q.
Proof.
  intros Hp i x q Hi Hq. rewrite last_lookup in Hq.
  remember (Nat.pred (length stk) - i)%nat as d eqn:Hd.
  revert i x Hi Hd. induction d as [|d IH]; intros i x Hi Hd.
  - apply lookup_lt_Some in Hi as Hlt.
    assert (i = Nat.pred (length stk)) as -> by lia. rewrite Hi in Hq. by injection Hq as <-.
  - destruct (stk !! S i) as [y|] eqn:Hy.
    + eapply rtc_l; [eapply Hp; eauto|]. apply (IH (S i)); [done|lia].
    + apply lookup_ge_None in Hy. apply lookup_lt_Some in Hi. lia.
Qed.

Definition check_post (stk : list TargetRef) (V0 : gset TargetRef) (self : TargetRef)
    (r : Res (list TargetRef * gset TargetRef)) : Prop :=
  match r with
  | Ok (stk', V) => stk' = stk /\ V0 ⊆ V /\ self ∈ V /\ (self ∉ stk) /\ check_inv stk V
  | Raise e => found_cycle e
  | OutOfFuel => False
  end.

Definition check_loop_post (stk : list TargetRef) (V0 : gset TargetRef)
    (l : list TargetRef) (r : Res (list TargetRef * gset TargetRef)) : Prop :=
  match r with
  | Ok (stk', V) =>
      stk' = stk /\ V0 ⊆ V /\ check_inv stk V /\ forall c, c ∈ l -> c ∈ V /\ c ∉ stk
  | Raise e => found_cycle e
  | OutOfFuel => False
  end.

Lemma check_loop (fuel : nat) :
  (forall self stk V0,
     check_inv stk V0 -> is_Some (targets w !! self) ->
     (forall p, last stk = Some p -> aug_edge p self) -> rtc aug_edge root self ->
     (unvisited w V0 < fuel)%nat ->
     check_post stk V0 self (_checkTargetGraphAcylicDFS fuel w extraEdges self (stk, V0))) ->
  forall (l : list TargetRef) top stk V0,
    check_inv stk V0 -> last stk = Some top -> rtc aug_edge root top ->
    (forall c, c ∈ l -> aug_edge top c) -> (unvisited w V0 < fuel)%nat ->
    check_loop_post stk V0 l
      (forM l (_checkTargetGraphAcylicDFS fuel w extraEdges) (stk, V0)).
Proof.
  intros Hcall l. induction l as [|c l IH]; intros top stk V0 Hinv Htop Hroot Hl Hfuel;
    cbn [forM].
  - simpl. split; [done|]. split; [done|]. split; [done|]. intros c Hc. inversion Hc.
  - assert (Hc : aug_edge top c) by (apply Hl; left).
    pose proof (Hcall c stk V0 Hinv (Haug_closed _ _ Hc)
                  (fun p Hp => ltac:(congruence))
                  (rtc_r _ _ _ Hroot Hc) Hfuel) as Hpost.
    destruct (_checkTargetGraphAcylicDFS fuel w extraEdges c (stk, V0))
      as [[stk1 V1]|e|]; simpl in *; [|done|done].
    destruct Hpost as (-> & G1 & Hc1 & Hcn & Hinv1).
    pose proof (IH top stk V1 Hinv1 Htop Hroot
                  (fun c' Hc' => Hl c' (list_elem_of_further _ _ _ Hc'))
                  (ltac:(pose proof (unvisited_mono w _ _ G1); lia))) as Hpost.
    destruct (forM l (_checkTargetGraphAcylicDFS fuel w extraEdges) (stk, V1))
      as [[stk2 V2]|e|]; simpl in *; [|done|done].
    destruct Hpost as (-> & G2 & Hinv2 & Hin).
    split; [done|]. split; [set_solver|]. split; [done|].
    intros c' [->|Hc']%elem_of_cons; [|auto]. split; [set_solver|done].
Qed.

Lemma check_spec (fuel : nat) :
  forall self stk V0,
    check_inv stk V0 -> is_Some (targets w !! self) ->
    (forall p, last stk = Some p -> aug_edge p self) -> rtc aug_edge root self ->
    (unvisited w V0 < fuel)%nat ->
    check_post stk V0 self (_checkTargetGraphAcylicDFS fuel w extraEdges self (stk, V0)).
Proof.
  induction fuel as [|fuel IH]; intros self stk V0 Hinv [t Ht] Hlast Hroot Hfuel; [lia|].
  cbn beta iota zeta delta [_checkTargetGraphAcylicDFS]. case_bool_decide as Hv.
  - (* not visited yet *)
    unfold get_target. rewrite Ht. simpl.
    destruct (Hextra self Hroot) as [es Hes]. rewrite Hes. simpl.
    assert (Hns : self ∉ stk) by (intros Hs; apply Hv; by apply (inv_stack_visited _ _ Hinv)).
    assert (Hinv1 : check_inv (stk ++ [self]) ({[self]} ∪ V0)).
    { destruct Hinv as [I1 I2 I3 I4]. split.
      - intros x [Hx|Hx%list_elem_of_singleton]%elem_of_app; set_solver.
      - intros x y Hx Hn Hxy. apply not_elem_of_app in Hn as [Hn1 Hn2].
        assert (x ∈ V0) as Hx0 by set_solver.
        destruct (I2 x y Hx0 Hn1 Hxy) as [Hy1 Hy2]. split; [set_solver|].
        apply not_elem_of_app. split; [done|]. set_solver.
      - intros x Hx Hn. apply not_elem_of_app in Hn as [Hn1 Hn2].
        apply I3; [set_solver|done].
      - by apply stack_path_snoc. }
    pose proof (check_loop fuel IH (_children t ++ _followOns t ++ es) self
                  (stk ++ [self]) ({[self]} ∪ V0) Hinv1 (last_snoc _ _) Hroot
                  (fun c Hc => ltac:(by exists t, es))
                  (ltac:(pose proof (unvisited_add w V0 self (ltac:(eauto)) Hv); lia)))
      as Hpost.
    destruct (forM _ _ _) as [[stk1 V1]|e|]; simpl in *; [|done|done].
    destruct Hpost as (-> & G & Hinv2 & Hin).
    rewrite last_snoc. simpl. rewrite bool_decide_true by done. simpl.
    rewrite removelast_last. rewrite bool_decide_false by done. simpl.
    split; [done|]. split; [set_solver|]. split; [set_solver|]. split; [done|].
    destruct Hinv2 as [I1 I2 I3 I4]. split.
    + intros x Hx. apply I1. apply elem_of_app. by left.
    + intros x y Hx Hn Hxy. destruct (decide (x = self)) as [->|Hne].
      * destruct Hxy as (t' & es' & Ht' & Hes' & Hy).
        assert (t' = t) as -> by congruence. assert (es' = es) as -> by congruence.
        destruct (Hin y Hy) as [Hy1 Hy2]. split; [done|].
        intros Hy'. apply Hy2. apply elem_of_app. by left.
      * destruct (I2 x y Hx) as [Hy1 Hy2]; [|done|].
        { apply not_elem_of_app. split; [done|]. set_solver. }
        split; [done|]. intros Hy'. apply Hy2. apply elem_of_app. by left.
    + intros x Hx Hn. destruct (decide (x = self)) as [->|Hne].
      * intros Hcyc.
        assert (exists y, aug_edge self y /\ rtc aug_edge y self) as (y & Hy & Hys).
        { inversion Hcyc as [? ? Hxy|? y0 ? Hxy Hyz]; subst.
          - exists self. split; [done|apply rtc_refl].
          - exists y0. split; [done|by apply tc_rtc]. }
        destruct Hy as (t' & es' & Ht' & Hes' & Hy).
        assert (t' = t) as -> by congruence. assert (es' = es) as -> by congruence.
        destruct (Hin y Hy) as [Hy1 Hy2].
        destruct (check_inv_rtc _ _ y self (mkCheckInv _ _ I1 I2 I3 I4) Hy1 Hy2 Hys)
          as [_ Hbad].
        apply Hbad. apply elem_of_app. right. left.
      * apply I3; [done|]. apply not_elem_of_app. split; [done|]. set_solver.
    + exact (inv_path _ _ Hinv).
  - (* visited before *)
    simpl. assert (Hin : self ∈ V0) by exact Hv.
    case_bool_decide as Hs; simpl.
    + split; [done|]. exists self. split; [done|].
      destruct (last stk) as [p|] eqn:Hp.
      2:{ apply last_None in Hp. subst stk. inversion Hs. }
      apply list_elem_of_lookup in Hs as [i Hi].
      eapply tc_rtc_l; [eapply stack_path_to_last; eauto using inv_path|].
      apply tc_once. by apply Hlast.
    + split; [done|]. split; [done|]. split; [done|]. split; [done|]. done.
Qed.

End CycleCheck.

Section ImpliedEdges.

Variable w : Worker.
Hypothesis Hclosed : heap_closed w.

(** The follow-on edge of [a] to [y] implies an edge from [d] to [y] when
    [d] is a child of [a] or a descendant of one. *)
Definition implied_from (a d y : TargetRef) : Prop :=
  exists t c, targets w !! a = Some t /\ y ∈ _followOns t /\
              c ∈ _children t /\ rtc (edge w) c d.

Lemma add_implied_loop (fo : list TargetRef) (l : list TargetRef) :
  forall M : gmap TargetRef (list TargetRef),
    NoDup l -> (forall d, d ∈ l -> is_Some (M !! d)) ->
    exists M',
      forM l (add_implied fo) M = Ok M' /\ dom M' = dom M /\
      forall d, M' !! d = if decide (d ∈ l) then (fun es => es ++ fo) <$> M !! d
                          else M !! d.
Proof.
  induction l as [|d0 l IH]; intros M Hnd Hl; cbn [forM].
  - exists M. split; [done|]. split; [done|]. intros d. rewrite decide_False; [done|].
    intros H. inversion H.
  - destruct (Hl d0 (list_elem_of_here _ _)) as [es Hes].
    assert (add_implied fo d0 M = Ok (<[d0 := es ++ fo]> M)) as ->
      by (unfold add_implied; by rewrite Hes).
    simpl.
    apply NoDup_cons in Hnd as [Hd0 Hnd].
    destruct (IH (<[d0 := es ++ fo]> M) Hnd) as (M' & HM' & Hdom & Hlook).
    { intros d Hd. destruct (decide (d = d0)) as [->|Hne].
      - rewrite lookup_insert_eq. eauto.
      - rewrite lookup_insert_ne by done. apply Hl. by right. }
    exists M'. split; [done|]. split.
    + rewrite Hdom, dom_insert_L. apply elem_of_dom_2 in Hes. set_solver.
    + intros d. rewrite Hlook. destruct (decide (d = d0)) as [->|Hne].
      * rewrite decide_False by done. rewrite decide_True by left.
        by rewrite lookup_insert_eq, Hes.
      * rewrite lookup_insert_ne by done.
        destruct (decide (d ∈ l)) as [Hin|Hin].
        -- rewrite decide_True; [done|]. by right.
        -- rewrite decide_False; [done|]. intros [->|?]%elem_of_cons; done.
Qed.

Lemma implied_by_spec (fuel : nat) (a : TargetRef) (M : gmap TargetRef (list TargetRef)) :
  (size (targets w) < fuel)%nat -> is_Some (targets w !! a) ->
  (forall x, edge w a x -> x ∈ dom M) ->
  (forall x y, x ∈ dom M -> edge w x y -> y ∈ dom M) ->
  exists M',
    implied_by fuel w a M = Ok M' /\ dom M' = dom M /\
    forall d y, y ∈ default [] (M' !! d) <->
                y ∈ default [] (M !! d) \/ implied_from a d y.
Proof.
  intros Hfuel [t Ht] Ha HM. unfold implied_by, get_target. rewrite Ht. simpl.
  destruct (0 <? length (_followOns t))%nat eqn:Hfo.
  - assert (Hun : (unvisited w ∅ < fuel)%nat).
    { unfold unvisited. rewrite difference_empty_L, size_dom. done. }
    destruct (dfs_loop w Hclosed fuel (dfs_spec w Hclosed fuel) (_children t) ∅)
      as (R & -> & Hin & Hpost); [|done|].
    { intros c Hc. apply (Hclosed a c). exists t. split; [done|].
      apply elem_of_app. by left. }
    pose proof (dfs_post_reachable w Hclosed (fun r => r ∈ _children t) R Hin Hpost) as HR.
    simpl.
    destruct (add_implied_loop (_followOns t) (elements R) M (NoDup_elements R))
      as (M' & -> & Hdom & Hlook).
    { intros d Hd. apply elem_of_elements, HR in Hd as (c & Hc & Hcd).
      apply elem_of_dom.
      assert (Hcm : c ∈ dom M).
      { apply Ha. exists t. split; [done|]. apply elem_of_app. by left. }
      clear Hc. induction Hcd as [|x y z Hxy Hyz IH]; [done|]. apply IH. eauto. }
    exists M'. split; [done|]. split; [done|]. intros d y. rewrite Hlook.
    destruct (decide (d ∈ elements R)) as [Hd|Hd].
    + apply elem_of_elements, HR in Hd as (c & Hc & Hcd).
      destruct (M !! d) as [es|] eqn:Hes; simpl.
      * rewrite elem_of_app. split; [|intros [?|(t' & c' & Ht' & Hy & _)]].
        -- intros [?|Hy]; [by left|]. right. by exists t, c.
        -- by left.
        -- right. congruence.
      * split; [intros Hy; inversion Hy|]. intros [Hy|(t' & c' & Ht' & Hy & _)].
        -- inversion Hy.
        -- exfalso.
           assert (d ∈ dom M) as Hdm; [|apply elem_of_dom in Hdm as [? ?]; congruence].
           assert (Hcm : c ∈ dom M).
           { apply Ha. exists t. split; [done|]. apply elem_of_app. by left. }
           clear Hc. induction Hcd as [|x y0 z Hxy Hyz IH]; [done|]. apply IH; eauto.
    + split; [by left|]. intros [?|(t' & c & Ht' & Hy & Hc & Hcd)]; [done|].
      exfalso. apply Hd. apply elem_of_elements, HR. exists c. split; [congruence|done].
  - exists M. split; [done|]. split; [done|]. intros d y. split; [by left|].
    intros [?|(t' & c & Ht' & Hy & _)]; [done|].
    assert (t' = t) as -> by congruence. apply Nat.ltb_ge in Hfo.
    destruct (_followOns t); [inversion Hy|simpl in Hfo; lia].
Qed.

Lemma implied_loop (fuel : nat) (l : list TargetRef) :
  (size (targets w) < fuel)%nat ->
  forall M : gmap TargetRef (list TargetRef),
    (forall a, a ∈ l -> is_Some (targets w !! a) /\ a ∈ dom M) ->
    (forall x y, x ∈ dom M -> edge w x y -> y ∈ dom M) ->
    exists M',
      forM l (implied_by fuel w) M = Ok M' /\ dom M' = dom M /\
      forall d y, y ∈ default [] (M' !! d) <->
                  y ∈ default [] (M !! d) \/ exists a, a ∈ l /\ implied_from a d y.
Proof.
  intros Hfuel. induction l as [|a l IH]; intros M Hl HM; cbn [forM].
  - exists M. split; [done|]. split; [done|]. intros d y. split; [by left|].
    intros [?|(a & Ha & _)]; [done|inversion Ha].
  - destruct (Hl a (list_elem_of_here _ _)) as [Hta Ham].
    destruct (implied_by_spec fuel a M Hfuel Hta) as (M1 & -> & Hdom1 & Hin1); [|done|].
    { intros x Hx. by apply (HM a x). }
    simpl. destruct (IH M1) as (M' & -> & Hdom & Hin).
    { intros a' Ha'. rewrite Hdom1. apply Hl. by right. }
    { by rewrite Hdom1. }
    exists M'. split; [done|]. split; [congruence|]. intros d y.
    rewrite Hin, Hin1. split.
    + intros [[?|?]|(a' & Ha' & ?)]; [by left| |].
      * right. exists a. split; [left|done].
      * right. exists a'. split; [by right|done].
    + intros [?|(a' & [->|Ha']%elem_of_cons & ?)]; [by left; left|by left; right|].
      right. eauto.
Qed.

Lemma _getImpliedEdges_spec (fuel : nat) (root : TargetRef) :
  (size (targets w) < fuel)%nat -> is_Some (targets w !! root) ->
  exists extraEdges,
    _getImpliedEdges fuel w root = Ok extraEdges /\
    (forall x, is_Some (extraEdges !! x) <-> rtc (edge w) root x) /\
    forall d y, y ∈ default [] (extraEdges !! d) <->
                exists a, rtc (edge w) root a /\ implied_from a d y.
Proof.
  intros Hfuel Hroot. unfold _getImpliedEdges.
  assert (Hun : (unvisited w ∅ < fuel)%nat).
  { unfold unvisited. rewrite difference_empty_L, size_dom. done. }
  destruct (dfs_spec w Hclosed fuel root ∅ Hroot Hun) as (nodes & -> & Hin & Hpost).
  pose proof (dfs_post_reachable w Hclosed (eq root) nodes (fun r Hr => ltac:(by subst)) Hpost)
    as Hnodes.
  assert (Hreach : forall x, x ∈ nodes <-> rtc (edge w) root x).
  { intros x. rewrite Hnodes. split; [by intros (r & <- & ?)|eauto]. }
  simpl.
  destruct (implied_loop fuel (elements nodes) Hfuel (gset_to_gmap [] nodes))
    as (M' & -> & Hdom & Hspec).
  { intros a Ha. apply elem_of_elements in Ha. rewrite dom_gset_to_gmap. split; [|done].
    apply Hreach in Ha. clear -Ha Hroot Hclosed.
    induction Ha as [|x y z Hxy Hyz IH]; [done|]. apply IH. by apply (Hclosed x y). }
  { intros x y. rewrite dom_gset_to_gmap, !Hreach. intros Hx Hxy.
    eapply rtc_r; eauto. }
  exists M'. split; [done|]. split.
  - intros x. rewrite <- elem_of_dom, Hdom, dom_gset_to_gmap. apply Hreach.
  - intros d y. rewrite Hspec. split.
    + intros [Hy|(a & Ha & Himp)].
      * rewrite lookup_gset_to_gmap in Hy. destruct (guard (d ∈ nodes)); inversion Hy.
      * exists a. split; [|done]. by apply Hreach, elem_of_elements.
    + intros (a & Ha & Himp). right. exists a. split; [|done].
      by apply elem_of_elements, Hreach.
Qed.

End ImpliedEdges.

(** The augmented graph of [checkTargetGraphAcylic]: the child and follow-on
    edges, and the edges implied by the follow-on edges of the targets
    reachable from the root. *)
Definition augmented (w : Worker) (root x y : TargetRef) : Prop :=
  edge w x y \/ exists a, rtc (edge w) root a /\ implied_from w a x y.

Lemma reachable_in_heap w root x :
  heap_closed w -> is_Some (targets w !! root) -> rtc (edge w) root x ->
  is_Some (targets w !! x).
Proof.
  intros Hc Hr Hx. induction Hx as [|a b c Hab Hbc IH]; [done|].
  apply IH. by apply (Hc a b).
Qed.

Section Augmented.

Variable w : Worker.
Variable root : TargetRef.
Variable extraEdges : gmap TargetRef (list TargetRef).
Hypothesis Hclosed : heap_closed w.
Hypothesis Hroot : is_Some (targets w !! root).
Hypothesis Hkeys : forall x, is_Some (extraEdges !! x) <-> rtc (edge w) root x.
Hypothesis Hmem :
  forall d y, y ∈ default [] (extraEdges !! d) <->
              exists a, rtc (edge w) root a /\ implied_from w a d y.

Lemma aug_edge_augmented x y :
  aug_edge w extraEdges x y -> augmented w root x y /\ rtc (edge w) root y.
Proof.
  intros (t & es & Ht & Hes & Hy).
  assert (Hx : rtc (edge w) root x) by (apply Hkeys; eauto).
  rewrite app_assoc in Hy. apply elem_of_app in Hy as [Hy|Hy].
  - assert (edge w x y) by (by exists t). split; [by left|]. by eapply rtc_r.
  - assert (Himp : y ∈ default [] (extraEdges !! x)) by (by rewrite Hes).
    apply Hmem in Himp as (a & Ha & Himp). split; [right; eauto|].
    destruct Himp as (ta & c & Hta & Hfo & _). eapply rtc_r; [exact Ha|].
    exists ta. split; [done|]. apply elem_of_app. by right.
Qed.

Lemma augmented_aug_edge x y :
  rtc (edge w) root x -> augmented w root x y ->
  aug_edge w extraEdges x y /\ rtc (edge w) root y.
Proof.
  intros Hx Hxy.
  destruct (reachable_in_heap w root x Hclosed Hroot Hx) as [t Ht].
  destruct (proj2 (Hkeys x) Hx) as [es Hes].
  destruct Hxy as [(t' & Ht' & Hy)|(a & Ha & Himp)].
  - assert (t' = t) as -> by congruence. split.
    + exists t, es. split; [done|]. split; [done|]. rewrite app_assoc.
      apply elem_of_app. by left.
    + eapply rtc_r; [exact Hx|]. by exists t.
  - split.
    + exists t, es. split; [done|]. split; [done|]. rewrite app_assoc.
      apply elem_of_app. right.
      assert (Hy : y ∈ default [] (extraEdges !! x)) by (apply Hmem; eauto).
      by rewrite Hes in Hy.
    + destruct Himp as (ta & c & Hta & Hfo & _). eapply rtc_r; [exact Ha|].
      exists ta. split; [done|]. apply elem_of_app. by right.
Qed.

Lemma rtc_aug_edge_reachable x : rtc (aug_edge w extraEdges) root x -> rtc (edge w) root x.
Proof.
  revert x. apply rtc_ind_r; [apply rtc_refl|].
  intros y z _ Hyz _. by apply aug_edge_augmented in Hyz as [_ ?].
Qed.

Lemma reachable_rtc_aug_edge x : rtc (edge w) root x -> rtc (aug_edge w extraEdges) root x.
Proof.
  revert x. apply rtc_ind_r; [apply rtc_refl|].
  intros y z Hy Hyz IH. eapply rtc_r; [exact IH|].
  apply augmented_aug_edge; [done|by left].
Qed.

Lemma tc_aug_edge_augmented x z :
  tc (aug_edge w extraEdges) x z -> tc (augmented w root) x z.
Proof.
  intros H. induction H as [x y Hxy|x y z Hxy Hyz IH].
  - apply tc_once. by apply aug_edge_augmented in Hxy as [? _].
  - eapply tc_l; [|exact IH]. by apply aug_edge_augmented in Hxy as [? _].
Qed.

Lemma tc_augmented_aug_edge x z :
  rtc (edge w) root x -> tc (augmented w root) x z -> tc (aug_edge w extraEdges) x z.
Proof.
  intros Hx H. induction H as [x y Hxy|x y z Hxy Hyz IH].
  - apply tc_once. by apply augmented_aug_edge in Hxy as [? _].
  - apply augmented_aug_edge in Hxy as [Hxy Hy]; [|done].
    eapply tc_l; [exact Hxy|]. by apply IH.
Qed.

End Augmented.

Lemma heap_closedb_ok w : heap_closedb w = true -> heap_closed w.
Proof.
  intros H x y (t & Ht & Hy). unfold heap_closedb in H.
  rewrite forallb_forall in H. specialize (H (x, t)). simpl in H.
  rewrite forallb_forall in H.
  eapply bool_decide_eq_true_1, H.
  - apply list_elem_of_In, elem_of_map_to_list. done.
  - by apply list_elem_of_In.
Qed.

(** X9.  [_dfs] returns when it has more fuel than there are targets.  It
    keeps what was in [visited] and adds only targets reachable from the one
    it starts at; started on the empty set, the result is the set of the
    targets reachable from it over child and follow-on edges. *)
Theorem _dfs_adds_the_reachable_targets
    (fuel : nat) (w : Worker) (self : TargetRef) (visited : gset TargetRef) :
  heap_closed w -> is_Some (targets w !! self) -> (size (targets w) < fuel)%nat ->
  exists V,
    _dfs fuel w self visited = Ok V /\
    visited ⊆ V /\ self ∈ V /\
    (forall x, x ∈ V -> x ∈ visited \/ rtc (edge w) self x) /\
    (visited = ∅ -> forall x, x ∈ V <-> rtc (edge w) self x).
Proof.
  intros Hclosed Hself Hfuel.
  assert (Hun : (unvisited w visited < fuel)%nat).
  { pose proof (unvisited_mono w ∅ visited (ltac:(set_solver))) as Hle.
    unfold unvisited at 2 in Hle. rewrite difference_empty_L, size_dom in Hle. lia. }
  destruct (dfs_spec w Hclosed fuel self visited Hself Hun) as (V & HV & Hin & Hpost).
  exists V. split; [done|]. split; [apply (dfs_grows _ _ _ _ Hpost)|]. split; [done|].
  split.
  - intros x Hx. destruct (decide (x ∈ visited)) as [?|Hn]; [by left|]. right.
    by destruct (dfs_reached _ _ _ _ Hpost x Hx Hn) as (r & <- & ?).
  - intros -> x.
    rewrite (dfs_post_reachable w Hclosed (eq self) V (fun r Hr => ltac:(by subst)) Hpost).
    split; [by intros (r & <- & ?)|eauto].
Qed.

Lemma _dfs_adds_the_reachable_targets_witness :
  exists V,
    _dfs 4 example_fork 0 ∅ = Ok V /\
    ∅ ⊆ V /\ 0%nat ∈ V /\
    (forall x, x ∈ V -> x ∈ (∅ : gset nat) \/ rtc (edge example_fork) 0%nat x) /\
    ((∅ : gset nat) = ∅ -> forall x, x ∈ V <-> rtc (edge example_fork) 0%nat x).
Proof.
  apply (_dfs_adds_the_reachable_targets 4 example_fork 0 ∅).
  - apply heap_closedb_ok. vm_compute. reflexivity.
  - vm_compute. eauto.
  - vm_compute. lia.
Defined.

(** X10.  [_getImpliedEdges] returns (it never raises [KeyError]) a
    dictionary whose keys are the targets reachable from the root, and that
    gives a target [d] the follow-ons of every reachable target that has [d]
    as a child or as a descendant of a child, and nothing else. *)
Theorem _getImpliedEdges_adds_implied_edges (fuel : nat) (w : Worker) (root : TargetRef) :
  heap_closed w -> is_Some (targets w !! root) -> (size (targets w) < fuel)%nat ->
  exists extraEdges,
    _getImpliedEdges fuel w root = Ok extraEdges /\
    (forall x, is_Some (extraEdges !! x) <-> rtc (edge w) root x) /\
    forall d y, y ∈ default [] (extraEdges !! d) <->
                exists a, rtc (edge w) root a /\ implied_from w a d y.
Proof. intros Hclosed Hroot Hfuel. by apply _getImpliedEdges_spec. Qed.

Lemma _getImpliedEdges_adds_implied_edges_witness :
  exists extraEdges,
    _getImpliedEdges 4 example_fork 0 = Ok extraEdges /\
    (forall x, is_Some (extraEdges !! x) <-> rtc (edge example_fork) 0%nat x) /\
    forall d y, y ∈ default [] (extraEdges !! d) <->
                exists a, rtc (edge example_fork) 0%nat a /\ implied_from example_fork a d y.
Proof.
  apply (_getImpliedEdges_adds_implied_edges 4 example_fork 0).
  - apply heap_closedb_ok. vm_compute. reflexivity.
  - vm_compute. eauto.
  - vm_compute. lia.
Defined.

(** In the heap with target 1 a child and target 2 a follow-on of target 0,
    the one implied edge goes from 1 to 2. *)
Example example_implied_edges :
  _getImpliedEdges 4 example_fork 0 = Ok {[0%nat := []; 1%nat := [2%nat]; 2%nat := []]}.
Proof. vm_compute. reflexivity. Qed.

(** X11.  [checkTargetGraphAcylic] decides whether the augmented graph has
    a cycle through a target reachable from the root: it returns when there
    is none and raises the [RuntimeError] of a detected cycle when there is
    one; it raises nothing else, and it ends when it has more fuel than there
    are targets. *)
Theorem checkTargetGraphAcylic_detects_cycles (fuel : nat) (w : Worker) (root : TargetRef) :
  heap_closed w -> is_Some (targets w !! root) -> (size (targets w) < fuel)%nat ->
  match checkTargetGraphAcylic fuel w root with
  | Ok _ => forall x, rtc (edge w) root x -> ~ tc (augmented w root) x x
  | Raise e =>
      e = cycle_detected /\
      exists x, rtc (edge w) root x /\ tc (augmented w root) x x
  | OutOfFuel => False
  end.
Proof.
  intros Hclosed Hroot Hfuel. unfold checkTargetGraphAcylic.
  destruct (_getImpliedEdges_spec w Hclosed fuel root Hfuel Hroot)
    as (extraEdges & -> & Hkeys & Hmem).
  simpl.
  assert (Haug_closed : forall x y, aug_edge w extraEdges x y -> is_Some (targets w !! y)).
  { intros x y Hxy.
    apply (aug_edge_augmented w root extraEdges Hkeys Hmem) in Hxy as [_ Hy].
    by eapply reachable_in_heap. }
  assert (Hextra : forall x, rtc (aug_edge w extraEdges) root x -> is_Some (extraEdges !! x)).
  { intros x Hx. apply Hkeys. by eapply rtc_aug_edge_reachable. }
  assert (Hun : (unvisited w ∅ < fuel)%nat).
  { unfold unvisited. rewrite difference_empty_L, size_dom. done. }
  assert (Hinv : check_inv w extraEdges [] ∅).
  { split.
    - intros x Hx. inversion Hx.
    - intros x y Hx. set_solver.
    - intros x Hx. set_solver.
    - intros i x y Hx. done. }
  pose proof (check_spec w extraEdges root Haug_closed Hextra fuel root [] ∅ Hinv Hroot
                (fun p Hp => ltac:(done)) (rtc_refl _ _) Hun) as Hpost.
  destruct (_checkTargetGraphAcylicDFS fuel w extraEdges root ([], ∅))
    as [[stk V]|e|]; simpl in *; [| |done].
  - destruct Hpost as (-> & _ & HrootV & _ & Hinv').
    intros x Hx Hcyc.
    apply (reachable_rtc_aug_edge w root extraEdges Hclosed Hroot Hkeys Hmem) in Hx as Hx'.
    destruct (check_inv_rtc w extraEdges [] V root x Hinv' HrootV
                (ltac:(intros H; inversion H)) Hx') as [HxV Hxn].
    apply (inv_acyclic _ _ _ _ Hinv' x HxV Hxn).
    by apply (tc_augmented_aug_edge w root extraEdges Hclosed Hroot Hkeys Hmem).
  - destruct Hpost as (-> & x & Hx & Hcyc). split; [done|]. exists x. split.
    + by eapply rtc_aug_edge_reachable.
    + by eapply tc_aug_edge_augmented.
Qed.

Lemma checkTargetGraphAcylic_detects_cycles_witness :
  match checkTargetGraphAcylic 4 example_fork 0 with
  | Ok _ => forall x, rtc (edge example_fork) 0%nat x -> ~ tc (augmented example_fork 0%nat) x x
  | Raise e =>
      e = cycle_detected /\
      exists x, rtc (edge example_fork) 0%nat x /\ tc (augmented example_fork 0%nat) x x
  | OutOfFuel => False
  end.
Proof.
  apply (checkTargetGraphAcylic_detects_cycles 4 example_fork 0).
  - apply heap_closedb_ok. vm_compute. reflexivity.
  - vm_compute. eauto.
  - vm_compute. lia.
Defined.

(** The check on the two heaps: no cycle with a child and a follow-on; a
    cycle when two targets are each a child of the other. *)
Example example_cycle_check :
  checkTargetGraphAcylic 4 example_fork 0 = Ok tt /\
  checkTargetGraphAcylic 3 example_cycle 0 = Raise cycle_detected.
Proof. split; vm_compute; reflexivity. Qed.

(** ** The leader: the batcher *)

Lemma issueJobs_cons i m c d jobs l :
  issueJobs ((i, m, c, d) :: jobs) l = issueJobs jobs (issueJob i m c d l).
Proof. done. Qed.

Lemma issueJobs_below (jobs : list (Atom * Atom * Atom * Atom)) :
  forall l b, b < nextJobID (batchSystem l) ->
    jobBatchSystemIDToJobStoreIDHash (issueJobs jobs l) !! b
      = jobBatchSystemIDToJobStoreIDHash l !! b.
Proof.
  induction jobs as [|[[[i m] c] d] jobs IH]; intros l b Hb; [done|].
  rewrite issueJobs_cons, IH by (simpl; lia). unfold issueJob. simpl.
  apply lookup_insert_ne. lia.
Qed.

(** X12.  [issueJobs] hands each job of the list to the batch system, in
    order, under a batch system id of its own, and files its job store id
    under that id; the counter grows by the length of the list, the ids
    issued before are as they were, and [getNumberOfJobsIssued] then returns
    the number of ids on file. *)
Theorem issueJobs_issues_each_job_once
    (jobs : list (Atom * Atom * Atom * Atom)) (l : Leader) :
  let l' := issueJobs jobs l in
  let n0 := nextJobID (batchSystem l) in
  jobsIssued l' = jobsIssued l + Z.of_nat (length jobs) /\
  nextJobID (batchSystem l') = n0 + Z.of_nat (length jobs) /\
  issued (batchSystem l') =
    issued (batchSystem l)
      ++ imap (fun k '(i, m, c, d) => (n0 + Z.of_nat k, i, m, c, d)) jobs /\
  (forall k i m c d,
     jobs !! k = Some (i, m, c, d) -> getJob l' (n0 + Z.of_nat k) = Ok i) /\
  (forall b, b < n0 -> getJob l' b = getJob l b) /\
  store l' = store l /\ updatedJobs l' = updatedJobs l /\
  (batcher_ok l ->
   batcher_ok l' /\
   getNumberOfJobsIssued l' =
     Ok (Z.of_nat (size (jobBatchSystemIDToJobStoreIDHash l'))) /\
   size (jobBatchSystemIDToJobStoreIDHash l') =
     (size (jobBatchSystemIDToJobStoreIDHash l) + length jobs)%nat).
Proof.
  revert l. induction jobs as [|[[[i m] c] d] jobs IH]; intros l; cbv zeta.
  - simpl. rewrite !Z.add_0_r, app_nil_r.
    split; [done|]. split; [done|]. split; [done|].
    split; [intros k i m c d Hk; done|].
    split; [done|]. split; [done|]. split; [done|].
    intros Hok. split; [done|]. split; [|lia].
    rewrite getNumberOfJobsIssued_ok by done. by rewrite (issued_counted _ Hok).
  - rewrite issueJobs_cons.
    specialize (IH (issueJob i m c d l)). cbv zeta in IH.
    destruct IH as (H1 & H2 & H3 & H4 & H5 & H6 & H7 & H8).
    split; [rewrite H1; simpl; lia|]. split; [rewrite H2; simpl; lia|].
    split; [|split; [|split; [|split; [|split]]]].
    + rewrite H3. simpl. rewrite <- app_assoc. simpl. rewrite Z.add_0_r.
      do 2 f_equal. apply imap_ext. intros k [[[i' m'] c'] d'] _. simpl.
      do 4 f_equal. lia.
    + intros [|k] i' m' c' d' Hk.
      * injection Hk as -> -> -> ->. rewrite Z.add_0_r.
        rewrite H5 by (simpl; lia). unfold getJob, issueJob. simpl.
        by rewrite lookup_insert_eq.
      * simpl in Hk. specialize (H4 k i' m' c' d' Hk). simpl in H4.
        rewrite <- H4. f_equal. lia.
    + intros b Hb. rewrite H5 by (simpl; lia). unfold getJob, issueJob. simpl.
      rewrite lookup_insert_ne by lia. done.
    + by rewrite H6.
    + by rewrite H7.
    + intros Hok. destruct (issueJob_quiet i m c d l) as [_ Hq].
      specialize (Hq Hok). destruct (H8 Hq) as (Hok' & Hn & Hsize).
      split; [done|]. split; [done|]. rewrite Hsize. unfold issueJob. simpl.
      rewrite map_size_insert_None; [lia|].
      destruct (jobBatchSystemIDToJobStoreIDHash l !! nextJobID (batchSystem l)) eqn:E;
        [|done].
      pose proof (issued_below_next _ Hok _ (ltac:(eauto))). lia.
Qed.

(** X13.  [removeJobID] of an id on file returns the job store id that was
    issued under it, takes the id off the file and the counter down by one,
    and leaves the other ids alone; a second [removeJobID] of the id, like
    one of an id that was never on file, fails the assertion.  An id just
    issued is removed again with the batcher as it was before. *)
Theorem removeJobID_takes_the_id_off (b : Z) (l : Leader) :
  match removeJobID b l with
  | Ok (i, l') =>
      getJob l b = Ok i /\ hasJob l' b = false /\
      jobsIssued l' = jobsIssued l - 1 /\
      (forall k, k <> b -> getJob l' k = getJob l k) /\
      removeJobID b l' = Raise AssertionError /\
      (batcher_ok l -> batcher_ok l')
  | Raise e => e = AssertionError /\ hasJob l b = false
  | OutOfFuel => False
  end /\
  (batcher_ok l ->
   forall i m c d,
     exists l',
       removeJobID (nextJobID (batchSystem l)) (issueJob i m c d l) = Ok (i, l') /\
       jobBatchSystemIDToJobStoreIDHash l' = jobBatchSystemIDToJobStoreIDHash l /\
       jobsIssued l' = jobsIssued l).
Proof.
  split.
  - unfold removeJobID, getJob, hasJob.
    destruct (jobBatchSystemIDToJobStoreIDHash l !! b) as [i|] eqn:Eb; simpl.
    + rewrite lookup_delete_eq. split; [done|].
      split; [apply bool_decide_eq_false; by intros [? ?]|]. split; [done|].
      split; [intros k Hk; by rewrite lookup_delete_ne|]. split; [done|].
      intros [Hc Hb]. split; simpl.
      * rewrite map_size_delete_Some, Hc by eauto.
        assert (size (jobBatchSystemIDToJobStoreIDHash l) <> 0%nat).
        { apply map_size_ne_0_lookup. eauto. }
        lia.
      * intros k [a Hk]. destruct (decide (k = b)) as [->|Hne].
        -- by rewrite lookup_delete_eq in Hk.
        -- rewrite lookup_delete_ne in Hk by done. apply Hb. eauto.
    + split; [done|]. first [done|apply bool_decide_eq_false; by intros [? ?]].
  - intros [Hc Hb] i m c d. unfold removeJobID, issueJob. simpl.
    rewrite lookup_insert_eq. eexists. split; [reflexivity|]. simpl.
    split; [|lia]. apply delete_insert_id.
    destruct (jobBatchSystemIDToJobStoreIDHash l !! nextJobID (batchSystem l)) eqn:E;
      [|done].
    specialize (Hb _ (ltac:(eauto))). lia.
Qed.

(** ** The leader: successors that finish *)

Lemma _updatePredecessorStatus_single a p l :
  successorJobStoreIDToPredecessorJobs l !! a = Some [p] ->
  _updatePredecessorStatus a l =
    decrement_predecessor p
      (with_predecessorJobs
         (base.delete a (successorJobStoreIDToPredecessorJobs l)) l).
Proof.
  intros H. unfold _updatePredecessorStatus. rewrite H. cbn [forM].
  by destruct (decrement_predecessor _ _).
Qed.

Lemma decrement_predecessor_counted p n l :
  successorCounts l !! p = Some n -> 1 <= n ->
  decrement_predecessor p l =
    if n - 1 =? 0 then
      if bool_decide (p ∉ updatedJobs l) then
        Ok (with_updatedJobs (updatedJobs l ++ [p])
              (with_successorCounts (base.delete p (successorCounts l)) l))
      else Raise AssertionError
    else Ok (with_successorCounts (<[p := n - 1]> (successorCounts l)) l).
Proof.
  intros H Hn. unfold decrement_predecessor. rewrite H.
  replace (0 <=? n - 1) with true by (symmetry; apply Z.leb_le; lia). simpl.
  destruct (n - 1 =? 0); [|done]. by case_bool_decide.
Qed.

Lemma successors_finish_loop (p : nat) (finished : list Atom) :
  forall (rest : list Atom) (l : Leader),
    NoDup (finished ++ rest) -> finished ++ rest <> [] ->
    (forall a, a ∈ finished ++ rest ->
       successorJobStoreIDToPredecessorJobs l !! a = Some [p]) ->
    successorCounts l !! p = Some (Z.of_nat (length (finished ++ rest))) ->
    p ∉ updatedJobs l ->
    exists l',
      forM finished _updatePredecessorStatus l = Ok l' /\
      (forall a, a ∈ finished \/ successorJobStoreIDToPredecessorJobs l !! a = None ->
         successorJobStoreIDToPredecessorJobs l' !! a = None) /\
      if decide (rest = [])
      then updatedJobs l' = updatedJobs l ++ [p] /\ successorCounts l' !! p = None
      else updatedJobs l' = updatedJobs l /\
           successorCounts l' !! p = Some (Z.of_nat (length rest)).
Proof.
  induction finished as [|a finished IH]; intros rest l Hnd Hne Hmap Hcount Hp.
  - exists l. split; [done|]. split; [intros a [Ha|Ha]; [inversion Ha|done]|].
    simpl in *. rewrite decide_False by done. done.
  - cbn [forM]. rewrite (_updatePredecessorStatus_single a p l) by (apply Hmap; left).
    rewrite (decrement_predecessor_counted p _ (with_predecessorJobs _ l) Hcount)
      by (simpl; lia).
    cbn [updatedJobs successorCounts with_predecessorJobs].
    cbn [app length] in *. apply NoDup_cons in Hnd as [Ha Hnd].
    destruct (Z.of_nat (S (length (finished ++ rest))) - 1 =? 0) eqn:Ez.
    + apply Z.eqb_eq in Ez.
      assert (finished ++ rest = []) as Hnil by (destruct (finished ++ rest); [done|simpl in Ez; lia]).
      apply app_eq_nil in Hnil as [-> ->].
      rewrite bool_decide_true by done. simpl. eexists. split; [reflexivity|].
      simpl. split.
      * intros x [Hx|Hx].
        -- apply list_elem_of_singleton in Hx as ->. apply lookup_delete_eq.
        -- destruct (decide (x = a)) as [->|Hxa]; [apply lookup_delete_eq|].
           by rewrite lookup_delete_ne.
      * split; [done|]. apply lookup_delete_eq.
    + apply Z.eqb_neq in Ez.
      set (l1 := with_successorCounts _ _).
      destruct (IH rest l1) as (l' & Hrun & Hgone & Hrest); try done.
      * intros Hnil. rewrite Hnil in Ez. simpl in Ez. lia.
      * intros x Hx. unfold l1. simpl. rewrite lookup_delete_ne.
        -- apply Hmap. by right.
        -- intros <-. done.
      * unfold l1. simpl. rewrite lookup_insert_eq. f_equal. lia.
      * simpl. exists l'. split; [done|]. split; [|done].
        intros x Hx. apply Hgone.
        destruct Hx as [[->|Hx]%elem_of_cons|Hx]; [right|by left|right]; unfold l1; simpl.
        -- apply lookup_delete_eq.
        -- destruct (decide (x = a)) as [->|Hxa]; [apply lookup_delete_eq|].
           by rewrite lookup_delete_ne.
Qed.

(** X14.  A job that waits for the successors of a phase becomes ready when
    the last of them has finished, and not before: as the successors are
    reported finished one after the other, the count of the job goes down by
    one each time; with the last one the job is added to the updated jobs
    and its count is dropped. *)
Theorem predecessor_ready_after_its_last_successor
    (l : Leader) (p : nat) (sids : list Atom) :
  NoDup sids -> sids <> [] ->
  (forall a, a ∈ sids -> successorJobStoreIDToPredecessorJobs l !! a = Some [p]) ->
  successorCounts l !! p = Some (Z.of_nat (length sids)) ->
  p ∉ updatedJobs l ->
  forall finished rest,
    sids = finished ++ rest ->
    exists l',
      forM finished _updatePredecessorStatus l = Ok l' /\
      (forall a, a ∈ finished -> successorJobStoreIDToPredecessorJobs l' !! a = None) /\
      if decide (rest = [])
      then updatedJobs l' = updatedJobs l ++ [p] /\ successorCounts l' !! p = None
      else updatedJobs l' = updatedJobs l /\
           successorCounts l' !! p = Some (Z.of_nat (length rest)).
Proof.
  intros Hnd Hne Hmap Hcount Hp finished rest ->.
  destruct (successors_finish_loop p finished rest l Hnd Hne Hmap Hcount Hp)
    as (l' & Hrun & Hgone & Hrest).
  exists l'. split; [done|]. split; [|done]. intros a Ha. apply Hgone. by left.
Qed.

Lemma predecessor_ready_after_its_last_successor_witness :
  exists l',
    forM [PStr "S1"; PStr "S2"] _updatePredecessorStatus example_waiting = Ok l' /\
    updatedJobs l' = updatedJobs example_waiting ++ [0%nat] /\
    successorCounts l' !! 0%nat = None.
Proof.
  destruct (predecessor_ready_after_its_last_successor example_waiting 0%nat
              [PStr "S1"; PStr "S2"]) with (finished := [PStr "S1"; PStr "S2"])
                                           (rest := @nil Atom)
    as (l' & Hrun & _ & Hready).
  - apply NoDup_cons. split; [|apply NoDup_singleton].
    rewrite list_elem_of_singleton. discriminate.
  - discriminate.
  - intros a Ha. repeat (apply elem_of_cons in Ha as [->|Ha]); [reflexivity..|].
    inversion Ha.
  - reflexivity.
  - intros Hin. inversion Hin.
  - reflexivity.
  - exists l'. split; [exact Hrun|]. rewrite decide_True in Hready by reflexivity.
    exact Hready.
Defined.

(** ** The leader: jobs missing from the batch system *)

Lemma lookup_fold_delete {A} (ids : list Z) :
  forall (M : gmap Z A) i,
    fold_left (fun m k => base.delete k m) ids M !! i =
      if decide (i ∈ ids) then None else M !! i.
Proof.
  induction ids as [|k ids IH]; intros M i; cbn [fold_left].
  - rewrite decide_False; [done|]. intros H. inversion H.
  - rewrite IH. destruct (decide (i ∈ ids)) as [Hin|Hin].
    + rewrite decide_True; [done|]. by right.
    + destruct (decide (i = k)) as [->|Hne].
      * rewrite decide_True by left. apply lookup_delete_eq.
      * rewrite decide_False by (intros [->|?]%elem_of_cons; done).
        by rewrite lookup_delete_ne.
Qed.

Lemma filter_ext_elem_of {A} (P1 P2 : A -> Prop)
    `{!forall x, Decision (P1 x), !forall x, Decision (P2 x)} (l : list A) :
  (forall x, x ∈ l -> P1 x <-> P2 x) -> filter P1 l = filter P2 l.
Proof.
  induction l as [|a l IH]; intros Hext; [done|].
  assert (filter P1 l = filter P2 l) as Hl.
  { apply IH. intros x Hx. apply Hext. by right. }
  assert (Ha12 : P1 a <-> P2 a) by (apply Hext; left).
  destruct (decide (P1 a)) as [Ha|Ha].
  - rewrite !filter_cons_True by tauto. by rewrite Hl.
  - rewrite !filter_cons_False by tauto. done.
Qed.

(** How often a job has been found missing, this time included. *)
Definition misses (M : gmap Z Z) (i : Z) : Z :=
  match M !! i with
  | Some n => n + 1
  | None => 1
  end.

(** The body of the loop over the missing jobs. *)
Definition missing_body (killAfterNTimesMissing : Z) (jobBatchSystemID : Z)
    (st : list Z * Leader) : Res (list Z * Leader) :=
  let '(jobsToKill, l) := st in
  _ ← getJob l jobBatchSystemID;
  let timesMissing :=
    match reissueMissingJobs_missingHash l !! jobBatchSystemID with
    | Some n => n + 1
    | None => 1
    end in
  if timesMissing =? killAfterNTimesMissing then
    Ok ((jobsToKill ++ [jobBatchSystemID])%list,
        with_missingHash
          (base.delete jobBatchSystemID (reissueMissingJobs_missingHash l)) l)
  else
    Ok (jobsToKill,
        with_missingHash
          (<[jobBatchSystemID := timesMissing]> (reissueMissingJobs_missingHash l)) l).

Lemma missing_loop (k : Z) (ids : list Z) :
  forall (jobsToKill : list Z) (l : Leader),
    NoDup ids ->
    (forall i, i ∈ ids -> is_Some (jobBatchSystemIDToJobStoreIDHash l !! i)) ->
    exists M',
      forM ids (missing_body k) (jobsToKill, l) =
        Ok (jobsToKill
              ++ filter (fun i => misses (reissueMissingJobs_missingHash l) i = k) ids,
            with_missingHash M' l) /\
      forall i,
        M' !! i =
          if decide (i ∈ ids) then
            if decide (misses (reissueMissingJobs_missingHash l) i = k) then None
            else Some (misses (reissueMissingJobs_missingHash l) i)
          else reissueMissingJobs_missingHash l !! i.
Proof.
  induction ids as [|i0 ids IH]; intros jobsToKill l Hnd Hin; cbn [forM].
  - exists (reissueMissingJobs_missingHash l). split.
    + rewrite filter_nil, app_nil_r. by destruct l.
    + intros i. rewrite decide_False; [done|]. intros H. inversion H.
  - apply NoDup_cons in Hnd as [Hi0 Hnd].
    destruct (Hin i0 (list_elem_of_here _ _)) as [a Ha].
    unfold missing_body at 2. unfold getJob. rewrite Ha. simpl.
    fold (misses (reissueMissingJobs_missingHash l) i0).
    assert (Hsame : forall M1 i, i ∈ ids ->
              (M1 = base.delete i0 (reissueMissingJobs_missingHash l) \/
               exists v, M1 = <[i0 := v]> (reissueMissingJobs_missingHash l)) ->
              misses M1 i = misses (reissueMissingJobs_missingHash l) i).
    { intros M1 i Hi HM1. assert (i <> i0) by (intros ->; done). unfold misses.
      destruct HM1 as [->|[v ->]].
      - by rewrite lookup_delete_ne.
      - by rewrite lookup_insert_ne. }
    destruct (misses (reissueMissingJobs_missingHash l) i0 =? k) eqn:Ek.
    + apply Z.eqb_eq in Ek.
      set (M1 := base.delete i0 (reissueMissingJobs_missingHash l)).
      destruct (IH (jobsToKill ++ [i0]) (with_missingHash M1 l) Hnd
                  (fun i Hi => Hin i (list_elem_of_further _ _ _ Hi)))
        as (M' & Hrun & HM').
      exists M'. split.
      * transitivity (forM ids (missing_body k) (jobsToKill ++ [i0], with_missingHash M1 l));
          [reflexivity|].
        rewrite Hrun. simpl. rewrite filter_cons_True by done.
        rewrite <- app_assoc. simpl.
        rewrite (filter_ext_elem_of (fun i => misses M1 i = k)
                   (fun i => misses (reissueMissingJobs_missingHash l) i = k) ids);
          [reflexivity|].
        intros i Hi. by rewrite (Hsame M1 i Hi (or_introl eq_refl)).
      * intros i. rewrite HM'. simpl.
        destruct (decide (i ∈ i0 :: ids)) as [Hmem|Hmem];
          destruct (decide (i ∈ ids)) as [Hi|Hi].
        -- by rewrite (Hsame M1 i Hi (or_introl eq_refl)).
        -- apply elem_of_cons in Hmem as [->|?]; [|done].
           destruct (decide (misses (reissueMissingJobs_missingHash l) i0 = k)); [|done].
           apply lookup_delete_eq.
        -- exfalso. apply Hmem. by right.
        -- unfold M1. rewrite lookup_delete_ne; [done|]. intros <-. apply Hmem. left.
    + apply Z.eqb_neq in Ek.
      set (M1 := <[i0 := misses (reissueMissingJobs_missingHash l) i0]>
                   (reissueMissingJobs_missingHash l)).
      destruct (IH jobsToKill (with_missingHash M1 l) Hnd
                  (fun i Hi => Hin i (list_elem_of_further _ _ _ Hi))) as (M' & Hrun & HM').
      exists M'. split.
      * transitivity (forM ids (missing_body k) (jobsToKill, with_missingHash M1 l));
          [reflexivity|].
        rewrite Hrun. simpl. rewrite filter_cons_False by done.
        rewrite (filter_ext_elem_of (fun i => misses M1 i = k)
                   (fun i => misses (reissueMissingJobs_missingHash l) i = k) ids);
          [reflexivity|].
        intros i Hi. by rewrite (Hsame M1 i Hi (or_intror (ex_intro _ _ eq_refl))).
      * intros i. rewrite HM'. simpl.
        destruct (decide (i ∈ i0 :: ids)) as [Hmem|Hmem];
          destruct (decide (i ∈ ids)) as [Hi|Hi].
        -- by rewrite (Hsame M1 i Hi (or_intror (ex_intro _ _ eq_refl))).
        -- apply elem_of_cons in Hmem as [->|?]; [|done].
           destruct (decide (misses (reissueMissingJobs_missingHash l) i0 = k)); [done|].
           apply lookup_insert_eq.
        -- exfalso. apply Hmem. by right.
        -- unfold M1. rewrite lookup_insert_ne; [done|]. intros <-. apply Hmem. left.
Qed.

Section MissingJobs.

Variable setupJobAfterFailure : Config -> BatchJob -> BatchJob.

Lemma processFinishedJob_missingHash i r l l' :
  processFinishedJob setupJobAfterFailure i r l = Ok l' ->
  reissueMissingJobs_missingHash l' = reissueMissingJobs_missingHash l.
Proof.
  unfold processFinishedJob, removeJobID. intros H.
  destruct (jobBatchSystemIDToJobStoreIDHash l !! i) as [a|]; [|done].
  simpl in H. inv_bind H. destruct x.
  - inv_bind H. unfold new_obj in H. simpl in H. inv_bind H. by injection H as <-.
  - unfold _updatePredecessorStatus in H. simpl in H.
    destruct (successorJobStoreIDToPredecessorJobs l !! a) as [ps|].
    + eapply (forM_invariant
                (fun x => reissueMissingJobs_missingHash x
                          = reissueMissingJobs_missingHash l)) in H; [done| |done].
      intros p s s' _ Hs E. unfold decrement_predecessor in E.
      destruct (successorCounts s !! p); [|done]. inv_bind E.
      destruct (_ =? 0).
      * inv_bind E. by injection E as <-.
      * by injection E as <-.
    + inv_bind H. inv_bind H. inv_bind H. by injection H as <-.
Qed.

Lemma jobs_removed_lookup (ids : list Z) :
  forall l l', jobs_removed ids l l' ->
    forall i, jobBatchSystemIDToJobStoreIDHash l' !! i =
                if decide (i ∈ ids) then None else jobBatchSystemIDToJobStoreIDHash l !! i.
Proof.
  induction ids as [|k ids IH]; intros l l' H i; simpl in H.
  - destruct H as [-> _]. rewrite decide_False; [done|]. intros Hi. inversion Hi.
  - destruct H as (l1 & (_ & Hh & _) & Hrest). rewrite (IH _ _ Hrest), Hh.
    destruct (decide (i ∈ ids)) as [Hin|Hin].
    + rewrite decide_True; [done|]. by right.
    + destruct (decide (i = k)) as [->|Hne].
      * rewrite decide_True by left. apply lookup_delete_eq.
      * rewrite decide_False by (intros [->|?]%elem_of_cons; done).
        by rewrite lookup_delete_ne.
Qed.

(** X15.  [reissueMissingJobs] returns only when every job that the batch
    system reports is on file with the batcher (the assertion).  A job is
    missing when it is on file and not reported; each such job is counted one
    more miss (the count is kept while the job is on file, whether the misses
    came in a row or not); the jobs that reach [killAfterNTimesMissing]
    misses are handed to [killBatchJobs], taken off the file and off the
    count, and the result tells whether no count is left. *)
Theorem missing_jobs_killed_after_n_misses
    (issuedBatchJobIDs : list Z) (k : Z) (l l' : Leader) (b : bool) :
  reissueMissingJobs setupJobAfterFailure issuedBatchJobIDs k l = Ok (b, l') ->
  let missing i := hasJob l i && bool_decide (i ∉ issuedBatchJobIDs) in
  let M := reissueMissingJobs_missingHash l in
  (forall i, i ∈ issuedBatchJobIDs -> hasJob l i = true) /\
  exists jobsToKill,
    NoDup jobsToKill /\
    (forall i, i ∈ jobsToKill <-> missing i = true /\ misses M i = k) /\
    killed (batchSystem l') = killed (batchSystem l) ++ jobsToKill /\
    (forall i, hasJob l' i = hasJob l i && bool_decide (i ∉ jobsToKill)) /\
    (forall i,
       reissueMissingJobs_missingHash l' !! i =
         if missing i then (if misses M i =? k then None else Some (misses M i))
         else if hasJob l i then M !! i else None) /\
    b = bool_decide (reissueMissingJobs_missingHash l' = ∅).
Proof.
  intros H missing M. unfold reissueMissingJobs in H. cbv zeta in H.
  set (B := list_to_set (getJobIDs l) : gset Z) in H.
  set (R := list_to_set issuedBatchJobIDs : gset Z) in H.
  set (M0 := fold_left (fun m i => base.delete i m) (elements (dom M ∖ B)) M) in H.
  assert (HB : forall i, i ∈ B <-> hasJob l i = true).
  { intros i. unfold B, getJobIDs, hasJob. rewrite elem_of_list_to_set, bool_decide_eq_true.
    rewrite list_elem_of_fmap. split.
    - intros ([k' a] & -> & Hk). apply elem_of_map_to_list in Hk. eauto.
    - intros [a Ha]. exists (i, a). split; [done|]. by apply elem_of_map_to_list. }
  assert (HM0 : forall i, M0 !! i = if hasJob l i then M !! i else None).
  { intros i. unfold M0. rewrite lookup_fold_delete.
    destruct (hasJob l i) eqn:Eh.
    - rewrite decide_False; [done|]. rewrite elem_of_elements, elem_of_difference.
      intros [_ Hn]. apply Hn, HB. done.
    - destruct (decide (i ∈ elements (dom M ∖ B))) as [Hd|Hd]; [done|].
      rewrite elem_of_elements, elem_of_difference in Hd.
      destruct (M !! i) eqn:Em; [|done]. exfalso. apply Hd. split.
      + apply elem_of_dom. eauto.
      + rewrite HB. congruence. }
  inv_bind H. unfold py_assert in Hx. case_bool_decide as Hsub; [|done]. clear Hx x.
  change (forM (elements (B ∖ R)) (missing_body k) ([], with_missingHash M0 l)
            ≫= (fun '(jobsToKill, l0) =>
                  killJobs setupJobAfterFailure jobsToKill l0 ≫= fun l1 =>
                  Ok (bool_decide (reissueMissingJobs_missingHash l1 = ∅), l1))
          = Ok (b, l')) in H.
  destruct (missing_loop k (elements (B ∖ R)) [] (with_missingHash M0 l)
              (NoDup_elements _)) as (M' & Hloop & HM').
  { intros i Hi. apply elem_of_elements, elem_of_difference in Hi as [Hi _].
    apply HB in Hi. unfold hasJob in Hi. by apply bool_decide_eq_true in Hi. }
  rewrite Hloop in H. simpl in H. inv_bind H. rename x into l1. injection H as <- <-.
  pose proof (killJobs_spec _ _ _ _ Hx) as (Hf & Hkilled & _ & Hremoved).
  assert (Hkeep : reissueMissingJobs_missingHash l1 = M').
  {
    eapply (forM_invariant (fun x => reissueMissingJobs_missingHash x = M')) in Hf;
      [done| |done].
    intros i s s' _ Hs E. apply processFinishedJob_missingHash in E. congruence. }
  assert (Hmiss : forall i, hasJob l i = true -> misses M0 i = misses M i).
  { intros i Hi. unfold misses. by rewrite HM0, Hi. }
  assert (Hmem : forall i, i ∈ elements (B ∖ R) <-> missing i = true).
  { intros i. unfold missing, R.
    rewrite elem_of_elements, elem_of_difference, HB, elem_of_list_to_set.
    rewrite andb_true_iff, bool_decide_eq_true. done. }
  split.
  { intros i Hi. apply HB, Hsub. unfold R. by apply elem_of_list_to_set. }
  exists (filter (fun i => misses M0 i = k) (elements (B ∖ R))).
  split; [|split; [|split; [|split; [|split]]]].
  - apply NoDup_filter, NoDup_elements.
  - intros i. simpl. rewrite list_elem_of_filter, Hmem. simpl. split.
    + intros [Hk Hi]. split; [done|]. rewrite <- Hmiss; [done|].
      unfold missing in Hi. by apply andb_true_iff in Hi as [? _].
    + intros [Hi Hk]. split; [|done]. rewrite Hmiss; [done|].
      unfold missing in Hi. by apply andb_true_iff in Hi as [? _].
  - rewrite Hkilled. done.
  - intros i. unfold hasJob at 1. rewrite (jobs_removed_lookup _ _ _ Hremoved). simpl.
    case_decide as Hd.
    + rewrite (bool_decide_false (i ∉ _)) by (intros Hn; by apply Hn).
      rewrite andb_false_r. apply bool_decide_eq_false. by intros [? ?].
    + rewrite (bool_decide_true (i ∉ _)) by done. by rewrite andb_true_r.
  - intros i. rewrite Hkeep, HM'. simpl.
    destruct (missing i) eqn:Emi.
    + rewrite decide_True by (by apply Hmem).
      assert (hasJob l i = true) as Hh by (unfold missing in Emi; by apply andb_true_iff in Emi as [? _]).
      rewrite (Hmiss i Hh). case_decide as Hd.
      * by rewrite (proj2 (Z.eqb_eq _ _) Hd).
      * by rewrite (proj2 (Z.eqb_neq _ _) Hd).
    + rewrite decide_False; [apply HM0|]. rewrite Hmem. congruence.
  - done.
Qed.

End MissingJobs.

Lemma missing_jobs_killed_after_n_misses_witness :
  let missing i := hasJob example_lost i && bool_decide (i ∉ ([] : list Z)) in
  let M := reissueMissingJobs_missingHash example_lost in
  (forall i, i ∈ ([] : list Z) -> hasJob example_lost i = true) /\
  exists jobsToKill,
    NoDup jobsToKill /\
    (forall i, i ∈ jobsToKill <-> missing i = true /\ misses M i = 3) /\
    killed (batchSystem example_lost_rescued)
      = killed (batchSystem example_lost) ++ jobsToKill /\
    (forall i, hasJob example_lost_rescued i
               = hasJob example_lost i && bool_decide (i ∉ jobsToKill)) /\
    (forall i,
       reissueMissingJobs_missingHash example_lost_rescued !! i =
         if missing i then (if misses M i =? 3 then None else Some (misses M i))
         else if hasJob example_lost i then M !! i else None) /\
    true = bool_decide (reissueMissingJobs_missingHash example_lost_rescued = ∅).
Proof.
  apply (missing_jobs_killed_after_n_misses setupJobAfterFailure_spec [] 3
           example_lost example_lost_rescued true).
  vm_compute. reflexivity.
Defined.

(** The job that went missing for the third time is killed and comes back
    as a failed job, to be considered again. *)
Example example_lost_job_killed :
  killed (batchSystem example_lost_rescued) = [0] /\
  hasJob example_lost_rescued 0 = false /\
  updatedJobs example_lost_rescued = [0%nat].
Proof. repeat split; vm_compute; reflexivity. Qed.

(** ** The job store: cleaning a store that is in order *)

(** A record that needs no cleaning: it lists no job to delete, has no log
    file, and the phase on top of its stack, if there is one, holds
    descriptors (tuples, as the workers write them) of jobs that exist. *)
Definition in_order (s : JobStore) (j : BatchJob) : Prop :=
  jobsToDelete j = [] /\ logJobStoreFileID j = None /\
  forall top e, last (stack j) = Some top -> e ∈ top ->
    exists sid rest, e = PTuple (PStr sid :: rest) /\ is_Some (jobFiles s !! sid).

Lemma existing_successors_all s phase :
  (forall e, e ∈ phase ->
     exists sid rest, e = PTuple (PStr sid :: rest) /\ is_Some (jobFiles s !! sid)) ->
  exists jobs, existing_successors s phase = Ok jobs /\ length jobs = length phase.
Proof.
  induction phase as [|e phase IH]; intros Hex.
  - by exists [].
  - destruct (Hex e (list_elem_of_here _ _)) as (sid & rest & -> & Hs).
    destruct IH as (jobs & Hj & Hlen).
    { intros e' He'. apply Hex. by right. }
    cbn [existing_successors index0 exists_atom]. simpl. rewrite Hj. simpl.
    unfold exists_. rewrite bool_decide_true by done.
    exists (PStr sid :: jobs). split; [done|]. simpl. by rewrite Hlen.
Qed.

Lemma clean_job_in_order i s j :
  jobFiles s !! i = Some j -> in_order s j -> clean_job i s = Ok s.
Proof.
  intros Hj (Hdel & Hlog & Htop). unfold clean_job.
  rewrite (load_Some _ _ _ Hj). simpl. rewrite Hdel. simpl.
  assert (Hprune : prune_stack s (stack j) false = Ok (stack j, false)).
  { unfold prune_stack. destruct (rev (stack j)) as [|top below] eqn:Er.
    - simpl. assert (stack j = []) as ->; [|done].
      rewrite <- (rev_involutive (stack j)), Er. done.
    - assert (Hstk : stack j = rev below ++ [top]).
      { rewrite <- (rev_involutive (stack j)), Er. done. }
      destruct (existing_successors_all s top) as (jobs & Hjobs & Hlen).
      { intros e He. apply (Htop top e); [|done]. rewrite Hstk. apply last_snoc. }
      cbn [prune_top]. rewrite Hjobs. simpl. rewrite Hlen, Nat.ltb_irrefl. simpl.
      by rewrite Hstk. }
  rewrite Hprune. simpl. rewrite set_stack_same, Hlog. done.
Qed.

Lemma forM_fixed {A S} (body : A -> S -> Res S) (l : list A) (s : S) :
  (forall a, a ∈ l -> body a s = Ok s) -> forM l body s = Ok s.
Proof.
  induction l as [|a l IH]; intros H; [done|]. cbn [forM].
  rewrite (H a) by left. simpl. apply IH. intros a' Ha'. apply H. by right.
Qed.

(** X16.  [clean] changes nothing in a store that is in order: when no
    record lists a job to delete or has a log file, and the top phase of
    every stack holds descriptor tuples of jobs that exist, [clean] returns
    and the records and the files of the jobs are as they were; of the
    temporary files, the stats files are gone.  (A top phase of bare ids, as
    [clean] leaves it after pruning it in part, is not in order: see
    [example_clean_twice].) *)
Theorem clean_leaves_a_store_in_order (s : JobStore) :
  (forall i j, jobFiles s !! i = Some j -> in_order s j) ->
  exists s',
    clean s = Ok s' /\ jobFiles s' = jobFiles s /\ files s' = files s /\
    forall e, e ∈ tempFiles s' <-> e ∈ tempFiles s /\ name_startswith "stats" e.1 = false.
Proof.
  intros Hclean. unfold clean.
  destruct (collate_jobsToDelete_spec s) as (M & -> & HM). simpl.
  assert (M = ∅) as ->.
  { apply set_eq. intros a. rewrite HM. split; [|set_solver].
    intros (i & j & Hj & Ha). destruct (Hclean i j Hj) as (Hdel & _).
    rewrite Hdel in Ha. inversion Ha. }
  rewrite bool_decide_true by done. simpl.
  rewrite forM_fixed.
  2:{ intros i Hi. apply elem_of_jobIDs in Hi as [j Hj].
      exact (clean_job_in_order i s j Hj (Hclean i j Hj)). }
  simpl. eexists. split; [reflexivity|].
  destruct (readStatsAndLogging_spec (fun _ (u : unit) => u) tt s)
    as (_ & Htemp & _ & Hjobs & Hfiles).
  done.
Qed.

Lemma clean_leaves_a_store_in_order_witness :
  exists s',
    clean example_in_order = Ok s' /\
    jobFiles s' = jobFiles example_in_order /\ files s' = files example_in_order /\
    forall e, e ∈ tempFiles s' <->
              e ∈ tempFiles example_in_order /\ name_startswith "stats" e.1 = false.
Proof.
  apply (clean_leaves_a_store_in_order example_in_order).
  intros i j Hj. unfold example_in_order, with_record in Hj. simpl in Hj.
  apply lookup_insert_Some in Hj as [[<- <-]|[_ Hj]].
  - split; [done|]. split; [done|]. intros top e Ht. discriminate.
  - apply lookup_insert_Some in Hj as [[<- <-]|[_ Hj]]; [|by rewrite lookup_empty in Hj].
    split; [done|]. split; [done|]. intros top e [= <-] He.
    apply list_elem_of_singleton in He as ->.
    eexists "B", _. split; [reflexivity|]. vm_compute. eauto.
Defined.

(** ** Promises: what the consumer loads *)

(** Induction over values, through the tuples. *)
Fixpoint PyValue_nested_ind {P : Type} (Q : PyValue P -> Prop)
    (Ha : forall a, Q (VAtom a)) (Hp : forall p, Q (VPromise p))
    (Ht : forall l, Forall Q l -> Q (VTuple l)) (v : PyValue P) : Q v :=
  match v with
  | VAtom a => Ha a
  | VPromise p => Hp p
  | VTuple l =>
      Ht l ((fix go (l : list (PyValue P)) : Forall Q l :=
               match l with
               | [] => @List.Forall_nil _ Q
               | x :: r => @List.Forall_cons _ Q x r (PyValue_nested_ind Q Ha Hp Ht x) (go r)
               end) l)
  end.

(** Pickling reads the heap of promises only. *)
Lemma pickle_value_promises w w' (v : PyValue PromiseRef) :
  promises w' = promises w -> pickle_value w' v = pickle_value w v.
Proof.
  intros Hp. induction v as [a|p|l IH] using PyValue_nested_ind.
  - done.
  - simpl. unfold get_promise. by rewrite Hp.
  - cbn [pickle_value]. f_equal. induction IH as [|x r Hx _ IHr]; [done|].
    rewrite Hx, IHr. done.
Qed.

Lemma pickle_value_not_promise w (v : PyValue PromiseRef) pv :
  isinstance_PromisedTargetReturnValue v = false ->
  pickle_value w v = Ok pv -> isinstance_PromisedTargetReturnValue pv = false.
Proof.
  destruct v as [a|p|l]; [|done|]; intros _ H.
  - by injection H as <-.
  - cbn [pickle_value] in H. inv_bind H. by injection H as <-.
Qed.

(** What [_setReturnValuesForPromises] leaves in the file of a promise. *)
Lemma stored_in_promise_file (w w' : Worker) (target : TargetRef) (t : Target)
    (returnValues : PyValue PromiseRef) :
  targets w !! target = Some t ->
  (forall i j p q f,
     _rvs t !! i = Some p -> _rvs t !! j = Some q ->
     promises w !! p = Some (Some f) -> promises w !! q = Some (Some f) -> i = j) ->
  _setReturnValuesForPromises target returnValues w = Ok w' ->
  forall i p,
    _rvs t !! i = Some p ->
    exists v f pv o,
      argToStore returnValues i = Ok v /\ promises w !! p = Some (Some f) /\
      pickle_value w v = Ok pv /\
      files (jobStore w') !! f = Some (mkFile o (FPickle (KValue pv))).
Proof.
  intros Ht Hdistinct Hset i p Hi.
  unfold _setReturnValuesForPromises, get_target in Hset. rewrite Ht in Hset.
  simpl in Hset.
  set (body := fun '(i, promise) w' =>
                 argToStore returnValues i ≫= fun v => _storeValue promise v w') in Hset.
  assert (Hpres : forall l w1 w2, forM l body w1 = Ok w2 -> promises w2 = promises w1).
  { intros l w1 w2 H.
    eapply (forM_invariant (fun x => promises x = promises w1)) in H; [done| |done].
    intros [j q] s s' _ Hs E. unfold body in E. inv_bind E.
    apply _storeValue_spec in E as (f & pv & _ & _ & Hp & _). congruence. }
  assert (Hin : (i, p) ∈ map_to_list (_rvs t)) by (by apply elem_of_map_to_list).
  pose proof (NoDup_fst_map_to_list (_rvs t)) as Hnd.
  apply list_elem_of_split in Hin as (l1 & l2 & Hl). rewrite Hl in Hset, Hnd.
  rewrite forM_app in Hset. invert_bind Hset as w1 H1.
  cbn [forM] in Hset. invert_bind Hset as w2 H2.
  pose proof (Hpres _ _ _ H1) as Hp1.
  unfold body in H2. invert_bind H2 as v Hv.
  apply _storeValue_spec in H2 as (f & pv & Hpf & Hpick & Hp2 & _ & [fl Hfl] & Hfiles).
  rewrite Hp1 in Hpf. rewrite (pickle_value_promises w w1 v Hp1) in Hpick.
  exists v, f, pv, (owner fl). split; [done|]. split; [done|]. split; [done|].
  eapply (forM_invariant
            (fun x => promises x = promises w /\
                      files (jobStore x) !! f
                        = Some (mkFile (owner fl) (FPickle (KValue pv))))) in Hset.
  - by destruct Hset.
  - intros [j q] s s' Hjq [Hps Hfs] E. unfold body in E. inv_bind E.
    apply _storeValue_spec in E as (f' & pv' & Hpf' & _ & Hp' & _ & _ & Hfiles').
    split; [congruence|]. rewrite Hfiles'.
    rewrite lookup_alter_ne; [done|]. intros <-.
    assert (j = i).
    { eapply (Hdistinct j i q p f'); try done; try congruence.
      apply elem_of_map_to_list. rewrite Hl. apply elem_of_app. right. by right. }
    subst j. rewrite fmap_app in Hnd. apply NoDup_app in Hnd as (_ & _ & Hnd).
    simpl in Hnd. apply NoDup_cons in Hnd as [Hnd _]. apply Hnd.
    apply list_elem_of_fmap. by exists (i, q).
  - split; [congruence|]. rewrite Hfiles. rewrite lookup_alter_eq, Hfl. done.
Qed.

(** X17.  When [_setReturnValuesForPromises] has returned, every promise
    that the target has vended holds the component of the return value that
    its index selects (the value itself for index 0 of a value that is not a
    tuple): unless that component is itself a promise, [loadValue] on the
    promise returns its pickle.  The files of the promises are taken to be
    distinct. *)
Theorem promised_value_loads_as_stored
    (w w' : Worker) (target : TargetRef) (t : Target)
    (returnValues : PyValue PromiseRef) :
  targets w !! target = Some t ->
  (forall i j p q f,
     _rvs t !! i = Some p -> _rvs t !! j = Some q ->
     promises w !! p = Some (Some f) -> promises w !! q = Some (Some f) -> i = j) ->
  _setReturnValuesForPromises target returnValues w = Ok w' ->
  forall i p,
    _rvs t !! i = Some p ->
    exists v f pv,
      argToStore returnValues i = Ok v /\ promises w !! p = Some (Some f) /\
      pickle_value w v = Ok pv /\
      (isinstance_PromisedTargetReturnValue v = false ->
       loadValue (Some f) (jobStore w') = Ok (KValue pv)).
Proof.
  intros Ht Hdistinct Hset i p Hi.
  destruct (stored_in_promise_file w w' target t returnValues Ht Hdistinct Hset i p Hi)
    as (v & f & pv & o & Hv & Hf & Hpick & Hfile).
  exists v, f, pv. split; [done|]. split; [done|]. split; [done|].
  intros Hnp. apply (pickle_value_not_promise _ _ _ Hnp) in Hpick.
  unfold loadValue, readFileStream. rewrite Hfile. simpl. by destruct pv.
Qed.

Lemma promised_value_loads_as_stored_witness :
  exists v f pv,
    argToStore (VTuple [VAtom (PNum 7); VAtom (PStr "seven")]) 1 = Ok v /\
    promises example_two_promises !! 3%nat = Some (Some f) /\
    pickle_value example_two_promises v = Ok pv /\
    (isinstance_PromisedTargetReturnValue v = false ->
     loadValue (Some f) (jobStore example_returned_pair) = Ok (KValue pv)).
Proof.
  apply (promised_value_loads_as_stored example_two_promises example_returned_pair
           0%nat example_target0_two
           (VTuple [VAtom (PNum 7); VAtom (PStr "seven")])).
  - vm_compute. reflexivity.
  - intros i j p q f Hi Hj Hp Hq. simpl in Hi, Hj.
    apply lookup_insert_Some in Hi as [[<- <-]|[_ [<- <-]%lookup_singleton_Some]];
      apply lookup_insert_Some in Hj as [[<- <-]|[_ [<- <-]%lookup_singleton_Some]];
      try reflexivity; vm_compute in Hp, Hq; congruence.
  - vm_compute. reflexivity.
  - vm_compute. reflexivity.
Defined.

(** The consumer of the second promise loads the second component. *)
Example example_loads_second_component :
  promises example_two_promises !! 3%nat = Some (Some "batchjob0/g/tmp2.tmp") /\
  loadValue (Some "batchjob0/g/tmp2.tmp") (jobStore example_returned_pair)
    = Ok (KValue (VAtom (PStr "seven"))).
Proof. split; vm_compute; reflexivity. Qed.

(** ** Promises: the files that [_setFileIDsForPromisedValues] hands out *)

(** What the traversal may change: promises without a file get one; the
    targets, the promises that have a file and the records stay. *)
Record files_set (w0 w1 : Worker) : Prop := mkFilesSet {
  fs_targets : targets w1 = targets w0;
  fs_promises : forall p, is_Some (promises w0 !! p) -> is_Some (promises w1 !! p);
  fs_kept : forall p f, promises w0 !! p = Some (Some f) -> promises w1 !! p = Some (Some f);
  fs_jobs : jobFiles (jobStore w1) = jobFiles (jobStore w0)
}.

Lemma files_set_refl w : files_set w w.
Proof. by split. Qed.

Lemma files_set_trans w1 w2 w3 : files_set w1 w2 -> files_set w2 w3 -> files_set w1 w3.
Proof.
  intros [A1 A2 A3 A4] [B1 B2 B3 B4]. split; [congruence|auto|auto|congruence].
Qed.

Definition has_file (w : Worker) (p : PromiseRef) : Prop :=
  exists f, promises w !! p = Some (Some f).

Lemma has_file_kept w w' p : files_set w w' -> has_file w p -> has_file w' p.
Proof. intros H [f Hf]. exists f. by apply (fs_kept _ _ H). Qed.

Lemma setFileID_spec (jobStoreID_ : string) (p : PromiseRef) (w : Worker) :
  exists_ (jobStore w) jobStoreID_ = true -> is_Some (promises w !! p) ->
  exists w', setFileID jobStoreID_ p w = Ok w' /\ files_set w w' /\ has_file w' p.
Proof.
  intros Hjob [o Hp]. unfold setFileID, get_promise. rewrite Hp. simpl.
  destruct o as [f|].
  - exists w. split; [done|]. split; [apply files_set_refl|by exists f].
  - unfold getEmptyFileStoreID, writeFileStream, _checkJobStoreId. rewrite Hjob. simpl.
    eexists. split; [reflexivity|]. split.
    + split; simpl; [done| | |done].
      * intros q Hq. destruct (decide (q = p)) as [->|Hne].
        -- rewrite lookup_insert_eq. eauto.
        -- by rewrite lookup_insert_ne.
      * intros q f Hq. rewrite lookup_insert_ne; [done|]. intros <-. congruence.
    + eexists. simpl. apply lookup_insert_eq.
Qed.

Lemma setFileID_loop (jobStoreID_ : string) (ps : list PromiseRef) :
  forall w,
    exists_ (jobStore w) jobStoreID_ = true ->
    (forall p, p ∈ ps -> is_Some (promises w !! p)) ->
    exists w',
      forM ps (setFileID jobStoreID_) w = Ok w' /\ files_set w w' /\
      forall p, p ∈ ps -> has_file w' p.
Proof.
  induction ps as [|p ps IH]; intros w Hjob Hps; cbn [forM].
  - exists w. split; [done|]. split; [apply files_set_refl|]. intros p Hp. inversion Hp.
  - destruct (setFileID_spec jobStoreID_ p w Hjob (Hps p (list_elem_of_here _ _)))
      as (w1 & -> & Hg1 & Hp1).
    simpl. destruct (IH w1) as (w' & -> & Hg & Hall).
    { unfold exists_. rewrite (fs_jobs _ _ Hg1). exact Hjob. }
    { intros q Hq. apply (fs_promises _ _ Hg1), Hps. by right. }
    exists w'. split; [done|]. split; [by eapply files_set_trans|].
    intros q [->|Hq]%elem_of_cons; [by eapply has_file_kept|auto].
Qed.

(** The promises that a target has vended. *)
Definition vended (w : Worker) (x : TargetRef) (p : PromiseRef) : Prop :=
  exists t i, targets w !! x = Some t /\ _rvs t !! i = Some p.

Section SetFileIDs.

Variable jobStoreID_ : string.
Variable w0 : Worker.
Hypothesis Hclosed : heap_closed w0.
Hypothesis Hvended : forall x p, vended w0 x p -> is_Some (promises w0 !! p).
Hypothesis Hjob : exists_ (jobStore w0) jobStoreID_ = true.

Record set_post (from : TargetRef -> Prop) (st0 st : gset TargetRef * Worker) : Prop :=
  mkSetPost {
    sp_visited : dfs_post w0 from st0.1 st.1;
    sp_files : files_set st0.2 st.2;
    sp_set : forall x p, x ∈ st.1 -> x ∉ st0.1 -> vended w0 x p -> has_file st.2 p
  }.

Lemma set_loop (fuel : nat) :
  (forall self V0 w,
     files_set w0 w -> is_Some (targets w0 !! self) -> (unvisited w0 V0 < fuel)%nat ->
     exists st, _setFileIDsForPromisedValues fuel jobStoreID_ self (V0, w) = Ok st /\
                self ∈ st.1 /\ set_post (eq self) (V0, w) st) ->
  forall (l : list TargetRef) V0 w,
    files_set w0 w -> (forall c, c ∈ l -> is_Some (targets w0 !! c)) ->
    (unvisited w0 V0 < fuel)%nat ->
    exists st, forM l (_setFileIDsForPromisedValues fuel jobStoreID_) (V0, w) = Ok st /\
               (forall c, c ∈ l -> c ∈ st.1) /\ set_post (fun r => r ∈ l) (V0, w) st.
Proof.
  intros Hcall l. induction l as [|c l IH]; intros V0 w Hw Hl Hfuel; cbn [forM].
  - exists (V0, w). split; [done|]. split; [intros c Hc; inversion Hc|].
    split; simpl; [|apply files_set_refl|intros; done].
    split; [done|intros; done|intros; done].
  - destruct (Hcall c V0 w Hw (Hl c (list_elem_of_here _ _)) Hfuel)
      as ([V1 w1] & -> & Hc & [[G1 R1 C1] F1 S1]).
    simpl in *.
    destruct (IH V1 w1) as ([V w'] & HV & Hin & [[G2 R2 C2] F2 S2]).
    { by eapply files_set_trans. }
    { intros c' Hc'. apply Hl. by right. }
    { pose proof (unvisited_mono w0 _ _ G1). lia. }
    simpl in *. exists (V, w'). split; [done|]. split; [|split; simpl].
    + intros c' [->|Hc']%elem_of_cons; [set_solver|auto].
    + split.
      * set_solver.
      * intros x Hx Hn. destruct (decide (x ∈ V1)) as [Hx1|Hx1].
        -- destruct (R1 x Hx1 Hn) as (r & <- & Hr). exists c. split; [left|done].
        -- destruct (R2 x Hx Hx1) as (r & Hr & Hrx). exists r. split; [by right|done].
      * intros x y Hx Hn Hxy. destruct (decide (x ∈ V1)) as [Hx1|Hx1].
        -- apply G2. by eapply C1.
        -- by eapply C2.
    + by eapply files_set_trans.
    + intros x p Hx Hn Hv. destruct (decide (x ∈ V1)) as [Hx1|Hx1].
      * eapply has_file_kept; [exact F2|]. by eapply S1.
      * by eapply S2.
Qed.

Lemma set_spec (fuel : nat) :
  forall self V0 w,
    files_set w0 w -> is_Some (targets w0 !! self) -> (unvisited w0 V0 < fuel)%nat ->
    exists st, _setFileIDsForPromisedValues fuel jobStoreID_ self (V0, w) = Ok st /\
               self ∈ st.1 /\ set_post (eq self) (V0, w) st.
Proof.
  induction fuel as [|fuel IH]; intros self V0 w Hw [t Ht] Hfuel; [lia|].
  cbn beta iota zeta delta [_setFileIDsForPromisedValues]. case_bool_decide as Hv.
  - exists (V0, w). split; [done|]. split; [done|].
    split; simpl; [|apply files_set_refl|intros; done].
    split; [done|intros; done|intros; done].
  - unfold get_target. rewrite (fs_targets _ _ Hw), Ht. simpl.
    destruct (setFileID_loop jobStoreID_ (map_to_list (_rvs t)).*2 w)
      as (w1 & -> & Hg1 & Hall).
    { unfold exists_. rewrite (fs_jobs _ _ Hw). exact Hjob. }
    { intros p Hp. apply (fs_promises _ _ Hw). apply (Hvended self).
      apply list_elem_of_fmap in Hp as ([i q] & -> & Hiq).
      apply elem_of_map_to_list in Hiq. by exists t, i. }
    simpl.
    destruct (set_loop fuel IH (_children t ++ _followOns t) ({[self]} ∪ V0) w1)
      as ([V w'] & HV & Hin & [[G R C] F S]).
    { by eapply files_set_trans. }
    { intros c Hc. apply (Hclosed self c). by exists t. }
    { pose proof (unvisited_add w0 V0 self (ltac:(eauto)) Hv). lia. }
    simpl in *. exists (V, w'). split; [done|]. split; [set_solver|].
    split; simpl.
    + split.
      * set_solver.
      * intros x Hx Hn. exists self. split; [done|].
        destruct (decide (x = self)) as [->|Hne]; [done|].
        destruct (R x Hx) as (c & Hc & Hcx); [set_solver|].
        eapply rtc_l; [|exact Hcx]. by exists t.
      * intros x y Hx Hn Hxy. destruct (decide (x = self)) as [->|Hne].
        -- apply Hin. destruct Hxy as (t' & Ht' & Hy). congruence.
        -- eapply C; [exact Hx|set_solver|exact Hxy].
    + by eapply files_set_trans.
    + intros x p Hx Hn Hvd. destruct (decide (x = self)) as [->|Hne].
      * eapply has_file_kept; [exact F|]. apply Hall.
        destruct Hvd as (t' & i & Ht' & Hi). assert (t' = t) as -> by congruence.
        apply list_elem_of_fmap. exists (i, p). split; [done|].
        by apply elem_of_map_to_list.
      * eapply S; [exact Hx|set_solver|exact Hvd].
Qed.

End SetFileIDs.

(** X18.  [_setFileIDsForPromisedValues], started with no target visited,
    returns (with more fuel than there are targets) and has then visited the
    targets reachable from the one it starts at; every promise vended by one
    of them has a [jobStoreFileID]; a promise that had one keeps it; the
    targets and the records of the store are as they were. *)
Theorem _setFileIDsForPromisedValues_sets_every_file
    (fuel : nat) (jobStoreID_ : string) (self : TargetRef) (w : Worker) :
  heap_closed w ->
  (forall x p, vended w x p -> is_Some (promises w !! p)) ->
  exists_ (jobStore w) jobStoreID_ = true ->
  is_Some (targets w !! self) -> (size (targets w) < fuel)%nat ->
  exists V w',
    _setFileIDsForPromisedValues fuel jobStoreID_ self (∅, w) = Ok (V, w') /\
    (forall x, x ∈ V <-> rtc (edge w) self x) /\
    (forall x p, rtc (edge w) self x -> vended w x p -> has_file w' p) /\
    (forall p f, promises w !! p = Some (Some f) -> promises w' !! p = Some (Some f)) /\
    targets w' = targets w /\ jobFiles (jobStore w') = jobFiles (jobStore w).
Proof.
  intros Hclosed Hvended Hjob Hself Hfuel.
  assert (Hun : (unvisited w ∅ < fuel)%nat).
  { unfold unvisited. rewrite difference_empty_L, size_dom. done. }
  destruct (set_spec jobStoreID_ w Hclosed Hvended Hjob fuel self ∅ w
              (files_set_refl w) Hself Hun) as ([V w'] & Hrun & Hin & [Hpost F S]).
  simpl in *. exists V, w'. split; [done|].
  assert (HV : forall x, x ∈ V <-> rtc (edge w) self x).
  { intros x.
    rewrite (dfs_post_reachable w Hclosed (eq self) V (fun r Hr => ltac:(by subst)) Hpost).
    split; [by intros (r & <- & ?)|eauto]. }
  split; [done|]. split; [|split; [|split]].
  - intros x p Hx Hv. apply (S x p); [by apply HV|set_solver|done].
  - apply (fs_kept _ _ F).
  - apply (fs_targets _ _ F).
  - apply (fs_jobs _ _ F).
Qed.

Lemma vended_okb_ok w :
  vended_okb w = true -> forall x p, vended w x p -> is_Some (promises w !! p).
Proof.
  intros H x p (t & i & Ht & Hi). unfold vended_okb in H.
  rewrite forallb_forall in H. specialize (H (x, t)). simpl in H.
  rewrite forallb_forall in H.
  eapply bool_decide_eq_true_1, (H _ (i, p)).
  Unshelve.
  - apply list_elem_of_In, elem_of_map_to_list. done.
  - apply list_elem_of_In, elem_of_map_to_list. done.
Qed.

Lemma _setFileIDsForPromisedValues_sets_every_file_witness :
  exists V w',
    _setFileIDsForPromisedValues 3 "batchjob0" 0 (∅, example_promised_in_store)
      = Ok (V, w') /\
    (forall x, x ∈ V <-> rtc (edge example_promised_in_store) 0%nat x) /\
    (forall x p, rtc (edge example_promised_in_store) 0%nat x ->
                 vended example_promised_in_store x p -> has_file w' p) /\
    (forall p f, promises example_promised_in_store !! p = Some (Some f) ->
                 promises w' !! p = Some (Some f)) /\
    targets w' = targets example_promised_in_store /\
    jobFiles (jobStore w') = jobFiles (jobStore example_promised_in_store).
Proof.
  apply (_setFileIDsForPromisedValues_sets_every_file 3 "batchjob0" 0
           example_promised_in_store).
  - apply heap_closedb_ok. vm_compute. reflexivity.
  - apply vended_okb_ok. vm_compute. reflexivity.
  - vm_compute. reflexivity.
  - vm_compute. eauto.
  - vm_compute. lia.
Defined.

(** ** Serialising: a uuid for every descendant *)

(** The uuids in the dictionary are uuids handed out so far, one call of
    [uuid] for each target. *)
Definition uuids_assigned (st : gmap TargetRef string * Worker) : Prop :=
  exists idx : TargetRef -> nat,
    (forall x u, st.1 !! x = Some u ->
       u = uuids st.2 (idx x) /\ (idx x < uuids_used st.2)%nat) /\
    (forall x y, is_Some (st.1 !! x) -> is_Some (st.1 !! y) -> idx x = idx y -> x = y).

Section HashOfTargets.

Variable w0 : Worker.
Hypothesis Hclosed : heap_closed w0.

Record hash_post (from : TargetRef -> Prop) (st0 st : gmap TargetRef string * Worker)
  : Prop := mkHashPost {
    hp_visited : dfs_post w0 from (dom st0.1) (dom st.1);
    hp_kept : st0.1 ⊆ st.1;
    hp_targets : targets st.2 = targets st0.2;
    hp_uuids : uuids st.2 = uuids st0.2;
    hp_used : (uuids_used st.2 + size st0.1 = uuids_used st0.2 + size st.1)%nat;
    hp_assigned : uuids_assigned st0 -> uuids_assigned st
  }.

Lemma hash_post_refl from st : hash_post from st st.
Proof.
  split; try done; try lia.
Qed.

Lemma hash_loop (fuel : nat) :
  (forall self st0,
     targets st0.2 = targets w0 -> is_Some (targets w0 !! self) ->
     (unvisited w0 (dom st0.1) < fuel)%nat ->
     exists st, _getHashOfTargetsToUUIDs2 fuel self st0 = Ok st /\
                self ∈ dom st.1 /\ hash_post (eq self) st0 st) ->
  forall (l : list TargetRef) st0,
    targets st0.2 = targets w0 -> (forall c, c ∈ l -> is_Some (targets w0 !! c)) ->
    (unvisited w0 (dom st0.1) < fuel)%nat ->
    exists st, forM l (_getHashOfTargetsToUUIDs2 fuel) st0 = Ok st /\
               (forall c, c ∈ l -> c ∈ dom st.1) /\ hash_post (fun r => r ∈ l) st0 st.
Proof.
  intros Hcall l. induction l as [|c l IH]; intros st0 Ht Hl Hfuel; cbn [forM].
  - exists st0. split; [done|]. split; [intros c Hc; inversion Hc|]. apply hash_post_refl.
  - destruct (Hcall c st0 Ht (Hl c (list_elem_of_here _ _)) Hfuel)
      as (st1 & -> & Hc & [[G1 R1 C1] K1 T1 U1 N1 A1]).
    simpl.
    destruct (IH st1) as (st & HV & Hin & [[G2 R2 C2] K2 T2 U2 N2 A2]).
    { congruence. }
    { intros c' Hc'. apply Hl. by right. }
    { pose proof (unvisited_mono w0 _ _ G1). lia. }
    exists st. split; [done|]. split; [|split].
    + intros c' [->|Hc']%elem_of_cons; [set_solver|auto].
    + split.
      * set_solver.
      * intros x Hx Hn. destruct (decide (x ∈ dom st1.1)) as [Hx1|Hx1].
        -- destruct (R1 x Hx1 Hn) as (r & <- & Hr). exists c. split; [left|done].
        -- destruct (R2 x Hx Hx1) as (r & Hr & Hrx). exists r. split; [by right|done].
      * intros x y Hx Hn Hxy. destruct (decide (x ∈ dom st1.1)) as [Hx1|Hx1].
        -- apply G2. by eapply C1.
        -- by eapply C2.
    + by etrans.
    + congruence.
    + congruence.
    + lia.
    + auto.
Qed.

Lemma hash_spec (fuel : nat) :
  forall self st0,
    targets st0.2 = targets w0 -> is_Some (targets w0 !! self) ->
    (unvisited w0 (dom st0.1) < fuel)%nat ->
    exists st, _getHashOfTargetsToUUIDs2 fuel self st0 = Ok st /\
               self ∈ dom st.1 /\ hash_post (eq self) st0 st.
Proof.
  induction fuel as [|fuel IH]; intros self [M0 w] Hw [t Ht] Hfuel; [lia|].
  simpl in Hw, Hfuel.
  cbn beta iota zeta delta [_getHashOfTargetsToUUIDs2]. case_bool_decide as Hv.
  - exists (M0, w). split; [done|]. split; [by apply elem_of_dom|]. apply hash_post_refl.
  - assert (HM0 : M0 !! self = None).
    { destruct (M0 !! self) eqn:E; [|done]. exfalso. apply Hv. eauto. }
    unfold uuid. cbn beta iota zeta. unfold get_target. simpl. rewrite Hw, Ht. simpl.
    set (w1 := with_uuids_used (S (uuids_used w)) w).
    set (M1 := <[self := uuids w (uuids_used w)]> M0).
    destruct (hash_loop fuel IH (_children t ++ _followOns t) (M1, w1))
      as ([M w'] & HV & Hin & [[G R C] K T U N A]).
    { done. }
    { intros c Hc. apply (Hclosed self c). by exists t. }
    { simpl. unfold M1. rewrite dom_insert_L.
      apply not_elem_of_dom in HM0.
      pose proof (unvisited_add w0 (dom M0) self (ltac:(eauto)) HM0). lia. }
    simpl in *. exists (M, w'). split; [done|].
    assert (Hself : self ∈ dom M).
    { apply G. unfold M1. rewrite dom_insert_L. set_solver. }
    split; [done|]. unfold M1 in *. rewrite dom_insert_L in G, R, C. split; simpl.
    + split.
      * set_solver.
      * intros x Hx Hn. exists self. split; [done|].
        destruct (decide (x = self)) as [->|Hne]; [done|].
        destruct (R x Hx) as (c & Hc & Hcx); [set_solver|].
        eapply rtc_l; [|exact Hcx]. by exists t.
      * intros x y Hx Hn Hxy. destruct (decide (x = self)) as [->|Hne].
        -- apply Hin. destruct Hxy as (t' & Ht' & Hy). congruence.
        -- eapply C; [exact Hx|set_solver|exact Hxy].
    + etrans; [|exact K]. by apply insert_subseteq.
    + done.
    + done.
    + rewrite map_size_insert_None in N by done. lia.
    + intros (idx & Hidx & Hinj). apply A.
      exists (fun x => if decide (x = self) then uuids_used w else idx x). split.
      * intros x u Hx. simpl in *. destruct (decide (x = self)) as [->|Hne].
        -- rewrite lookup_insert_eq in Hx. injection Hx as <-. split; [done|lia].
        -- rewrite lookup_insert_ne in Hx by done.
           destruct (Hidx x u Hx) as [-> Hlt]. split; [done|lia].
      * intros x y [ux Hx] [uy Hy]. simpl in *.
        destruct (decide (x = self)) as [->|Hnx]; destruct (decide (y = self)) as [->|Hny];
          try done.
        -- rewrite lookup_insert_ne in Hy by done.
           destruct (Hidx y uy Hy) as [_ Hlt]. lia.
        -- rewrite lookup_insert_ne in Hx by done.
           destruct (Hidx x ux Hx) as [_ Hlt]. lia.
        -- rewrite lookup_insert_ne in Hx, Hy by done. apply Hinj; eauto.
Qed.

End HashOfTargets.

(** X19.  [_getHashOfTargetsToUUIDs] on an empty dictionary returns (with
    more fuel than there are targets) a dictionary whose keys are the targets
    that can be reached from the target over one edge or more: the root is
    a key only if it lies on a cycle.  Each key has cost one call of [uuid],
    and when no uuid comes twice, no two keys have the same uuid. *)
Theorem _getHashOfTargetsToUUIDs_names_every_descendant
    (fuel : nat) (self : TargetRef) (w : Worker) :
  heap_closed w -> is_Some (targets w !! self) -> (size (targets w) < fuel)%nat ->
  exists M w',
    _getHashOfTargetsToUUIDs fuel self (∅, w) = Ok (M, w') /\
    (forall x, is_Some (M !! x) <-> tc (edge w) self x) /\
    targets w' = targets w /\
    uuids_used w' = (uuids_used w + size M)%nat /\
    ((forall j k, uuids w j = uuids w k -> j = k) ->
     forall x y u, M !! x = Some u -> M !! y = Some u -> x = y).
Proof.
  intros Hclosed [t Ht] Hfuel. unfold _getHashOfTargetsToUUIDs, get_target. simpl.
  rewrite Ht. simpl.
  assert (Hun : (unvisited w (dom (∅ : gmap TargetRef string)) < fuel)%nat).
  { unfold unvisited. rewrite dom_empty_L, difference_empty_L, size_dom. done. }
  destruct (hash_loop w Hclosed fuel (hash_spec w Hclosed fuel)
              (_children t ++ _followOns t) (∅, w) eq_refl)
    as ([M w'] & HV & Hin & [Hpost K T U N A]); [|done|].
  { intros c Hc. apply (Hclosed self c). by exists t. }
  simpl in *. exists M, w'. split; [done|]. split; [|split; [done|split]].
  - intros x. rewrite <- elem_of_dom. rewrite dom_empty_L in Hpost.
    rewrite (dfs_post_reachable w Hclosed _ (dom M) Hin Hpost). split.
    + intros (c & Hc & Hcx). eapply tc_rtc_r; [|exact Hcx]. apply tc_once. by exists t.
    + intros Hx. inversion Hx as [? ? (t' & Ht' & Hc)|? c ? (t' & Ht' & Hc) Hcx]; subst.
      * exists x. split; [congruence|apply rtc_refl].
      * exists c. split; [congruence|by apply tc_rtc].
  - rewrite map_size_empty in N. lia.
  - intros Hinj x y u Hx Hy.
    destruct A as (idx & Hidx & Hidx_inj).
    { exists (fun _ => 0%nat). split.
      - intros x0 u0 H. simpl in H. by rewrite lookup_empty in H.
      - intros x0 y0 [u0 H]. simpl in H. by rewrite lookup_empty in H. }
    simpl in *. apply Hidx_inj; [eauto|eauto|].
    destruct (Hidx x u Hx) as [Hux _]. destruct (Hidx y u Hy) as [Huy _].
    apply Hinj. rewrite U in Hux, Huy. congruence.
Qed.

Lemma _getHashOfTargetsToUUIDs_names_every_descendant_witness :
  exists M w',
    _getHashOfTargetsToUUIDs 4 0 (∅, example_fork) = Ok (M, w') /\
    (forall x, is_Some (M !! x) <-> tc (edge example_fork) 0%nat x) /\
    targets w' = targets example_fork /\
    uuids_used w' = (uuids_used example_fork + size M)%nat /\
    ((forall j k, uuids example_fork j = uuids example_fork k -> j = k) ->
     forall x y u, M !! x = Some u -> M !! y = Some u -> x = y).
Proof.
  apply (_getHashOfTargetsToUUIDs_names_every_descendant 4 0 example_fork).
  - apply heap_closedb_ok. vm_compute. reflexivity.
  - vm_compute. eauto.
  - vm_compute. lia.
Defined.

(** The child and the follow-on of target 0 get a uuid each; target 0 gets
    none. *)
Example example_hash_of_targets :
  (_getHashOfTargetsToUUIDs 4 0 (∅, example_fork) ≫= fun st => Ok st.1)
  = Ok {[1%nat := "uuid0"; 2%nat := "uuid1"]}.
Proof. vm_compute. reflexivity. Qed.

(** ** The leader: a workflow of one job *)

Section SingleJob.

Variable setupJobAfterFailure : Config -> BatchJob -> BatchJob.

(** X20.  A workflow whose root job has a command.  With no retry left the
    job is not issued and [mainLoop] returns 1.  With a retry left the job
    is issued with its own resources; when the batch system then reports it
    finished and its record is gone from the store, [mainLoop] returns 0. *)
Theorem mainLoop_of_a_single_job
    (fuel : nat) (startTime : Q) (b : BatchSystem) (s : JobStore)
    (rootJob : BatchJob) (cmd : string) (t : Tick) (ticks : list Tick) (r : Z) :
  command rootJob = Some cmd ->
  (remainingRetryCount rootJob <= 0 ->
   exists l,
     mainLoop setupJobAfterFailure (S fuel) ticks startTime [] b s rootJob = Ok (1, l) /\
     issued (batchSystem l) = issued b) /\
  (0 < remainingRetryCount rootJob ->
   updatedJob t = Some (nextJobID b, r) ->
   exists_ (workers t s) (jobStoreID rootJob) = false ->
   exists l,
     mainLoop setupJobAfterFailure (S fuel) (t :: ticks) startTime [] b s rootJob
       = Ok (0, l) /\
     issued (batchSystem l) =
       issued b ++ [(nextJobID b, PStr (jobStoreID rootJob), memory rootJob,
                     cpu rootJob, disk rootJob)]).
Proof.
  intros Hcmd. unfold mainLoop. cbn beta iota zeta delta [_buildToilState].
  unfold get_obj. cbn [objs]. rewrite lookup_singleton_eq. simpl.
  rewrite Hcmd. rewrite bool_decide_true by done. simpl.
  unfold updatedJobs_add. cbn [updatedJobs]. rewrite bool_decide_false by (intros H; inversion H).
  simpl. split.
  - intros Hretry. rewrite main_loop_unfold.
    unfold process_updatedJobs. cbn [updatedJobs with_updatedJobs forM].
    unfold process_updatedJob, get_obj. cbn [objs with_updatedJobs].
    rewrite lookup_singleton_eq. simpl.
    rewrite Hcmd. rewrite bool_decide_true by done.
    replace (0 <? remainingRetryCount rootJob) with false by (symmetry; apply Z.ltb_ge; lia).
    simpl. eexists. split; [reflexivity|]. done.
  - intros Hretry Hup Hgone. cbn [main_loop].
    unfold process_updatedJobs. cbn [updatedJobs with_updatedJobs forM].
    unfold process_updatedJob, get_obj. cbn [objs with_updatedJobs].
    rewrite lookup_singleton_eq. simpl.
    rewrite Hcmd. rewrite bool_decide_true by done.
    replace (0 <? remainingRetryCount rootJob) with true by (symmetry; apply Z.ltb_lt; lia).
    simpl. unfold gather. cbn [store with_store]. rewrite Hup.
    unfold hasJob. simpl. rewrite lookup_insert_eq.
    rewrite bool_decide_true by eauto.
    unfold processFinishedJob, removeJobID. simpl. rewrite lookup_insert_eq. simpl.
    rewrite Hgone. simpl. unfold _updatePredecessorStatus. simpl.
    rewrite lookup_empty. simpl. rewrite !bool_decide_true by done. simpl.
    rewrite main_loop_unfold. unfold process_updatedJobs. simpl.
    eexists. split; [reflexivity|]. done.
Qed.

End SingleJob.

Lemma mainLoop_of_a_single_job_witness :
  exists l,
    mainLoop setupJobAfterFailure_spec 1 [example_R_succeeds] 0 []
      (mkBatchSystem 0 [] []) (with_record example_R example_store) example_R
      = Ok (0, l) /\
    issued (batchSystem l) =
      issued (mkBatchSystem 0 [] [])
        ++ [(nextJobID (mkBatchSystem 0 [] []), PStr (jobStoreID example_R),
             memory example_R, cpu example_R, disk example_R)].
Proof.
  apply (mainLoop_of_a_single_job setupJobAfterFailure_spec 0 0 (mkBatchSystem 0 [] [])
           (with_record example_R example_store) example_R "r" example_R_succeeds [] 0).
  - reflexivity.
  - reflexivity.
  - reflexivity.
  - vm_compute. reflexivity.
Defined.

(** The run of the witness: the job R is issued, succeeds, and the leader
    returns 0. *)
Example example_single_job_succeeds :
  (mainLoop setupJobAfterFailure_spec 1 [example_R_succeeds] 0 []
     (mkBatchSystem 0 [] []) (with_record example_R example_store) example_R
   ≫= fun r => Ok r.1) = Ok 0.
Proof. vm_compute. reflexivity. Qed.

(** * Part IV: defects *)

(** ** Serialising: the jobs of the successors *)





#[local] Arguments _makeJobWrappers : simpl never.



(** A target without successors is committed: the record loses its command
    and the stack is as it was. *)
Example example_commit_of_a_leaf :
  match _serialiseTargetGraph 4 1 example_root example_fork with
  | Ok (job, w) =>
      job = set_command None example_root /\
      jobFiles (jobStore w) !! "batchjob0" = Some job
  | _ => False
  end.
Proof. vm_compute. done. Qed.

(** ** The leader: a join after a restart *)

(** C2.  The loop over a popped phase holds a successor with a predecessor
    id back until all its predecessors are finished
    ([join_issued_when_all_predecessors_finished]).  [_buildToilState], which
    a restart goes through, does not: every successor that it reaches and
    that has a command is put among the updated jobs.  After the restart on
    [example_crashed] the first pass of the loop issues jobJ, of whose two
    predecessors one is finished, together with jobK, its other predecessor;
    and when jobK has run and its phase is popped, jobJ is issued a second
    time. *)
Theorem join_issued_early_after_restart :
  clean example_crashed = Ok example_restart_store /\
  load example_restart_store "jobR" = Ok example_restart_root /\
  _buildToilState 3 0 example_restart_init = Ok example_restart_built /\
  process_updatedJobs example_restart_built = Ok example_restart_pass1 /\
  issued (batchSystem example_restart_pass1) =
    [(0, PStr "jobK", PNum 1, PNum 1, PNum 1);
     (1, PStr "jobJ", PNum 1, PNum 1, PNum 1)] /\
  (exists jobJ,
     load (store example_restart_pass1) "jobJ" = Ok jobJ /\
     predecessorNumber jobJ = 2 /\ predecessorsFinished jobJ = {[PStr "p1"]}) /\
  gather setupJobAfterFailure_spec example_K_finishes example_restart_pass1
    = Ok example_restart_gathered /\
  process_updatedJobs example_restart_gathered = Ok example_restart_pass2 /\
  issued (batchSystem example_restart_pass2) =
    [(0, PStr "jobK", PNum 1, PNum 1, PNum 1);
     (1, PStr "jobJ", PNum 1, PNum 1, PNum 1);
     (2, PStr "jobJ", PNum 1, PNum 1, PNum 1)] /\
  forall ticks,
    toilRestart setupJobAfterFailure_spec 3 (example_K_finishes :: ticks) 0 []
      (mkBatchSystem 0 [] []) "jobR" example_crashed
    = main_loop setupJobAfterFailure_spec ticks example_restart_gathered.
Proof.
  assert (H1 : clean example_crashed = Ok example_restart_store)
    by (vm_compute; reflexivity).
  assert (H2 : load example_restart_store "jobR" = Ok example_restart_root)
    by (vm_compute; reflexivity).
  assert (H3 : _buildToilState 3 0 example_restart_init = Ok example_restart_built)
    by (vm_compute; reflexivity).
  assert (H4 : process_updatedJobs example_restart_built = Ok example_restart_pass1)
    by (vm_compute; reflexivity).
  assert (H5 : gather setupJobAfterFailure_spec example_K_finishes example_restart_pass1
               = Ok example_restart_gathered)
    by (vm_compute; reflexivity).
  assert (H6 : getNumberOfJobsIssued example_restart_pass1 = Ok 2)
    by (vm_compute; reflexivity).
  split; [exact H1|]. split; [exact H2|]. split; [exact H3|]. split; [exact H4|].
  split; [vm_compute; reflexivity|].
  split; [eexists; split; [vm_compute; reflexivity|]; split; vm_compute; reflexivity|].
  split; [exact H5|].
  split; [vm_compute; reflexivity|].
  split; [vm_compute; reflexivity|].
  intros ticks. unfold toilRestart. rewrite H1. cbn [mbind Res_bind]. rewrite H2.
  cbn [mbind Res_bind]. unfold mainLoop. fold example_restart_init.
  rewrite H3. cbn [mbind Res_bind length Nat.eqb py_assert main_loop].
  rewrite H4. cbn [mbind Res_bind]. rewrite H6. cbn [mbind Res_bind Z.eqb].
  rewrite H5. reflexivity.
Qed.

(** ** Building the target graph: the edge that a raising call leaves *)

Lemma repeated_successor (b : TargetRef) (l1 l2 : list TargetRef) :
  b ∈ l1 ++ l2 -> ~ NoDup ((l1 ++ [b]) ++ l2).
Proof.
  intros Hin Hnd. apply NoDup_app in Hnd as (Hnd1 & Hdisj & _).
  apply elem_of_app in Hin as [Hin|Hin].
  - apply NoDup_app in Hnd1 as (_ & Hd & _). apply (Hd b Hin). left.
  - apply (Hdisj b); [|done]. apply elem_of_app. right. left.
Qed.

Lemma repeated_successor_r (b : TargetRef) (l1 l2 : list TargetRef) :
  b ∈ l1 ++ l2 -> ~ NoDup (l1 ++ (l2 ++ [b])).
Proof.
  intros Hin Hnd. apply NoDup_app in Hnd as (_ & Hdisj & Hnd2).
  apply elem_of_app in Hin as [Hin|Hin].
  - apply (Hdisj b Hin). apply elem_of_app. right. left.
  - apply NoDup_app in Hnd2 as (_ & Hd & _). apply (Hd b Hin). left.
Qed.

(** C10.  Once [b] is a successor of [a] and knows [a] as a predecessor,
    [a.addChild(b)] and [a.addFollowOn(b)] raise the RuntimeError of
    [_addPredecessor].  Each of them has by then appended [b] to the list of
    children, or of follow-ons, of [a]: in the heap that the raising call
    leaves, [a] lists [b] twice, [b] still knows [a], and so the next call
    raises again and appends again. *)
Theorem raising_call_leaves_a_second_edge
    (w : Worker) (a b : TargetRef) (ta tb : Target) :
  targets w !! a = Some ta -> targets w !! b = Some tb ->
  b ∈ _children ta ++ _followOns ta -> a ∈ _predecessors tb ->
  ((addChild a b w).2 = Raise already_a_predecessor /\
   exists ta' tb',
     targets (addChild a b w).1 !! a = Some ta' /\
     targets (addChild a b w).1 !! b = Some tb' /\
     _children ta' = _children ta ++ [b] /\ _followOns ta' = _followOns ta /\
     a ∈ _predecessors tb' /\
     ~ NoDup (_children ta' ++ _followOns ta')) /\
  ((addFollowOn a b w).2 = Raise already_a_predecessor /\
   exists ta' tb',
     targets (addFollowOn a b w).1 !! a = Some ta' /\
     targets (addFollowOn a b w).1 !! b = Some tb' /\
     _children ta' = _children ta /\ _followOns ta' = _followOns ta ++ [b] /\
     a ∈ _predecessors tb' /\
     ~ NoDup (_children ta' ++ _followOns ta')).
Proof.
  intros Ha Hb Hin Hp. split.
  - unfold addChild, _addPredecessor. rewrite Ha. simpl.
    destruct (decide (b = a)) as [->|Hne].
    + rewrite lookup_insert_eq. simpl. rewrite Ha in Hb. injection Hb as <-.
      rewrite bool_decide_true by done. simpl. split; [done|].
      eexists _, _. rewrite lookup_insert_eq. split; [done|]. split; [done|].
      simpl. split; [done|]. split; [done|]. split; [done|].
      by apply repeated_successor.
    + rewrite lookup_insert_ne by done. rewrite Hb.
      rewrite bool_decide_true by done. simpl. split; [done|].
      eexists _, _. rewrite lookup_insert_eq, lookup_insert_ne, Hb by done.
      split; [done|]. split; [done|].
      simpl. split; [done|]. split; [done|]. split; [done|].
      by apply repeated_successor.
  - unfold addFollowOn, _addPredecessor. rewrite Ha. simpl.
    destruct (decide (b = a)) as [->|Hne].
    + rewrite lookup_insert_eq. simpl. rewrite Ha in Hb. injection Hb as <-.
      rewrite bool_decide_true by done. simpl. split; [done|].
      eexists _, _. rewrite lookup_insert_eq. split; [done|]. split; [done|].
      simpl. split; [done|]. split; [done|]. split; [done|].
      by apply repeated_successor_r.
    + rewrite lookup_insert_ne by done. rewrite Hb.
      rewrite bool_decide_true by done. simpl. split; [done|].
      eexists _, _. rewrite lookup_insert_eq, lookup_insert_ne, Hb by done.
      split; [done|]. split; [done|].
      simpl. split; [done|]. split; [done|]. split; [done|].
      by apply repeated_successor_r.
Qed.

Lemma raising_call_leaves_a_second_edge_witness :
  (addChild 0 1 example_edge).2 = Raise already_a_predecessor /\
  exists ta' tb',
    targets (addChild 0 1 example_edge).1 !! 0%nat = Some ta' /\
    targets (addChild 0 1 example_edge).1 !! 1%nat = Some tb' /\
    _children ta' = [1%nat] ++ [1%nat] /\ _followOns ta' = [] /\
    0%nat ∈ _predecessors tb' /\
    ~ NoDup (_children ta' ++ _followOns ta').
Proof.
  apply (raising_call_leaves_a_second_edge example_edge 0%nat 1%nat
           (mkTarget sys_maxint 3 [1%nat] [] ∅ "dir" ["mod.A"] ∅)
           (mkTarget 5 sys_maxint [] [] {[0%nat]} "dir" ["mod.B"] ∅)).
  - reflexivity.
  - reflexivity.
  - simpl. apply list_elem_of_here.
  - set_solver.
Defined.

(** The failing input of C10 run: target 1 is made a child of target 0
    twice, the second call raises, and a third call raises as well; target 0
    then lists target 1 three times. *)
Example example_edge_declared_again :
  let w2 := (addChild 0 1 example_edge).1 in
  let w3 := (addChild 0 1 w2).1 in
  (addChild 0 1 example_edge).2 = Raise already_a_predecessor /\
  (_children <$> targets w2 !! 0%nat) = Some [1%nat; 1%nat] /\
  (addChild 0 1 w2).2 = Raise already_a_predecessor /\
  (_children <$> targets w3 !! 0%nat) = Some [1%nat; 1%nat; 1%nat].
Proof. repeat split; vm_compute; reflexivity. Qed.

(** ** Promises: a promise that [run] returns *)

(** C6.  Whatever the [run] of a target returns, a
    [PromisedTargetReturnValue] included: when the target has vended no
    promise, [_setReturnValuesForPromises] looks at no part of the value,
    raises nothing and leaves the heap and the store as they are.  No check
    is made on the worker of the job that returned the promise. *)
Theorem returned_promise_goes_unchecked
    (w : Worker) (target : TargetRef) (t : Target) (returnValues : PyValue PromiseRef) :
  targets w !! target = Some t -> _rvs t = ∅ ->
  _setReturnValuesForPromises target returnValues w = Ok w.
Proof.
  intros Ht Hr. unfold _setReturnValuesForPromises, get_target. rewrite Ht. simpl.
  rewrite Hr, map_to_list_empty. reflexivity.
Qed.

Lemma returned_promise_goes_unchecked_witness :
  _setReturnValuesForPromises 1 (VPromise 2%nat) example_promise_file
    = Ok example_promise_file.
Proof.
  apply (returned_promise_goes_unchecked example_promise_file 1%nat
           (mkTarget 5 sys_maxint [] [] ∅ "dir" ["mod.B"] ∅) (VPromise 2%nat)).
  - reflexivity.
  - reflexivity.
Defined.
